(** * Parental controls: device registry and firewall reconciliation

    A shallow embedding of [backend/mac_manager.py] (class
    [MACAddressManager]) and [backend/opnsense_integration.py] (class
    [OPNsenseManager]), with the properties of the specification stated
    and proved over it.

    Conventions of the embedding.
    - A Python [str] is a list of code points ([list N]).  The case
      mappings, the white space and the decimal digits are those of
      CPython 3.11 (Unicode 14.0), held as tables.
    - Python exceptions are values of [Error]; a method that can raise
      returns a [result].
    - The file system and the remote host are explicit states that every
      method threads through. *)

From Stdlib Require Import Ascii String.
From Stdlib Require Import List NArith ZArith Lia Bool Arith.
From Stdlib Require Import Strings.Byte.
From Stdlib Require Import Sorting.Sorted.
From Stdlib Require DecimalString DecimalZ.
Import ListNotations.

Set Warnings "-register-all".

Local Open Scope list_scope.
Local Open Scope bool_scope.

(* ================================================================== *)
(** ** Python strings *)
(* ================================================================== *)

Module PyStr.

Local Open Scope N_scope.

(** A character is a code point. *)
Definition char := N.
Definition str := list char.

(** String literals (ASCII). *)
Definition lit (s : string) : str := map N_of_ascii (list_ascii_of_string s).
Arguments lit s%_string.

Definition between (lo hi : N) (c : char) : bool :=
  ((lo <=? c) && (c <=? hi))%N.

Definition is_digit (c : char) : bool := between 48 57 c.
Definition is_upper (c : char) : bool := between 65 90 c.
Definition is_lower (c : char) : bool := between 97 122 c.

(** [str.isspace] for one character, which is also what [str.strip]
    removes and what the regular expression class [\s] matches: TAB,
    LF, VT, FF, CR, FS, GS, RS, US, SPACE, NEL, NBSP and the Unicode
    spaces and separators. *)
Definition is_space (c : char) : bool :=
  between 0x9 0xD c || between 0x1C 0x20 c ||
  between 0x85 0x85 c || between 0xA0 0xA0 c || between 0x1680 0x1680 c ||
  between 0x2000 0x200A c || between 0x2028 0x2029 c ||
  between 0x202F 0x202F c || between 0x205F 0x205F c ||
  between 0x3000 0x3000 c.

(** The class [[0-9A-Fa-f]]. *)
Definition is_hex (c : char) : bool :=
  is_digit c || between 65 70 c || between 97 102 c.

(** The class [[0-9A-F]]. *)
Definition is_upper_hex (c : char) : bool :=
  is_digit c || between 65 70 c.

Definition eqb_char (a b : char) : bool := N.eqb a b.

(** The code points that [str.upper] maps to one other code point, as
    runs [(first, last, step, image of first)]: every [step]-th code
    point from [first] to [last] is mapped at the same distance. *)
Definition UPPER_RUNS : list (N * N * N * N) :=
  [
    (0x61, 0x7A, 1, 0x41); (0xB5, 0xB5, 1, 0x39C); (0xE0, 0xF6, 1, 0xC0);
    (0xF8, 0xFE, 1, 0xD8); (0xFF, 0xFF, 1, 0x178); (0x101, 0x12F, 2, 0x100);
    (0x131, 0x131, 1, 0x49); (0x133, 0x137, 2, 0x132);
    (0x13A, 0x148, 2, 0x139); (0x14B, 0x177, 2, 0x14A);
    (0x17A, 0x17E, 2, 0x179); (0x17F, 0x17F, 1, 0x53);
    (0x180, 0x180, 1, 0x243); (0x183, 0x185, 2, 0x182);
    (0x188, 0x188, 1, 0x187); (0x18C, 0x18C, 1, 0x18B);
    (0x192, 0x192, 1, 0x191); (0x195, 0x195, 1, 0x1F6);
    (0x199, 0x199, 1, 0x198); (0x19A, 0x19A, 1, 0x23D);
    (0x19E, 0x19E, 1, 0x220); (0x1A1, 0x1A5, 2, 0x1A0);
    (0x1A8, 0x1A8, 1, 0x1A7); (0x1AD, 0x1AD, 1, 0x1AC);
    (0x1B0, 0x1B0, 1, 0x1AF); (0x1B4, 0x1B6, 2, 0x1B3);
    (0x1B9, 0x1B9, 1, 0x1B8); (0x1BD, 0x1BD, 1, 0x1BC);
    (0x1BF, 0x1BF, 1, 0x1F7); (0x1C5, 0x1C5, 1, 0x1C4);
    (0x1C6, 0x1C6, 1, 0x1C4); (0x1C8, 0x1C8, 1, 0x1C7);
    (0x1C9, 0x1C9, 1, 0x1C7); (0x1CB, 0x1CB, 1, 0x1CA);
    (0x1CC, 0x1CC, 1, 0x1CA); (0x1CE, 0x1DC, 2, 0x1CD);
    (0x1DD, 0x1DD, 1, 0x18E); (0x1DF, 0x1EF, 2, 0x1DE);
    (0x1F2, 0x1F2, 1, 0x1F1); (0x1F3, 0x1F3, 1, 0x1F1);
    (0x1F5, 0x1F5, 1, 0x1F4); (0x1F9, 0x21F, 2, 0x1F8);
    (0x223, 0x233, 2, 0x222); (0x23C, 0x23C, 1, 0x23B);
    (0x23F, 0x240, 1, 0x2C7E); (0x242, 0x242, 1, 0x241);
    (0x247, 0x24F, 2, 0x246); (0x250, 0x250, 1, 0x2C6F);
    (0x251, 0x251, 1, 0x2C6D); (0x252, 0x252, 1, 0x2C70);
    (0x253, 0x253, 1, 0x181); (0x254, 0x254, 1, 0x186);
    (0x256, 0x257, 1, 0x189); (0x259, 0x259, 1, 0x18F);
    (0x25B, 0x25B, 1, 0x190); (0x25C, 0x25C, 1, 0xA7AB);
    (0x260, 0x260, 1, 0x193); (0x261, 0x261, 1, 0xA7AC);
    (0x263, 0x263, 1, 0x194); (0x265, 0x265, 1, 0xA78D);
    (0x266, 0x266, 1, 0xA7AA); (0x268, 0x268, 1, 0x197);
    (0x269, 0x269, 1, 0x196); (0x26A, 0x26A, 1, 0xA7AE);
    (0x26B, 0x26B, 1, 0x2C62); (0x26C, 0x26C, 1, 0xA7AD);
    (0x26F, 0x26F, 1, 0x19C); (0x271, 0x271, 1, 0x2C6E);
    (0x272, 0x272, 1, 0x19D); (0x275, 0x275, 1, 0x19F);
    (0x27D, 0x27D, 1, 0x2C64); (0x280, 0x280, 1, 0x1A6);
    (0x282, 0x282, 1, 0xA7C5); (0x283, 0x283, 1, 0x1A9);
    (0x287, 0x287, 1, 0xA7B1); (0x288, 0x288, 1, 0x1AE);
    (0x289, 0x289, 1, 0x244); (0x28A, 0x28B, 1, 0x1B1);
    (0x28C, 0x28C, 1, 0x245); (0x292, 0x292, 1, 0x1B7);
    (0x29D, 0x29D, 1, 0xA7B2); (0x29E, 0x29E, 1, 0xA7B0);
    (0x345, 0x345, 1, 0x399); (0x371, 0x373, 2, 0x370);
    (0x377, 0x377, 1, 0x376); (0x37B, 0x37D, 1, 0x3FD);
    (0x3AC, 0x3AC, 1, 0x386); (0x3AD, 0x3AF, 1, 0x388);
    (0x3B1, 0x3C1, 1, 0x391); (0x3C2, 0x3C2, 1, 0x3A3);
    (0x3C3, 0x3CB, 1, 0x3A3); (0x3CC, 0x3CC, 1, 0x38C);
    (0x3CD, 0x3CE, 1, 0x38E); (0x3D0, 0x3D0, 1, 0x392);
    (0x3D1, 0x3D1, 1, 0x398); (0x3D5, 0x3D5, 1, 0x3A6);
    (0x3D6, 0x3D6, 1, 0x3A0); (0x3D7, 0x3D7, 1, 0x3CF);
    (0x3D9, 0x3EF, 2, 0x3D8); (0x3F0, 0x3F0, 1, 0x39A);
    (0x3F1, 0x3F1, 1, 0x3A1); (0x3F2, 0x3F2, 1, 0x3F9);
    (0x3F3, 0x3F3, 1, 0x37F); (0x3F5, 0x3F5, 1, 0x395);
    (0x3F8, 0x3F8, 1, 0x3F7); (0x3FB, 0x3FB, 1, 0x3FA);
    (0x430, 0x44F, 1, 0x410); (0x450, 0x45F, 1, 0x400);
    (0x461, 0x481, 2, 0x460); (0x48B, 0x4BF, 2, 0x48A);
    (0x4C2, 0x4CE, 2, 0x4C1); (0x4CF, 0x4CF, 1, 0x4C0);
    (0x4D1, 0x52F, 2, 0x4D0); (0x561, 0x586, 1, 0x531);
    (0x10D0, 0x10FA, 1, 0x1C90); (0x10FD, 0x10FF, 1, 0x1CBD);
    (0x13F8, 0x13FD, 1, 0x13F0); (0x1C80, 0x1C80, 1, 0x412);
    (0x1C81, 0x1C81, 1, 0x414); (0x1C82, 0x1C82, 1, 0x41E);
    (0x1C83, 0x1C84, 1, 0x421); (0x1C85, 0x1C85, 1, 0x422);
    (0x1C86, 0x1C86, 1, 0x42A); (0x1C87, 0x1C87, 1, 0x462);
    (0x1C88, 0x1C88, 1, 0xA64A); (0x1D79, 0x1D79, 1, 0xA77D);
    (0x1D7D, 0x1D7D, 1, 0x2C63); (0x1D8E, 0x1D8E, 1, 0xA7C6);
    (0x1E01, 0x1E95, 2, 0x1E00); (0x1E9B, 0x1E9B, 1, 0x1E60);
    (0x1EA1, 0x1EFF, 2, 0x1EA0); (0x1F00, 0x1F07, 1, 0x1F08);
    (0x1F10, 0x1F15, 1, 0x1F18); (0x1F20, 0x1F27, 1, 0x1F28);
    (0x1F30, 0x1F37, 1, 0x1F38); (0x1F40, 0x1F45, 1, 0x1F48);
    (0x1F51, 0x1F57, 2, 0x1F59); (0x1F60, 0x1F67, 1, 0x1F68);
    (0x1F70, 0x1F71, 1, 0x1FBA); (0x1F72, 0x1F75, 1, 0x1FC8);
    (0x1F76, 0x1F77, 1, 0x1FDA); (0x1F78, 0x1F79, 1, 0x1FF8);
    (0x1F7A, 0x1F7B, 1, 0x1FEA); (0x1F7C, 0x1F7D, 1, 0x1FFA);
    (0x1FB0, 0x1FB1, 1, 0x1FB8); (0x1FBE, 0x1FBE, 1, 0x399);
    (0x1FD0, 0x1FD1, 1, 0x1FD8); (0x1FE0, 0x1FE1, 1, 0x1FE8);
    (0x1FE5, 0x1FE5, 1, 0x1FEC); (0x214E, 0x214E, 1, 0x2132);
    (0x2170, 0x217F, 1, 0x2160); (0x2184, 0x2184, 1, 0x2183);
    (0x24D0, 0x24E9, 1, 0x24B6); (0x2C30, 0x2C5F, 1, 0x2C00);
    (0x2C61, 0x2C61, 1, 0x2C60); (0x2C65, 0x2C65, 1, 0x23A);
    (0x2C66, 0x2C66, 1, 0x23E); (0x2C68, 0x2C6C, 2, 0x2C67);
    (0x2C73, 0x2C73, 1, 0x2C72); (0x2C76, 0x2C76, 1, 0x2C75);
    (0x2C81, 0x2CE3, 2, 0x2C80); (0x2CEC, 0x2CEE, 2, 0x2CEB);
    (0x2CF3, 0x2CF3, 1, 0x2CF2); (0x2D00, 0x2D25, 1, 0x10A0);
    (0x2D27, 0x2D27, 1, 0x10C7); (0x2D2D, 0x2D2D, 1, 0x10CD);
    (0xA641, 0xA66D, 2, 0xA640); (0xA681, 0xA69B, 2, 0xA680);
    (0xA723, 0xA72F, 2, 0xA722); (0xA733, 0xA76F, 2, 0xA732);
    (0xA77A, 0xA77C, 2, 0xA779); (0xA77F, 0xA787, 2, 0xA77E);
    (0xA78C, 0xA78C, 1, 0xA78B); (0xA791, 0xA793, 2, 0xA790);
    (0xA794, 0xA794, 1, 0xA7C4); (0xA797, 0xA7A9, 2, 0xA796);
    (0xA7B5, 0xA7C3, 2, 0xA7B4); (0xA7C8, 0xA7CA, 2, 0xA7C7);
    (0xA7D1, 0xA7D1, 1, 0xA7D0); (0xA7D7, 0xA7D9, 2, 0xA7D6);
    (0xA7F6, 0xA7F6, 1, 0xA7F5); (0xAB53, 0xAB53, 1, 0xA7B3);
    (0xAB70, 0xABBF, 1, 0x13A0); (0xFF41, 0xFF5A, 1, 0xFF21);
    (0x10428, 0x1044F, 1, 0x10400); (0x104D8, 0x104FB, 1, 0x104B0);
    (0x10597, 0x105A1, 1, 0x10570); (0x105A3, 0x105B1, 1, 0x1057C);
    (0x105B3, 0x105B9, 1, 0x1058C); (0x105BB, 0x105BC, 1, 0x10594);
    (0x10CC0, 0x10CF2, 1, 0x10C80); (0x118C0, 0x118DF, 1, 0x118A0);
    (0x16E60, 0x16E7F, 1, 0x16E40); (0x1E922, 0x1E943, 1, 0x1E900)
  ].

(** The code points that [str.upper] maps to several code points. *)
Definition UPPER_MULTI : list (N * list N) :=
  [
    (0xDF, [0x53; 0x53]); (0x149, [0x2BC; 0x4E]); (0x1F0, [0x4A; 0x30C]);
    (0x390, [0x399; 0x308; 0x301]); (0x3B0, [0x3A5; 0x308; 0x301]);
    (0x587, [0x535; 0x552]); (0x1E96, [0x48; 0x331]);
    (0x1E97, [0x54; 0x308]); (0x1E98, [0x57; 0x30A]);
    (0x1E99, [0x59; 0x30A]); (0x1E9A, [0x41; 0x2BE]);
    (0x1F50, [0x3A5; 0x313]); (0x1F52, [0x3A5; 0x313; 0x300]);
    (0x1F54, [0x3A5; 0x313; 0x301]); (0x1F56, [0x3A5; 0x313; 0x342]);
    (0x1F80, [0x1F08; 0x399]); (0x1F81, [0x1F09; 0x399]);
    (0x1F82, [0x1F0A; 0x399]); (0x1F83, [0x1F0B; 0x399]);
    (0x1F84, [0x1F0C; 0x399]); (0x1F85, [0x1F0D; 0x399]);
    (0x1F86, [0x1F0E; 0x399]); (0x1F87, [0x1F0F; 0x399]);
    (0x1F88, [0x1F08; 0x399]); (0x1F89, [0x1F09; 0x399]);
    (0x1F8A, [0x1F0A; 0x399]); (0x1F8B, [0x1F0B; 0x399]);
    (0x1F8C, [0x1F0C; 0x399]); (0x1F8D, [0x1F0D; 0x399]);
    (0x1F8E, [0x1F0E; 0x399]); (0x1F8F, [0x1F0F; 0x399]);
    (0x1F90, [0x1F28; 0x399]); (0x1F91, [0x1F29; 0x399]);
    (0x1F92, [0x1F2A; 0x399]); (0x1F93, [0x1F2B; 0x399]);
    (0x1F94, [0x1F2C; 0x399]); (0x1F95, [0x1F2D; 0x399]);
    (0x1F96, [0x1F2E; 0x399]); (0x1F97, [0x1F2F; 0x399]);
    (0x1F98, [0x1F28; 0x399]); (0x1F99, [0x1F29; 0x399]);
    (0x1F9A, [0x1F2A; 0x399]); (0x1F9B, [0x1F2B; 0x399]);
    (0x1F9C, [0x1F2C; 0x399]); (0x1F9D, [0x1F2D; 0x399]);
    (0x1F9E, [0x1F2E; 0x399]); (0x1F9F, [0x1F2F; 0x399]);
    (0x1FA0, [0x1F68; 0x399]); (0x1FA1, [0x1F69; 0x399]);
    (0x1FA2, [0x1F6A; 0x399]); (0x1FA3, [0x1F6B; 0x399]);
    (0x1FA4, [0x1F6C; 0x399]); (0x1FA5, [0x1F6D; 0x399]);
    (0x1FA6, [0x1F6E; 0x399]); (0x1FA7, [0x1F6F; 0x399]);
    (0x1FA8, [0x1F68; 0x399]); (0x1FA9, [0x1F69; 0x399]);
    (0x1FAA, [0x1F6A; 0x399]); (0x1FAB, [0x1F6B; 0x399]);
    (0x1FAC, [0x1F6C; 0x399]); (0x1FAD, [0x1F6D; 0x399]);
    (0x1FAE, [0x1F6E; 0x399]); (0x1FAF, [0x1F6F; 0x399]);
    (0x1FB2, [0x1FBA; 0x399]); (0x1FB3, [0x391; 0x399]);
    (0x1FB4, [0x386; 0x399]); (0x1FB6, [0x391; 0x342]);
    (0x1FB7, [0x391; 0x342; 0x399]); (0x1FBC, [0x391; 0x399]);
    (0x1FC2, [0x1FCA; 0x399]); (0x1FC3, [0x397; 0x399]);
    (0x1FC4, [0x389; 0x399]); (0x1FC6, [0x397; 0x342]);
    (0x1FC7, [0x397; 0x342; 0x399]); (0x1FCC, [0x397; 0x399]);
    (0x1FD2, [0x399; 0x308; 0x300]); (0x1FD3, [0x399; 0x308; 0x301]);
    (0x1FD6, [0x399; 0x342]); (0x1FD7, [0x399; 0x308; 0x342]);
    (0x1FE2, [0x3A5; 0x308; 0x300]); (0x1FE3, [0x3A5; 0x308; 0x301]);
    (0x1FE4, [0x3A1; 0x313]); (0x1FE6, [0x3A5; 0x342]);
    (0x1FE7, [0x3A5; 0x308; 0x342]); (0x1FF2, [0x1FFA; 0x399]);
    (0x1FF3, [0x3A9; 0x399]); (0x1FF4, [0x38F; 0x399]);
    (0x1FF6, [0x3A9; 0x342]); (0x1FF7, [0x3A9; 0x342; 0x399]);
    (0x1FFC, [0x3A9; 0x399]); (0xFB00, [0x46; 0x46]); (0xFB01, [0x46; 0x49]);
    (0xFB02, [0x46; 0x4C]); (0xFB03, [0x46; 0x46; 0x49]);
    (0xFB04, [0x46; 0x46; 0x4C]); (0xFB05, [0x53; 0x54]);
    (0xFB06, [0x53; 0x54]); (0xFB13, [0x544; 0x546]);
    (0xFB14, [0x544; 0x535]); (0xFB15, [0x544; 0x53B]);
    (0xFB16, [0x54E; 0x546]); (0xFB17, [0x544; 0x53D])
  ].

(** The same for [str.lower]. *)
Definition LOWER_RUNS : list (N * N * N * N) :=
  [
    (0x41, 0x5A, 1, 0x61); (0xC0, 0xD6, 1, 0xE0); (0xD8, 0xDE, 1, 0xF8);
    (0x100, 0x12E, 2, 0x101); (0x132, 0x136, 2, 0x133);
    (0x139, 0x147, 2, 0x13A); (0x14A, 0x176, 2, 0x14B);
    (0x178, 0x178, 1, 0xFF); (0x179, 0x17D, 2, 0x17A);
    (0x181, 0x181, 1, 0x253); (0x182, 0x184, 2, 0x183);
    (0x186, 0x186, 1, 0x254); (0x187, 0x187, 1, 0x188);
    (0x189, 0x18A, 1, 0x256); (0x18B, 0x18B, 1, 0x18C);
    (0x18E, 0x18E, 1, 0x1DD); (0x18F, 0x18F, 1, 0x259);
    (0x190, 0x190, 1, 0x25B); (0x191, 0x191, 1, 0x192);
    (0x193, 0x193, 1, 0x260); (0x194, 0x194, 1, 0x263);
    (0x196, 0x196, 1, 0x269); (0x197, 0x197, 1, 0x268);
    (0x198, 0x198, 1, 0x199); (0x19C, 0x19C, 1, 0x26F);
    (0x19D, 0x19D, 1, 0x272); (0x19F, 0x19F, 1, 0x275);
    (0x1A0, 0x1A4, 2, 0x1A1); (0x1A6, 0x1A6, 1, 0x280);
    (0x1A7, 0x1A7, 1, 0x1A8); (0x1A9, 0x1A9, 1, 0x283);
    (0x1AC, 0x1AC, 1, 0x1AD); (0x1AE, 0x1AE, 1, 0x288);
    (0x1AF, 0x1AF, 1, 0x1B0); (0x1B1, 0x1B2, 1, 0x28A);
    (0x1B3, 0x1B5, 2, 0x1B4); (0x1B7, 0x1B7, 1, 0x292);
    (0x1B8, 0x1B8, 1, 0x1B9); (0x1BC, 0x1BC, 1, 0x1BD);
    (0x1C4, 0x1C4, 1, 0x1C6); (0x1C5, 0x1C5, 1, 0x1C6);
    (0x1C7, 0x1C7, 1, 0x1C9); (0x1C8, 0x1C8, 1, 0x1C9);
    (0x1CA, 0x1CA, 1, 0x1CC); (0x1CB, 0x1DB, 2, 0x1CC);
    (0x1DE, 0x1EE, 2, 0x1DF); (0x1F1, 0x1F1, 1, 0x1F3);
    (0x1F2, 0x1F4, 2, 0x1F3); (0x1F6, 0x1F6, 1, 0x195);
    (0x1F7, 0x1F7, 1, 0x1BF); (0x1F8, 0x21E, 2, 0x1F9);
    (0x220, 0x220, 1, 0x19E); (0x222, 0x232, 2, 0x223);
    (0x23A, 0x23A, 1, 0x2C65); (0x23B, 0x23B, 1, 0x23C);
    (0x23D, 0x23D, 1, 0x19A); (0x23E, 0x23E, 1, 0x2C66);
    (0x241, 0x241, 1, 0x242); (0x243, 0x243, 1, 0x180);
    (0x244, 0x244, 1, 0x289); (0x245, 0x245, 1, 0x28C);
    (0x246, 0x24E, 2, 0x247); (0x370, 0x372, 2, 0x371);
    (0x376, 0x376, 1, 0x377); (0x37F, 0x37F, 1, 0x3F3);
    (0x386, 0x386, 1, 0x3AC); (0x388, 0x38A, 1, 0x3AD);
    (0x38C, 0x38C, 1, 0x3CC); (0x38E, 0x38F, 1, 0x3CD);
    (0x391, 0x3A1, 1, 0x3B1); (0x3A3, 0x3AB, 1, 0x3C3);
    (0x3CF, 0x3CF, 1, 0x3D7); (0x3D8, 0x3EE, 2, 0x3D9);
    (0x3F4, 0x3F4, 1, 0x3B8); (0x3F7, 0x3F7, 1, 0x3F8);
    (0x3F9, 0x3F9, 1, 0x3F2); (0x3FA, 0x3FA, 1, 0x3FB);
    (0x3FD, 0x3FF, 1, 0x37B); (0x400, 0x40F, 1, 0x450);
    (0x410, 0x42F, 1, 0x430); (0x460, 0x480, 2, 0x461);
    (0x48A, 0x4BE, 2, 0x48B); (0x4C0, 0x4C0, 1, 0x4CF);
    (0x4C1, 0x4CD, 2, 0x4C2); (0x4D0, 0x52E, 2, 0x4D1);
    (0x531, 0x556, 1, 0x561); (0x10A0, 0x10C5, 1, 0x2D00);
    (0x10C7, 0x10C7, 1, 0x2D27); (0x10CD, 0x10CD, 1, 0x2D2D);
    (0x13A0, 0x13EF, 1, 0xAB70); (0x13F0, 0x13F5, 1, 0x13F8);
    (0x1C90, 0x1CBA, 1, 0x10D0); (0x1CBD, 0x1CBF, 1, 0x10FD);
    (0x1E00, 0x1E94, 2, 0x1E01); (0x1E9E, 0x1E9E, 1, 0xDF);
    (0x1EA0, 0x1EFE, 2, 0x1EA1); (0x1F08, 0x1F0F, 1, 0x1F00);
    (0x1F18, 0x1F1D, 1, 0x1F10); (0x1F28, 0x1F2F, 1, 0x1F20);
    (0x1F38, 0x1F3F, 1, 0x1F30); (0x1F48, 0x1F4D, 1, 0x1F40);
    (0x1F59, 0x1F5F, 2, 0x1F51); (0x1F68, 0x1F6F, 1, 0x1F60);
    (0x1F88, 0x1F8F, 1, 0x1F80); (0x1F98, 0x1F9F, 1, 0x1F90);
    (0x1FA8, 0x1FAF, 1, 0x1FA0); (0x1FB8, 0x1FB9, 1, 0x1FB0);
    (0x1FBA, 0x1FBB, 1, 0x1F70); (0x1FBC, 0x1FBC, 1, 0x1FB3);
    (0x1FC8, 0x1FCB, 1, 0x1F72); (0x1FCC, 0x1FCC, 1, 0x1FC3);
    (0x1FD8, 0x1FD9, 1, 0x1FD0); (0x1FDA, 0x1FDB, 1, 0x1F76);
    (0x1FE8, 0x1FE9, 1, 0x1FE0); (0x1FEA, 0x1FEB, 1, 0x1F7A);
    (0x1FEC, 0x1FEC, 1, 0x1FE5); (0x1FF8, 0x1FF9, 1, 0x1F78);
    (0x1FFA, 0x1FFB, 1, 0x1F7C); (0x1FFC, 0x1FFC, 1, 0x1FF3);
    (0x2126, 0x2126, 1, 0x3C9); (0x212A, 0x212A, 1, 0x6B);
    (0x212B, 0x212B, 1, 0xE5); (0x2132, 0x2132, 1, 0x214E);
    (0x2160, 0x216F, 1, 0x2170); (0x2183, 0x2183, 1, 0x2184);
    (0x24B6, 0x24CF, 1, 0x24D0); (0x2C00, 0x2C2F, 1, 0x2C30);
    (0x2C60, 0x2C60, 1, 0x2C61); (0x2C62, 0x2C62, 1, 0x26B);
    (0x2C63, 0x2C63, 1, 0x1D7D); (0x2C64, 0x2C64, 1, 0x27D);
    (0x2C67, 0x2C6B, 2, 0x2C68); (0x2C6D, 0x2C6D, 1, 0x251);
    (0x2C6E, 0x2C6E, 1, 0x271); (0x2C6F, 0x2C6F, 1, 0x250);
    (0x2C70, 0x2C70, 1, 0x252); (0x2C72, 0x2C72, 1, 0x2C73);
    (0x2C75, 0x2C75, 1, 0x2C76); (0x2C7E, 0x2C7F, 1, 0x23F);
    (0x2C80, 0x2CE2, 2, 0x2C81); (0x2CEB, 0x2CED, 2, 0x2CEC);
    (0x2CF2, 0x2CF2, 1, 0x2CF3); (0xA640, 0xA66C, 2, 0xA641);
    (0xA680, 0xA69A, 2, 0xA681); (0xA722, 0xA72E, 2, 0xA723);
    (0xA732, 0xA76E, 2, 0xA733); (0xA779, 0xA77B, 2, 0xA77A);
    (0xA77D, 0xA77D, 1, 0x1D79); (0xA77E, 0xA786, 2, 0xA77F);
    (0xA78B, 0xA78B, 1, 0xA78C); (0xA78D, 0xA78D, 1, 0x265);
    (0xA790, 0xA792, 2, 0xA791); (0xA796, 0xA7A8, 2, 0xA797);
    (0xA7AA, 0xA7AA, 1, 0x266); (0xA7AB, 0xA7AB, 1, 0x25C);
    (0xA7AC, 0xA7AC, 1, 0x261); (0xA7AD, 0xA7AD, 1, 0x26C);
    (0xA7AE, 0xA7AE, 1, 0x26A); (0xA7B0, 0xA7B0, 1, 0x29E);
    (0xA7B1, 0xA7B1, 1, 0x287); (0xA7B2, 0xA7B2, 1, 0x29D);
    (0xA7B3, 0xA7B3, 1, 0xAB53); (0xA7B4, 0xA7C2, 2, 0xA7B5);
    (0xA7C4, 0xA7C4, 1, 0xA794); (0xA7C5, 0xA7C5, 1, 0x282);
    (0xA7C6, 0xA7C6, 1, 0x1D8E); (0xA7C7, 0xA7C9, 2, 0xA7C8);
    (0xA7D0, 0xA7D0, 1, 0xA7D1); (0xA7D6, 0xA7D8, 2, 0xA7D7);
    (0xA7F5, 0xA7F5, 1, 0xA7F6); (0xFF21, 0xFF3A, 1, 0xFF41);
    (0x10400, 0x10427, 1, 0x10428); (0x104B0, 0x104D3, 1, 0x104D8);
    (0x10570, 0x1057A, 1, 0x10597); (0x1057C, 0x1058A, 1, 0x105A3);
    (0x1058C, 0x10592, 1, 0x105B3); (0x10594, 0x10595, 1, 0x105BB);
    (0x10C80, 0x10CB2, 1, 0x10CC0); (0x118A0, 0x118BF, 1, 0x118C0);
    (0x16E40, 0x16E5F, 1, 0x16E60); (0x1E900, 0x1E921, 1, 0x1E922)
  ].

(** The code point that [str.lower] maps to two code points. *)
Definition LOWER_MULTI : list (N * list N) :=
  [
    (0x130, [0x69; 0x307])
  ].

(** The case-ignorable code points, as ranges. *)
Definition CASE_IGNORABLE : list (N * N) :=
  [
    (0x27, 0x27); (0x2E, 0x2E); (0x3A, 0x3A); (0x5E, 0x5E); (0x60, 0x60);
    (0xA8, 0xA8); (0xAD, 0xAD); (0xAF, 0xAF); (0xB4, 0xB4); (0xB7, 0xB8);
    (0x2B0, 0x36F); (0x374, 0x375); (0x37A, 0x37A); (0x384, 0x385);
    (0x387, 0x387); (0x483, 0x489); (0x559, 0x559); (0x55F, 0x55F);
    (0x591, 0x5BD); (0x5BF, 0x5BF); (0x5C1, 0x5C2); (0x5C4, 0x5C5);
    (0x5C7, 0x5C7); (0x5F4, 0x5F4); (0x600, 0x605); (0x610, 0x61A);
    (0x61C, 0x61C); (0x640, 0x640); (0x64B, 0x65F); (0x670, 0x670);
    (0x6D6, 0x6DD); (0x6DF, 0x6E8); (0x6EA, 0x6ED); (0x70F, 0x70F);
    (0x711, 0x711); (0x730, 0x74A); (0x7A6, 0x7B0); (0x7EB, 0x7F5);
    (0x7FA, 0x7FA); (0x7FD, 0x7FD); (0x816, 0x82D); (0x859, 0x85B);
    (0x888, 0x888); (0x890, 0x891); (0x898, 0x89F); (0x8C9, 0x902);
    (0x93A, 0x93A); (0x93C, 0x93C); (0x941, 0x948); (0x94D, 0x94D);
    (0x951, 0x957); (0x962, 0x963); (0x971, 0x971); (0x981, 0x981);
    (0x9BC, 0x9BC); (0x9C1, 0x9C4); (0x9CD, 0x9CD); (0x9E2, 0x9E3);
    (0x9FE, 0x9FE); (0xA01, 0xA02); (0xA3C, 0xA3C); (0xA41, 0xA42);
    (0xA47, 0xA48); (0xA4B, 0xA4D); (0xA51, 0xA51); (0xA70, 0xA71);
    (0xA75, 0xA75); (0xA81, 0xA82); (0xABC, 0xABC); (0xAC1, 0xAC5);
    (0xAC7, 0xAC8); (0xACD, 0xACD); (0xAE2, 0xAE3); (0xAFA, 0xAFF);
    (0xB01, 0xB01); (0xB3C, 0xB3C); (0xB3F, 0xB3F); (0xB41, 0xB44);
    (0xB4D, 0xB4D); (0xB55, 0xB56); (0xB62, 0xB63); (0xB82, 0xB82);
    (0xBC0, 0xBC0); (0xBCD, 0xBCD); (0xC00, 0xC00); (0xC04, 0xC04);
    (0xC3C, 0xC3C); (0xC3E, 0xC40); (0xC46, 0xC48); (0xC4A, 0xC4D);
    (0xC55, 0xC56); (0xC62, 0xC63); (0xC81, 0xC81); (0xCBC, 0xCBC);
    (0xCBF, 0xCBF); (0xCC6, 0xCC6); (0xCCC, 0xCCD); (0xCE2, 0xCE3);
    (0xD00, 0xD01); (0xD3B, 0xD3C); (0xD41, 0xD44); (0xD4D, 0xD4D);
    (0xD62, 0xD63); (0xD81, 0xD81); (0xDCA, 0xDCA); (0xDD2, 0xDD4);
    (0xDD6, 0xDD6); (0xE31, 0xE31); (0xE34, 0xE3A); (0xE46, 0xE4E);
    (0xEB1, 0xEB1); (0xEB4, 0xEBC); (0xEC6, 0xEC6); (0xEC8, 0xECD);
    (0xF18, 0xF19); (0xF35, 0xF35); (0xF37, 0xF37); (0xF39, 0xF39);
    (0xF71, 0xF7E); (0xF80, 0xF84); (0xF86, 0xF87); (0xF8D, 0xF97);
    (0xF99, 0xFBC); (0xFC6, 0xFC6); (0x102D, 0x1030); (0x1032, 0x1037);
    (0x1039, 0x103A); (0x103D, 0x103E); (0x1058, 0x1059); (0x105E, 0x1060);
    (0x1071, 0x1074); (0x1082, 0x1082); (0x1085, 0x1086); (0x108D, 0x108D);
    (0x109D, 0x109D); (0x10FC, 0x10FC); (0x135D, 0x135F); (0x1712, 0x1714);
    (0x1732, 0x1733); (0x1752, 0x1753); (0x1772, 0x1773); (0x17B4, 0x17B5);
    (0x17B7, 0x17BD); (0x17C6, 0x17C6); (0x17C9, 0x17D3); (0x17D7, 0x17D7);
    (0x17DD, 0x17DD); (0x180B, 0x180F); (0x1843, 0x1843); (0x1885, 0x1886);
    (0x18A9, 0x18A9); (0x1920, 0x1922); (0x1927, 0x1928); (0x1932, 0x1932);
    (0x1939, 0x193B); (0x1A17, 0x1A18); (0x1A1B, 0x1A1B); (0x1A56, 0x1A56);
    (0x1A58, 0x1A5E); (0x1A60, 0x1A60); (0x1A62, 0x1A62); (0x1A65, 0x1A6C);
    (0x1A73, 0x1A7C); (0x1A7F, 0x1A7F); (0x1AA7, 0x1AA7); (0x1AB0, 0x1ACE);
    (0x1B00, 0x1B03); (0x1B34, 0x1B34); (0x1B36, 0x1B3A); (0x1B3C, 0x1B3C);
    (0x1B42, 0x1B42); (0x1B6B, 0x1B73); (0x1B80, 0x1B81); (0x1BA2, 0x1BA5);
    (0x1BA8, 0x1BA9); (0x1BAB, 0x1BAD); (0x1BE6, 0x1BE6); (0x1BE8, 0x1BE9);
    (0x1BED, 0x1BED); (0x1BEF, 0x1BF1); (0x1C2C, 0x1C33); (0x1C36, 0x1C37);
    (0x1C78, 0x1C7D); (0x1CD0, 0x1CD2); (0x1CD4, 0x1CE0); (0x1CE2, 0x1CE8);
    (0x1CED, 0x1CED); (0x1CF4, 0x1CF4); (0x1CF8, 0x1CF9); (0x1D2C, 0x1D6A);
    (0x1D78, 0x1D78); (0x1D9B, 0x1DFF); (0x1FBD, 0x1FBD); (0x1FBF, 0x1FC1);
    (0x1FCD, 0x1FCF); (0x1FDD, 0x1FDF); (0x1FED, 0x1FEF); (0x1FFD, 0x1FFE);
    (0x200B, 0x200F); (0x2018, 0x2019); (0x2024, 0x2024); (0x2027, 0x2027);
    (0x202A, 0x202E); (0x2060, 0x2064); (0x2066, 0x206F); (0x2071, 0x2071);
    (0x207F, 0x207F); (0x2090, 0x209C); (0x20D0, 0x20F0); (0x2C7C, 0x2C7D);
    (0x2CEF, 0x2CF1); (0x2D6F, 0x2D6F); (0x2D7F, 0x2D7F); (0x2DE0, 0x2DFF);
    (0x2E2F, 0x2E2F); (0x3005, 0x3005); (0x302A, 0x302D); (0x3031, 0x3035);
    (0x303B, 0x303B); (0x3099, 0x309E); (0x30FC, 0x30FE); (0xA015, 0xA015);
    (0xA4F8, 0xA4FD); (0xA60C, 0xA60C); (0xA66F, 0xA672); (0xA674, 0xA67D);
    (0xA67F, 0xA67F); (0xA69C, 0xA69F); (0xA6F0, 0xA6F1); (0xA700, 0xA721);
    (0xA770, 0xA770); (0xA788, 0xA78A); (0xA7F2, 0xA7F4); (0xA7F8, 0xA7F9);
    (0xA802, 0xA802); (0xA806, 0xA806); (0xA80B, 0xA80B); (0xA825, 0xA826);
    (0xA82C, 0xA82C); (0xA8C4, 0xA8C5); (0xA8E0, 0xA8F1); (0xA8FF, 0xA8FF);
    (0xA926, 0xA92D); (0xA947, 0xA951); (0xA980, 0xA982); (0xA9B3, 0xA9B3);
    (0xA9B6, 0xA9B9); (0xA9BC, 0xA9BD); (0xA9CF, 0xA9CF); (0xA9E5, 0xA9E6);
    (0xAA29, 0xAA2E); (0xAA31, 0xAA32); (0xAA35, 0xAA36); (0xAA43, 0xAA43);
    (0xAA4C, 0xAA4C); (0xAA70, 0xAA70); (0xAA7C, 0xAA7C); (0xAAB0, 0xAAB0);
    (0xAAB2, 0xAAB4); (0xAAB7, 0xAAB8); (0xAABE, 0xAABF); (0xAAC1, 0xAAC1);
    (0xAADD, 0xAADD); (0xAAEC, 0xAAED); (0xAAF3, 0xAAF4); (0xAAF6, 0xAAF6);
    (0xAB5B, 0xAB5F); (0xAB69, 0xAB6B); (0xABE5, 0xABE5); (0xABE8, 0xABE8);
    (0xABED, 0xABED); (0xFB1E, 0xFB1E); (0xFBB2, 0xFBC2); (0xFE00, 0xFE0F);
    (0xFE13, 0xFE13); (0xFE20, 0xFE2F); (0xFE52, 0xFE52); (0xFE55, 0xFE55);
    (0xFEFF, 0xFEFF); (0xFF07, 0xFF07); (0xFF0E, 0xFF0E); (0xFF1A, 0xFF1A);
    (0xFF3E, 0xFF3E); (0xFF40, 0xFF40); (0xFF70, 0xFF70); (0xFF9E, 0xFF9F);
    (0xFFE3, 0xFFE3); (0xFFF9, 0xFFFB); (0x101FD, 0x101FD);
    (0x102E0, 0x102E0); (0x10376, 0x1037A); (0x10780, 0x10785);
    (0x10787, 0x107B0); (0x107B2, 0x107BA); (0x10A01, 0x10A03);
    (0x10A05, 0x10A06); (0x10A0C, 0x10A0F); (0x10A38, 0x10A3A);
    (0x10A3F, 0x10A3F); (0x10AE5, 0x10AE6); (0x10D24, 0x10D27);
    (0x10EAB, 0x10EAC); (0x10F46, 0x10F50); (0x10F82, 0x10F85);
    (0x11001, 0x11001); (0x11038, 0x11046); (0x11070, 0x11070);
    (0x11073, 0x11074); (0x1107F, 0x11081); (0x110B3, 0x110B6);
    (0x110B9, 0x110BA); (0x110BD, 0x110BD); (0x110C2, 0x110C2);
    (0x110CD, 0x110CD); (0x11100, 0x11102); (0x11127, 0x1112B);
    (0x1112D, 0x11134); (0x11173, 0x11173); (0x11180, 0x11181);
    (0x111B6, 0x111BE); (0x111C9, 0x111CC); (0x111CF, 0x111CF);
    (0x1122F, 0x11231); (0x11234, 0x11234); (0x11236, 0x11237);
    (0x1123E, 0x1123E); (0x112DF, 0x112DF); (0x112E3, 0x112EA);
    (0x11300, 0x11301); (0x1133B, 0x1133C); (0x11340, 0x11340);
    (0x11366, 0x1136C); (0x11370, 0x11374); (0x11438, 0x1143F);
    (0x11442, 0x11444); (0x11446, 0x11446); (0x1145E, 0x1145E);
    (0x114B3, 0x114B8); (0x114BA, 0x114BA); (0x114BF, 0x114C0);
    (0x114C2, 0x114C3); (0x115B2, 0x115B5); (0x115BC, 0x115BD);
    (0x115BF, 0x115C0); (0x115DC, 0x115DD); (0x11633, 0x1163A);
    (0x1163D, 0x1163D); (0x1163F, 0x11640); (0x116AB, 0x116AB);
    (0x116AD, 0x116AD); (0x116B0, 0x116B5); (0x116B7, 0x116B7);
    (0x1171D, 0x1171F); (0x11722, 0x11725); (0x11727, 0x1172B);
    (0x1182F, 0x11837); (0x11839, 0x1183A); (0x1193B, 0x1193C);
    (0x1193E, 0x1193E); (0x11943, 0x11943); (0x119D4, 0x119D7);
    (0x119DA, 0x119DB); (0x119E0, 0x119E0); (0x11A01, 0x11A0A);
    (0x11A33, 0x11A38); (0x11A3B, 0x11A3E); (0x11A47, 0x11A47);
    (0x11A51, 0x11A56); (0x11A59, 0x11A5B); (0x11A8A, 0x11A96);
    (0x11A98, 0x11A99); (0x11C30, 0x11C36); (0x11C38, 0x11C3D);
    (0x11C3F, 0x11C3F); (0x11C92, 0x11CA7); (0x11CAA, 0x11CB0);
    (0x11CB2, 0x11CB3); (0x11CB5, 0x11CB6); (0x11D31, 0x11D36);
    (0x11D3A, 0x11D3A); (0x11D3C, 0x11D3D); (0x11D3F, 0x11D45);
    (0x11D47, 0x11D47); (0x11D90, 0x11D91); (0x11D95, 0x11D95);
    (0x11D97, 0x11D97); (0x11EF3, 0x11EF4); (0x13430, 0x13438);
    (0x16AF0, 0x16AF4); (0x16B30, 0x16B36); (0x16B40, 0x16B43);
    (0x16F4F, 0x16F4F); (0x16F8F, 0x16F9F); (0x16FE0, 0x16FE1);
    (0x16FE3, 0x16FE4); (0x1AFF0, 0x1AFF3); (0x1AFF5, 0x1AFFB);
    (0x1AFFD, 0x1AFFE); (0x1BC9D, 0x1BC9E); (0x1BCA0, 0x1BCA3);
    (0x1CF00, 0x1CF2D); (0x1CF30, 0x1CF46); (0x1D167, 0x1D169);
    (0x1D173, 0x1D182); (0x1D185, 0x1D18B); (0x1D1AA, 0x1D1AD);
    (0x1D242, 0x1D244); (0x1DA00, 0x1DA36); (0x1DA3B, 0x1DA6C);
    (0x1DA75, 0x1DA75); (0x1DA84, 0x1DA84); (0x1DA9B, 0x1DA9F);
    (0x1DAA1, 0x1DAAF); (0x1E000, 0x1E006); (0x1E008, 0x1E018);
    (0x1E01B, 0x1E021); (0x1E023, 0x1E024); (0x1E026, 0x1E02A);
    (0x1E130, 0x1E13D); (0x1E2AE, 0x1E2AE); (0x1E2EC, 0x1E2EF);
    (0x1E8D0, 0x1E8D6); (0x1E944, 0x1E94B); (0x1F3FB, 0x1F3FF);
    (0xE0001, 0xE0001); (0xE0020, 0xE007F); (0xE0100, 0xE01EF)
  ].

(** The cased code points that are not case-ignorable, as ranges. *)
Definition CASED : list (N * N) :=
  [
    (0x41, 0x5A); (0x61, 0x7A); (0xAA, 0xAA); (0xB5, 0xB5); (0xBA, 0xBA);
    (0xC0, 0xD6); (0xD8, 0xF6); (0xF8, 0x1BA); (0x1BC, 0x1BF);
    (0x1C4, 0x293); (0x295, 0x2AF); (0x370, 0x373); (0x376, 0x377);
    (0x37B, 0x37D); (0x37F, 0x37F); (0x386, 0x386); (0x388, 0x38A);
    (0x38C, 0x38C); (0x38E, 0x3A1); (0x3A3, 0x3F5); (0x3F7, 0x481);
    (0x48A, 0x52F); (0x531, 0x556); (0x560, 0x588); (0x10A0, 0x10C5);
    (0x10C7, 0x10C7); (0x10CD, 0x10CD); (0x10D0, 0x10FA); (0x10FD, 0x10FF);
    (0x13A0, 0x13F5); (0x13F8, 0x13FD); (0x1C80, 0x1C88); (0x1C90, 0x1CBA);
    (0x1CBD, 0x1CBF); (0x1D00, 0x1D2B); (0x1D6B, 0x1D77); (0x1D79, 0x1D9A);
    (0x1E00, 0x1F15); (0x1F18, 0x1F1D); (0x1F20, 0x1F45); (0x1F48, 0x1F4D);
    (0x1F50, 0x1F57); (0x1F59, 0x1F59); (0x1F5B, 0x1F5B); (0x1F5D, 0x1F5D);
    (0x1F5F, 0x1F7D); (0x1F80, 0x1FB4); (0x1FB6, 0x1FBC); (0x1FBE, 0x1FBE);
    (0x1FC2, 0x1FC4); (0x1FC6, 0x1FCC); (0x1FD0, 0x1FD3); (0x1FD6, 0x1FDB);
    (0x1FE0, 0x1FEC); (0x1FF2, 0x1FF4); (0x1FF6, 0x1FFC); (0x2102, 0x2102);
    (0x2107, 0x2107); (0x210A, 0x2113); (0x2115, 0x2115); (0x2119, 0x211D);
    (0x2124, 0x2124); (0x2126, 0x2126); (0x2128, 0x2128); (0x212A, 0x212D);
    (0x212F, 0x2134); (0x2139, 0x2139); (0x213C, 0x213F); (0x2145, 0x2149);
    (0x214E, 0x214E); (0x2160, 0x217F); (0x2183, 0x2184); (0x24B6, 0x24E9);
    (0x2C00, 0x2C7B); (0x2C7E, 0x2CE4); (0x2CEB, 0x2CEE); (0x2CF2, 0x2CF3);
    (0x2D00, 0x2D25); (0x2D27, 0x2D27); (0x2D2D, 0x2D2D); (0xA640, 0xA66D);
    (0xA680, 0xA69B); (0xA722, 0xA76F); (0xA771, 0xA787); (0xA78B, 0xA78E);
    (0xA790, 0xA7CA); (0xA7D0, 0xA7D1); (0xA7D3, 0xA7D3); (0xA7D5, 0xA7D9);
    (0xA7F5, 0xA7F6); (0xA7FA, 0xA7FA); (0xAB30, 0xAB5A); (0xAB60, 0xAB68);
    (0xAB70, 0xABBF); (0xFB00, 0xFB06); (0xFB13, 0xFB17); (0xFF21, 0xFF3A);
    (0xFF41, 0xFF5A); (0x10400, 0x1044F); (0x104B0, 0x104D3);
    (0x104D8, 0x104FB); (0x10570, 0x1057A); (0x1057C, 0x1058A);
    (0x1058C, 0x10592); (0x10594, 0x10595); (0x10597, 0x105A1);
    (0x105A3, 0x105B1); (0x105B3, 0x105B9); (0x105BB, 0x105BC);
    (0x10C80, 0x10CB2); (0x10CC0, 0x10CF2); (0x118A0, 0x118DF);
    (0x16E40, 0x16E7F); (0x1D400, 0x1D454); (0x1D456, 0x1D49C);
    (0x1D49E, 0x1D49F); (0x1D4A2, 0x1D4A2); (0x1D4A5, 0x1D4A6);
    (0x1D4A9, 0x1D4AC); (0x1D4AE, 0x1D4B9); (0x1D4BB, 0x1D4BB);
    (0x1D4BD, 0x1D4C3); (0x1D4C5, 0x1D505); (0x1D507, 0x1D50A);
    (0x1D50D, 0x1D514); (0x1D516, 0x1D51C); (0x1D51E, 0x1D539);
    (0x1D53B, 0x1D53E); (0x1D540, 0x1D544); (0x1D546, 0x1D546);
    (0x1D54A, 0x1D550); (0x1D552, 0x1D6A5); (0x1D6A8, 0x1D6C0);
    (0x1D6C2, 0x1D6DA); (0x1D6DC, 0x1D6FA); (0x1D6FC, 0x1D714);
    (0x1D716, 0x1D734); (0x1D736, 0x1D74E); (0x1D750, 0x1D76E);
    (0x1D770, 0x1D788); (0x1D78A, 0x1D7A8); (0x1D7AA, 0x1D7C2);
    (0x1D7C4, 0x1D7CB); (0x1DF00, 0x1DF09); (0x1DF0B, 0x1DF1E);
    (0x1E900, 0x1E943); (0x1F130, 0x1F149); (0x1F150, 0x1F169);
    (0x1F170, 0x1F189)
  ].

(** The decimal digits (category Nd), as ranges; each range holds
    whole decades, starting with a digit zero. *)
Definition DECIMAL_DIGITS : list (N * N) :=
  [
    (0x30, 0x39); (0x660, 0x669); (0x6F0, 0x6F9); (0x7C0, 0x7C9);
    (0x966, 0x96F); (0x9E6, 0x9EF); (0xA66, 0xA6F); (0xAE6, 0xAEF);
    (0xB66, 0xB6F); (0xBE6, 0xBEF); (0xC66, 0xC6F); (0xCE6, 0xCEF);
    (0xD66, 0xD6F); (0xDE6, 0xDEF); (0xE50, 0xE59); (0xED0, 0xED9);
    (0xF20, 0xF29); (0x1040, 0x1049); (0x1090, 0x1099); (0x17E0, 0x17E9);
    (0x1810, 0x1819); (0x1946, 0x194F); (0x19D0, 0x19D9); (0x1A80, 0x1A89);
    (0x1A90, 0x1A99); (0x1B50, 0x1B59); (0x1BB0, 0x1BB9); (0x1C40, 0x1C49);
    (0x1C50, 0x1C59); (0xA620, 0xA629); (0xA8D0, 0xA8D9); (0xA900, 0xA909);
    (0xA9D0, 0xA9D9); (0xA9F0, 0xA9F9); (0xAA50, 0xAA59); (0xABF0, 0xABF9);
    (0xFF10, 0xFF19); (0x104A0, 0x104A9); (0x10D30, 0x10D39);
    (0x11066, 0x1106F); (0x110F0, 0x110F9); (0x11136, 0x1113F);
    (0x111D0, 0x111D9); (0x112F0, 0x112F9); (0x11450, 0x11459);
    (0x114D0, 0x114D9); (0x11650, 0x11659); (0x116C0, 0x116C9);
    (0x11730, 0x11739); (0x118E0, 0x118E9); (0x11950, 0x11959);
    (0x11C50, 0x11C59); (0x11D50, 0x11D59); (0x11DA0, 0x11DA9);
    (0x16A60, 0x16A69); (0x16AC0, 0x16AC9); (0x16B50, 0x16B59);
    (0x1D7CE, 0x1D7FF); (0x1E140, 0x1E149); (0x1E2F0, 0x1E2F9);
    (0x1E950, 0x1E959); (0x1FBF0, 0x1FBF9)
  ].

Definition in_run (c : char) (r : N * N * N * N) : bool :=
  let '(first, last, step, _) := r in
  (between first last c && ((c - first) mod step =? 0))%N.

Definition in_range (c : char) (r : N * N) : bool :=
  between (fst r) (snd r) c.

(** The full case mapping of one code point out of its tables: the
    code point itself when the tables do not hold it. *)
Definition case_map (runs : list (N * N * N * N))
  (multi : list (N * list N)) (c : char) : list char :=
  match find (fun e => eqb_char (fst e) c) multi with
  | Some e => snd e
  | None =>
      match find (in_run c) runs with
      | Some (first, _, _, image) => [(image + (c - first))%N]
      | None => [c]
      end
  end.

Definition upper_char (c : char) : list char :=
  case_map UPPER_RUNS UPPER_MULTI c.

Definition lower_char (c : char) : list char :=
  case_map LOWER_RUNS LOWER_MULTI c.

(** [s.upper()]: every code point is replaced by its full upper-case
    mapping, which can be several code points. *)
Definition upper (s : str) : str := flat_map upper_char s.

Definition is_case_ignorable (c : char) : bool :=
  existsb (in_range c) CASE_IGNORABLE.
Definition is_cased (c : char) : bool := existsb (in_range c) CASED.

(** Whether the first code point of [s] that is not case-ignorable is
    cased. *)
Fixpoint cased_next (s : str) : bool :=
  match s with
  | [] => false
  | c :: s' => if is_case_ignorable c then cased_next s' else is_cased c
  end.

Definition SIGMA : char := 0x3A3%N.

(** [s.lower()].  A capital sigma becomes a final sigma when a cased
    letter precedes it and none follows, case-ignorable code points
    apart; [cased_before] says whether the last code point read that is
    not case-ignorable was cased. *)
Fixpoint lower_from (cased_before : bool) (s : str) : str :=
  match s with
  | [] => []
  | c :: s' =>
      let here :=
        if eqb_char c SIGMA
        then if cased_before && negb (cased_next s')
             then [0x3C2%N] else [0x3C3%N]
        else lower_char c in
      here ++ lower_from (if is_case_ignorable c then cased_before
                          else is_cased c) s'
  end.

Definition lower (s : str) : str := lower_from false s.

(** The value of a decimal digit. *)
Definition decimal (c : char) : option N :=
  match find (in_range c) DECIMAL_DIGITS with
  | Some (first, _) => Some ((c - first) mod 10)%N
  | None => None
  end.

Local Close Scope N_scope.

Definition TAB : char := 9%N.
Definition LF : char := 10%N.
Definition CR : char := 13%N.
Definition SPACE : char := 32%N.
Definition PLUS : char := 43%N.
Definition COMMA : char := 44%N.
Definition MINUS : char := 45%N.
Definition COLON : char := 58%N.
Definition UNDERSCORE : char := 95%N.
Definition BAR : char := 124%N.

Fixpoint eqb (a b : str) : bool :=
  match a, b with
  | [], [] => true
  | x :: a', y :: b' => eqb_char x y && eqb a' b'
  | _, _ => false
  end.

(** [s.lstrip()], [s.rstrip()], [s.strip()]. *)
Fixpoint lstrip (s : str) : str :=
  match s with
  | c :: s' => if is_space c then lstrip s' else s
  | [] => []
  end.

Definition rstrip (s : str) : str := rev (lstrip (rev s)).

Definition strip (s : str) : str := rstrip (lstrip s).

(** [s.split(sep)] for a one-character separator: never empty. *)
Fixpoint split (sep : char) (s : str) : list str :=
  match s with
  | [] => [[]]
  | c :: s' =>
      if eqb_char c sep then [] :: split sep s'
      else match split sep s' with
           | w :: ws => (c :: w) :: ws
           | [] => [[c]]
           end
  end.

(** [s.split(sep, 1)] when [sep in s]: the text before and after the
    first separator; [None] when the separator does not occur. *)
Fixpoint split_once (sep : char) (s : str) : option (str * str) :=
  match s with
  | [] => None
  | c :: s' =>
      if eqb_char c sep then Some ([], s')
      else match split_once sep s' with
           | Some (a, b) => Some (c :: a, b)
           | None => None
           end
  end.

(** [sep.join(parts)]. *)
Fixpoint join (sep : str) (parts : list str) : str :=
  match parts with
  | [] => []
  | [p] => p
  | p :: ps => p ++ sep ++ join sep ps
  end.

Fixpoint starts_with (p s : str) : bool :=
  match p, s with
  | [], _ => true
  | x :: p', y :: s' => eqb_char x y && starts_with p' s'
  | _ :: _, [] => false
  end.

(** [p in s] for strings. *)
Fixpoint contains (p s : str) : bool :=
  starts_with p s ||
  match s with
  | [] => false
  | _ :: s' => contains p s'
  end.

(** Text-mode reading translates CR LF and a lone CR to LF
    (universal newlines, the default of [Path.read_text]). *)
Fixpoint universal_newlines (s : str) : str :=
  match s with
  | [] => []
  | c :: s' =>
      if eqb_char c CR then
        match s' with
        | d :: s'' =>
            if eqb_char d LF then LF :: universal_newlines s''
            else LF :: universal_newlines s'
        | [] => [LF]
        end
      else c :: universal_newlines s'
  end.


End PyStr.

Import PyStr.

(* ================================================================== *)
(** ** Exceptions *)
(* ================================================================== *)

(** The exceptions the registry raises.  All but the last two are
    [ValueError]s in the source; [SaveFailed] and [UpdateSaveFailed] are
    the [RuntimeError]s of [add_device] and [update_device]. *)
Inductive Error : Type :=
| InvalidMacLength (raw : str)
| InvalidMacFormat (raw : str)
| EmptyName
| NoValidChars
| MacExists (mac name : str)
| NameExists (name : str)
| NotFound (id : Z)
| SaveFailed
| UpdateSaveFailed.

Inductive result (A : Type) : Type :=
| Ok (a : A)
| Raise (e : Error).
Arguments Ok {A} a.
Arguments Raise {A} e.

Definition is_ok {A} (r : result A) : bool :=
  match r with Ok _ => true | Raise _ => false end.

(* ================================================================== *)
(** ** [MACAddressManager]: validation *)
(* ================================================================== *)

(** [[clean[i:i+2] for i in range(0, 12, 2)]] on a string of any length:
    consecutive pairs. *)
Fixpoint pairs (s : str) : list str :=
  match s with
  | a :: b :: s' => [a; b] :: pairs s'
  | [a] => [[a]]
  | [] => []
  end.

(** [normalize_mac] (lines 32-49). *)
Definition normalize_mac (mac_address : str) : result str :=
  let clean_mac := filter is_hex (upper mac_address) in
  if negb (length clean_mac =? 12) then Raise (InvalidMacLength mac_address)
  else if negb (forallb is_upper_hex clean_mac)
       then Raise (InvalidMacFormat mac_address)
       else Ok (join [COLON] (pairs clean_mac)).

(** The class [[a-zA-Z0-9_\-\s]]. *)
Definition is_name_char (c : char) : bool :=
  is_lower c || is_upper c || is_digit c ||
  eqb_char c UNDERSCORE || eqb_char c MINUS || is_space c.

Definition is_nil {A} (l : list A) : bool :=
  match l with [] => true | _ => false end.

(** [validate_device_name] (lines 51-65). *)
Definition validate_device_name (name : str) : result str :=
  if is_nil name || is_nil (strip name) then Raise EmptyName
  else
    let clean_name := filter is_name_char (strip name) in
    if length clean_name =? 0 then Raise NoValidChars
    else if 50 <? length clean_name then Ok (firstn 50 clean_name)
         else Ok clean_name.

(* ================================================================== *)
(** ** [MACAddressManager]: the device store *)
(* ================================================================== *)

(** A device record: the dictionary built at lines 121-129 and 188-196.
    [updated_date] is the key that [update_device] adds. *)
Record Device : Type := mkDevice {
  id : Z;
  name : str;
  mac : str;
  original_mac : str;
  enabled : bool;
  added_date : str;
  line_number : nat;
  updated_date : option str
}.

(** The part of the file system the manager touches.  [store] is the
    content of [mac_addresses.txt] ([None]: the file does not exist),
    [backups] the backup directory (newest entry first).  The two
    [now_*] fields are the readings of [datetime.now()] in the two
    renderings the source uses.  The three flags say which I/O calls
    raise (for a write: the disk, or a character that the encoding
    cannot write).  [torn] says what a write of the store that raises
    leaves behind: nothing is changed when the file could not be opened
    ([None]); otherwise the file was opened, which empties it, and the
    first [n] characters of the text were written ([Some n]). *)
Record FS : Type := mkFS {
  store : option str;
  backups : list (str * str);
  now_stamp : str;
  now_iso : str;
  read_fails : bool;
  backup_write_fails : bool;
  store_write_fails : bool;
  torn : option nat
}.

Definition set_store (content : option str) (fs : FS) : FS :=
  mkFS content (backups fs) (now_stamp fs) (now_iso fs)
       (read_fails fs) (backup_write_fails fs) (store_write_fails fs)
       (torn fs).

(** [Path.read_text]: [None] stands for a raised exception. *)
Definition read_text (fs : FS) : option str :=
  if read_fails fs then None
  else match store fs with
       | Some bytes => Some (universal_newlines bytes)
       | None => None
       end.

(** [Path.write_text] on the store: whether it returned, and the file
    system it leaves.  The file is opened for writing, which truncates
    it, before anything is written. *)
Definition write_store (content : str) (fs : FS) : bool * FS :=
  if store_write_fails fs then
    (false,
     match torn fs with
     | None => fs
     | Some n => set_store (Some (firstn n content)) fs
     end)
  else (true, set_store (Some content) fs).

Definition write_backup (backup_name content : str) (fs : FS) : option FS :=
  if backup_write_fails fs then None
  else Some (mkFS (store fs) ((backup_name, content) :: backups fs)
                  (now_stamp fs) (now_iso fs)
                  (read_fails fs) (backup_write_fails fs)
                  (store_write_fails fs) (torn fs)).

(** White space for [int]: the string is first brought to ASCII, which
    keeps the characters below 127 and turns every other white space
    into a space, and then only TAB, LF, VT, FF, CR and SPACE are
    skipped at its two ends. *)
Definition is_int_space (c : char) : bool :=
  between 9 13 c || eqb_char c SPACE || ((127 <=? c)%N && is_space c).

Fixpoint int_lstrip (s : str) : str :=
  match s with
  | c :: s' => if is_int_space c then int_lstrip s' else s
  | [] => []
  end.

Definition int_strip (s : str) : str :=
  rev (int_lstrip (rev (int_lstrip s))).

(** [int(s)] for a string: surrounding whitespace, an optional sign,
    decimal digits (of any script) with single underscores between
    digits.  The limit that CPython puts on the number of digits of a
    conversion (4300 by default, a setting of the interpreter) is not
    modelled. *)
Fixpoint parse_digits (acc : Z) (after_digit : bool) (s : str) : option Z :=
  match s with
  | [] => if after_digit then Some acc else None
  | c :: s' =>
      match decimal c with
      | Some d => parse_digits (10 * acc + Z.of_N d) true s'
      | None =>
          if eqb_char c UNDERSCORE && after_digit
          then parse_digits acc false s'
          else None
      end
  end.

Definition py_int (s : str) : option Z :=
  match int_strip s with
  | c :: r =>
      if eqb_char c MINUS then option_map Z.opp (parse_digits 0 false r)
      else if eqb_char c PLUS then parse_digits 0 false r
           else parse_digits 0 false (c :: r)
  | [] => None
  end.

(** [str(n)] for an integer (the same limit apart). *)
Definition py_str_of_Z (n : Z) : str :=
  lit (DecimalString.NilZero.string_of_int (Z.to_int n)).

(** The body of the loop of [load_mac_addresses] (lines 80-129) for one
    line: [None] when the line is skipped. *)
Definition parse_line (now : str) (line_num : nat) (line : str)
  : option Device :=
  let line := strip line in
  if is_nil line then None
  else
    match split TAB line with
    | id_name_part :: mac_part :: _ =>
        let '(device_id, name) :=
          match split_once BAR id_name_part with
          | Some (id_str, name) =>
              match py_int id_str with
              | Some n => (n, name)
              | None => (Z.of_nat line_num, name)
              end
          | None => (Z.of_nat line_num, id_name_part)
          end in
        match normalize_mac mac_part with
        | Raise _ => None
        | Ok normalized_mac =>
            match validate_device_name name with
            | Raise _ => None
            | Ok clean_name =>
                Some (mkDevice device_id clean_name normalized_mac mac_part
                               true now line_num None)
            end
        end
    | _ => None
    end.

(** [enumerate(lines, start)] followed by the loop. *)
Fixpoint parse_lines (now : str) (line_num : nat) (lines : list str)
  : list Device :=
  match lines with
  | [] => []
  | line :: rest =>
      match parse_line now line_num line with
      | Some d => d :: parse_lines now (S line_num) rest
      | None => parse_lines now (S line_num) rest
      end
  end.

(** The parsing of the text of the store. *)
Definition parse_content (now : str) (text : str) : list Device :=
  let content := strip text in
  if is_nil content then []
  else parse_lines now 1 (split LF content).

(** [load_mac_addresses] (lines 67-139). *)
Definition load_mac_addresses (fs : FS) : list Device :=
  match store fs with
  | None => []
  | Some _ =>
      match read_text fs with
      | None => []
      | Some text => parse_content (now_iso fs) text
      end
  end.

(** [sorted(devices, key=lambda x: x.get('id', 0))]: a stable sort. *)
Fixpoint insert_by_id (d : Device) (l : list Device) : list Device :=
  match l with
  | [] => [d]
  | x :: l' => if (id d <=? id x)%Z then d :: l else x :: insert_by_id d l'
  end.

Definition sorted_by_id (devices : list Device) : list Device :=
  fold_right insert_by_id [] devices.

(** The line written for a device (line 157). *)
Definition render_line (d : Device) : str :=
  py_str_of_Z (id d) ++ [BAR] ++ name d ++ [TAB] ++ original_mac d ++ [TAB].

(** The text written to the store (lines 150-161). *)
Definition render (devices : list Device) : str :=
  join [LF] (map render_line (filter enabled (sorted_by_id devices))) ++ [LF].

Definition backup_name (fs : FS) : str :=
  lit "mac_addresses_" ++ now_stamp fs ++ lit ".txt".

(** [save_mac_addresses] (lines 141-166).  The whole body is inside one
    [try]: an exception of the backup or of the write makes the method
    return [False]. *)
Definition save_mac_addresses (devices : list Device) (fs : FS) : bool * FS :=
  let backed_up :=
    match store fs with
    | Some _ =>
        match read_text fs with
        | Some text => write_backup (backup_name fs) text fs
        | None => None
        end
    | None => Some fs
    end in
  match backed_up with
  | None => (false, fs)
  | Some fs1 => write_store (render devices) fs1
  end.

(** The duplicate check of [add_device] (lines 177-181). *)
Fixpoint check_duplicates (devices : list Device) (clean_name normalized_mac : str)
  : option Error :=
  match devices with
  | [] => None
  | device :: rest =>
      if eqb (mac device) normalized_mac
      then Some (MacExists normalized_mac (name device))
      else if eqb (lower (name device)) (lower clean_name)
           then Some (NameExists clean_name)
           else check_duplicates rest clean_name normalized_mac
  end.

(** [max([d.get('id', 0) for d in devices]) if devices else 0]. *)
Definition max_id (devices : list Device) : Z :=
  match devices with
  | [] => 0%Z
  | d :: rest => fold_left Z.max (map id rest) (id d)
  end.

(** [add_device] (lines 168-203). *)
Definition add_device (name0 mac0 : str) (fs : FS) : result Device * FS :=
  let devices := load_mac_addresses fs in
  match validate_device_name name0 with
  | Raise e => (Raise e, fs)
  | Ok clean_name =>
      match normalize_mac mac0 with
      | Raise e => (Raise e, fs)
      | Ok normalized_mac =>
          match check_duplicates devices clean_name normalized_mac with
          | Some e => (Raise e, fs)
          | None =>
              let new_id := (max_id devices + 1)%Z in
              let new_device :=
                mkDevice new_id clean_name normalized_mac mac0 true
                         (now_iso fs) (length devices + 1) None in
              match save_mac_addresses (devices ++ [new_device]) fs with
              | (true, fs') => (Ok new_device, fs')
              | (false, fs') => (Raise SaveFailed, fs')
              end
          end
      end
  end.

(** The first device with the given id, and its position (lines 210-214). *)
Fixpoint find_device (device_id : Z) (devices : list Device)
  : option (nat * Device) :=
  match devices with
  | [] => None
  | d :: rest =>
      if (id d =? device_id)%Z then Some (0, d)
      else match find_device device_id rest with
           | Some (i, x) => Some (S i, x)
           | None => None
           end
  end.

(** The record at position [i] is replaced: the effect on the list of
    assigning to the keys of the dictionary found in it. *)
Fixpoint replace_at (i : nat) (d : Device) (devices : list Device)
  : list Device :=
  match devices, i with
  | [], _ => []
  | _ :: rest, 0 => d :: rest
  | x :: rest, S j => x :: replace_at j d rest
  end.

Definition set_name (n : str) (d : Device) : Device :=
  mkDevice (id d) n (mac d) (original_mac d) (enabled d) (added_date d)
           (line_number d) (updated_date d).

Definition set_mac (m raw : str) (d : Device) : Device :=
  mkDevice (id d) (name d) m raw (enabled d) (added_date d)
           (line_number d) (updated_date d).

Definition set_enabled (b : bool) (d : Device) : Device :=
  mkDevice (id d) (name d) (mac d) (original_mac d) b (added_date d)
           (line_number d) (updated_date d).

Definition set_updated (t : str) (d : Device) : Device :=
  mkDevice (id d) (name d) (mac d) (original_mac d) (enabled d) (added_date d)
           (line_number d) (Some t).

(** Lines 223-225. *)
Definition name_conflict (device_id : Z) (clean_name : str)
  (devices : list Device) : bool :=
  existsb (fun d => negb (id d =? device_id)%Z &&
                    eqb (lower (name d)) (lower clean_name)) devices.

(** Lines 231-233. *)
Definition mac_conflict (device_id : Z) (normalized_mac : str)
  (devices : list Device) : bool :=
  existsb (fun d => negb (id d =? device_id)%Z &&
                    eqb (mac d) normalized_mac) devices.

(** [update_device] (lines 205-245).  [None] for an argument left at its
    default. *)
Definition update_device (device_id : Z) (name0 mac0 : option str)
  (enabled0 : option bool) (fs : FS) : result Device * FS :=
  let devices := load_mac_addresses fs in
  match find_device device_id devices with
  | None => (Raise (NotFound device_id), fs)
  | Some (i, device) =>
      let after_name :=
        match name0 with
        | None => Ok (device, devices)
        | Some n =>
            match validate_device_name n with
            | Raise e => Raise e
            | Ok clean_name =>
                if name_conflict device_id clean_name devices
                then Raise (NameExists clean_name)
                else let device' := set_name clean_name device in
                     Ok (device', replace_at i device' devices)
            end
        end in
      match after_name with
      | Raise e => (Raise e, fs)
      | Ok (device1, devices1) =>
          let after_mac :=
            match mac0 with
            | None => Ok (device1, devices1)
            | Some m =>
                match normalize_mac m with
                | Raise e => Raise e
                | Ok normalized_mac =>
                    if mac_conflict device_id normalized_mac devices1
                    then Raise (MacExists normalized_mac [])
                    else let device' := set_mac normalized_mac m device1 in
                         Ok (device', replace_at i device' devices1)
                end
            end in
          match after_mac with
          | Raise e => (Raise e, fs)
          | Ok (device2, devices2) =>
              let device3 :=
                match enabled0 with
                | None => device2
                | Some b => set_enabled b device2
                end in
              let device4 := set_updated (now_iso fs) device3 in
              let devices4 := replace_at i device4 devices2 in
              match save_mac_addresses devices4 fs with
              | (true, fs') => (Ok device4, fs')
              | (false, fs') => (Raise UpdateSaveFailed, fs')
              end
          end
      end
  end.

(** [delete_device] (lines 247-258). *)
Definition delete_device (device_id : Z) (fs : FS) : result bool * FS :=
  let devices := load_mac_addresses fs in
  let original_count := length devices in
  let devices' := filter (fun d => negb (id d =? device_id)%Z) devices in
  if length devices' =? original_count
  then (Raise (NotFound device_id), fs)
  else let '(ok, fs') := save_mac_addresses devices' fs in (Ok ok, fs').

(** [get_device] (lines 260-266). *)
Definition get_device (device_id : Z) (fs : FS) : option Device :=
  option_map snd (find_device device_id (load_mac_addresses fs)).

(** [get_all_devices] (lines 268-270). *)
Definition get_all_devices (fs : FS) : list Device := load_mac_addresses fs.

(** [get_enabled_devices] (lines 272-275). *)
Definition get_enabled_devices (fs : FS) : list Device :=
  filter enabled (load_mac_addresses fs).

(* ================================================================== *)
(** ** Element trees ([xml.etree.ElementTree]) *)
(* ================================================================== *)

(** An [ET.Element]: tag, attributes, text, children and tail. *)
Inductive Element : Type :=
| Elem (tag : str) (attrib : list (str * str)) (text : option str)
       (children : list Element) (tail : option str).

Definition tag (e : Element) : str :=
  match e with Elem t _ _ _ _ => t end.
Definition attrib (e : Element) : list (str * str) :=
  match e with Elem _ a _ _ _ => a end.
Definition text (e : Element) : option str :=
  match e with Elem _ _ x _ _ => x end.
Definition children (e : Element) : list Element :=
  match e with Elem _ _ _ cs _ => cs end.
Definition tail (e : Element) : option str :=
  match e with Elem _ _ _ _ tl => tl end.

Definition set_children (cs : list Element) (e : Element) : Element :=
  match e with Elem t a x _ tl => Elem t a x cs tl end.
Definition set_text (x : option str) (e : Element) : Element :=
  match e with Elem t a _ cs tl => Elem t a x cs tl end.

(** [ET.SubElement(parent, tag)] followed by [.text = x]: the new child. *)
Definition leaf (t : str) (x : option str) : Element := Elem t [] x [] None.

Definition append_child (c : Element) (parent : Element) : Element :=
  set_children (children parent ++ [c]) parent.

(** The position of the first element of a list that satisfies [p]. *)
Fixpoint index_where {A} (p : A -> bool) (l : list A) : option nat :=
  match l with
  | [] => None
  | x :: l' => if p x then Some 0 else option_map S (index_where p l')
  end.

Definition has_tag (t : str) (e : Element) : bool := eqb (tag e) t.

(** [parent.find(t)] for a plain tag: the first child with that tag. *)
Definition find_child (t : str) (parent : Element) : option Element :=
  List.find (has_tag t) (children parent).

Fixpoint update_nth {A} (i : nat) (f : A -> A) (l : list A) : list A :=
  match l, i with
  | [], _ => []
  | x :: l', 0 => f x :: l'
  | x :: l', S j => x :: update_nth j f l'
  end.

(** A reference to an element inside a tree: the child positions from
    the root.  In-place mutation of the referenced element is
    [modify_at]. *)
Definition path := list nat.

Fixpoint get_at (p : path) (e : Element) : option Element :=
  match p with
  | [] => Some e
  | i :: p' =>
      match nth_error (children e) i with
      | Some c => get_at p' c
      | None => None
      end
  end.

Fixpoint modify_at (p : path) (g : Element -> Element) (e : Element)
  : Element :=
  match p with
  | [] => g e
  | i :: p' => set_children (update_nth i (modify_at p' g) (children e)) e
  end.

(** The first element of [l], at position [i] or later, on which [f]
    finds something. *)
Definition first_path {A} (f : A -> option path) : nat -> list A -> option path :=
  fix go (i : nat) (l : list A) : option path :=
    match l with
    | [] => None
    | x :: l' =>
        match f x with
        | Some p => Some (i :: p)
        | None => go (S i) l'
        end
    end.

(** One step [/t] of a path expression, continued by [k]. *)
Definition child_step (t : str) (k : Element -> option path) (e : Element)
  : option path :=
  first_path (fun c => if has_tag t c then k c else None) 0 (children e).

(** [Firewall/Alias/aliases] below an element. *)
Definition section_under (e : Element) : option path :=
  child_step (lit "Firewall")
    (child_step (lit "Alias")
       (child_step (lit "aliases") (fun _ => Some []))) e.

(** [root.find(".//OPNsense/Firewall/Alias/aliases")]: the proper
    descendants tagged [OPNsense] are visited in document order, and the
    first one with a [Firewall/Alias/aliases] below it gives the result. *)
Fixpoint find_aliases_section (e : Element) : option path :=
  match e with
  | Elem _ _ _ cs _ =>
      first_path
        (fun c =>
           match (if has_tag (lit "OPNsense") c then section_under c else None) with
           | Some p => Some p
           | None => find_aliases_section c
           end) 0 cs
  end.

(** The test of lines 143-144 on one child of the aliases section
    (which [findall("alias")] restricts to the tag [alias]). *)
Definition is_alias_named (alias_name : str) (alias : Element) : bool :=
  has_tag (lit "alias") alias &&
  match find_child (lit "name") alias with
  | Some name_elem =>
      match text name_elem with
      | Some t => eqb t alias_name
      | None => false
      end
  | None => false
  end.

(** [find_alias_by_name] (lines 135-147); the element found is given by
    its path. *)
Definition find_alias_by_name (root : Element) (alias_name : str)
  : option path :=
  match find_aliases_section root with
  | None => None
  | Some p =>
      match get_at p root with
      | None => None
      | Some aliases_section =>
          match index_where (is_alias_named alias_name)
                            (children aliases_section) with
          | Some i => Some (p ++ [i])
          | None => None
          end
      end
  end.

(** [parent.find(t)], creating the child [fresh] when there is none, and
    then [k] applied to that child in place. *)
Definition with_child (t : str) (fresh : Element) (k : Element -> Element)
  (parent : Element) : Element :=
  match index_where (has_tag t) (children parent) with
  | Some i => set_children (update_nth i k (children parent)) parent
  | None => append_child (k fresh) parent
  end.

(** Lines 173-188 with [k] applied to the [aliases] element they end on. *)
Definition in_aliases (k : Element -> Element) (root : Element) : Element :=
  with_child (lit "OPNsense") (leaf (lit "OPNsense") None)
    (with_child (lit "Firewall") (leaf (lit "Firewall") None)
       (with_child (lit "Alias")
          (Elem (lit "Alias") [] None
                [leaf (lit "version") (Some (lit "1.0.1"))] None)
          (with_child (lit "aliases") (leaf (lit "aliases") None) k)))
    root.

(** Lines 173-188: the sections are created where they are missing. *)
Definition ensure_sections (root : Element) : Element :=
  in_aliases (fun aliases => aliases) root.

(** The description of line 221. *)
Definition alias_description (n_devices : nat) (now : str) : str :=
  lit "Parental Controls MAC Addresses (" ++ py_str_of_Z (Z.of_nat n_devices)
  ++ lit " devices) - Auto-generated " ++ now.

(** The children written at lines 206-222. *)
Definition alias_children (alias_name now : str)
  (enabled_devices : list Device) : list Element :=
  [ leaf (lit "enabled") (Some (lit "1"));
    leaf (lit "name") (Some alias_name);
    leaf (lit "type") (Some (lit "mac"));
    leaf (lit "path_expression") (Some []);
    leaf (lit "proto") (Some []);
    leaf (lit "interface") (Some []);
    leaf (lit "counters") (Some (lit "0"));
    leaf (lit "updatefreq") (Some []);
    leaf (lit "content") (Some (join [LF] (map mac enabled_devices)));
    leaf (lit "description")
         (Some (alias_description (length enabled_devices) now)) ].

(** Lines 201-222: the children of the alias element are removed and
    written anew. *)
Definition rewrite_alias (alias_name now : str) (enabled_devices : list Device)
  (alias_elem : Element) : Element :=
  set_children (alias_children alias_name now enabled_devices) alias_elem.

(** The element created at lines 198-199. *)
Definition new_alias (fresh_uuid : str) : Element :=
  Elem (lit "alias") [(lit "uuid", fresh_uuid)] None [] None.

(** Lines 172-222 as a function of the parsed document: [fresh_uuid] is
    what [uuid.uuid4()] returns and [now] the rendering of the clock. *)
Definition upsert_alias (alias_name fresh_uuid now : str)
  (enabled_devices : list Device) (root : Element) : Element :=
  let root1 := ensure_sections root in
  match find_alias_by_name root1 alias_name with
  | Some p =>
      modify_at p (rewrite_alias alias_name now enabled_devices) root1
  | None =>
      in_aliases
        (append_child
           (rewrite_alias alias_name now enabled_devices
              (new_alias fresh_uuid)))
        root1
  end.

Definition MARKER : str := lit "ParentalControlBlock".
Definition ALIAS_NAME : str := lit "ParentalControlMACs".

(** The test of lines 346 and 394 on a child of the filter section
    (restricted to the tag [rule] by [findall("rule")]). *)
Definition is_block_rule (rule : Element) : bool :=
  has_tag (lit "rule") rule &&
  match find_child (lit "descr") rule with
  | Some descr =>
      match text descr with
      | Some t => negb (is_nil t) && contains MARKER t
      | None => false
      end
  | None => false
  end.

(** Lines 348-352: the [disabled] child is found or created and its
    text set. *)
Definition set_disabled (v : str) (rule : Element) : Element :=
  with_child (lit "disabled") (leaf (lit "disabled") None)
             (set_text (Some v)) rule.

Inductive Toggled : Type :=
| NoFilterSection
| RuleNotFound
| RuleUpdated (root : Element).

(** Lines 337-358 as a function of the parsed document. *)
Definition toggle_rule (enable : bool) (root : Element) : Toggled :=
  match index_where (has_tag (lit "filter")) (children root) with
  | None => NoFilterSection
  | Some fi =>
      match nth_error (children root) fi with
      | None => NoFilterSection
      | Some filter_section =>
          match index_where is_block_rule (children filter_section) with
          | None => RuleNotFound
          | Some ri =>
              RuleUpdated
                (modify_at [fi; ri]
                   (set_disabled (if enable then lit "0" else lit "1")) root)
          end
      end
  end.

(** Lines 387-398: [(rule_exists, rule_enabled)]. *)
Definition rule_status (root : Element) : bool * bool :=
  match find_child (lit "filter") root with
  | None => (false, false)
  | Some filter_section =>
      match List.find is_block_rule (children filter_section) with
      | None => (false, false)
      | Some rule =>
          (true,
           match find_child (lit "disabled") rule with
           | None => true
           | Some disabled_elem =>
               match text disabled_elem with
               | Some t => negb (eqb t (lit "1"))
               | None => true
               end
           end)
      end
  end.

(* ================================================================== *)
(** ** The remote host *)
(* ================================================================== *)

(** XML text is represented by the tree it denotes: [Doc root] is the
    text of a well-formed document, [Raw s] any other text.  Writing a
    tree and reading it back is the identity except that an empty text
    or tail comes back as [None], which [canon] applies. *)
Inductive XmlText : Type :=
| Doc (root : Element)
| Raw (s : str).

Definition canon_text (x : option str) : option str :=
  match x with
  | Some [] => None
  | _ => x
  end.

Fixpoint canon (e : Element) : Element :=
  match e with
  | Elem t a x cs tl => Elem t a (canon_text x) (map canon cs) (canon_text tl)
  end.

(** [ET.tostring(root, encoding='unicode')]. *)
Definition tostring (root : Element) : XmlText := Doc (canon root).

(** [ET.fromstring(text)]; [None] is [ET.ParseError]. *)
Definition fromstring (x : XmlText) : option Element :=
  match x with
  | Doc root => Some root
  | Raw _ => None
  end.

(** [text.strip()]. *)
Definition strip_text (x : XmlText) : XmlText :=
  match x with
  | Doc root => Doc root
  | Raw s => Raw (strip s)
  end.

(** Truth value of a string: empty strings are false. *)
Definition truthy (x : XmlText) : bool :=
  match x with
  | Doc _ => true
  | Raw s => negb (is_nil s)
  end.

(** The commands sent through [ssh_command]. *)
Inductive Command : Type :=
| CatConfig                      (* cat /conf/config.xml *)
| CpConfig (backup_name : str)   (* cp /conf/config.xml /conf/<name> *)
| MvNewConfig                    (* mv /tmp/new_config.xml /conf/config.xml *)
| RestartConfigd                 (* configctl webgui restart configd *)
| FilterReload                   (* configctl filter reload *)
| ConfigureFirewall              (* /usr/local/etc/rc.configure_firewall *)
| FilterConfigure.               (* /usr/local/etc/rc.filter_configure *)

(** What reaches the transport: a remote command or the [scp] of the new
    document to [/tmp/new_config.xml]. *)
Inductive Event : Type :=
| Ssh (c : Command)
| Scp (x : XmlText).

(** Lines printed by [OPNsenseManager]. *)
Inductive Msg : Type :=
| MsgBackedUp (backup_name : str)
| MsgBackupFailed
| MsgGetConfigFailed
| MsgCopyFailed
| MsgMoveFailed
| MsgWarnConfigd
| MsgWarnFilterReload
| MsgApplied
| MsgFirewallConfigFailed
| MsgAppliedAlternative
| MsgReloadFailed
| MsgCreatingAlias (alias_name : str)
| MsgNoEnabledDevices
| MsgUpdatingAlias (alias_name : str)
| MsgCreatingNewAlias (alias_name : str)
| MsgAliasDone (alias_name : str) (n : nat)
| MsgDevicesInAlias
| MsgDevice (name mac : str)
| MsgXmlParseError
| MsgToggling (enable : bool)
| MsgNoFilterSection
| MsgRuleNotFound
| MsgToggled (enable : bool)
| MsgErrorToggling.

(** The remote host and what the process observes of its environment.
    [conf] is [/conf/config.xml], [tmp_new] is [/tmp/new_config.xml],
    [conf_backups] the copies made by [backup_config].  [trace] lists
    the transport calls made so far, oldest first, and
    [succeeds trace ev] says whether the call [ev] made after [trace]
    succeeds (exit status 0, no timeout, no exception).  [clock_stamp]
    and [clock_text] are the two renderings of [datetime.now()],
    [next_uuid] what [uuid.uuid4()] returns, [console] the printed
    lines, oldest first. *)
Record Remote : Type := mkRemote {
  conf : XmlText;
  tmp_new : option XmlText;
  conf_backups : list (str * XmlText);
  trace : list Event;
  succeeds : list Event -> Event -> bool;
  clock_stamp : str;
  clock_text : str;
  next_uuid : str;
  console : list Msg
}.

(** Computations on the remote host. *)
Definition M (A : Type) : Type := Remote -> A * Remote.

Definition ret {A} (a : A) : M A := fun w => (a, w).
Definition bind {A B} (m : M A) (k : A -> M B) : M B :=
  fun w => let '(a, w') := m w in k a w'.

Declare Scope remote_scope.
Delimit Scope remote_scope with remote.
Notation "x <- m ;; k" := (bind m (fun x => k))
  (at level 61, m at next level, right associativity) : remote_scope.
Notation "m ;;; k" := (bind m (fun _ => k))
  (at level 61, right associativity) : remote_scope.
Local Open Scope remote_scope.

Definition print (m : Msg) : M unit :=
  fun w => (tt, mkRemote (conf w) (tmp_new w) (conf_backups w) (trace w)
                         (succeeds w) (clock_stamp w) (clock_text w)
                         (next_uuid w) (console w ++ [m])).

Definition record (ev : Event) (w : Remote) : Remote :=
  mkRemote (conf w) (tmp_new w) (conf_backups w) (trace w ++ [ev])
           (succeeds w) (clock_stamp w) (clock_text w) (next_uuid w)
           (console w).

Definition set_files (c : XmlText) (t : option XmlText)
  (b : list (str * XmlText)) (w : Remote) : Remote :=
  mkRemote c t b (trace w) (succeeds w) (clock_stamp w) (clock_text w)
           (next_uuid w) (console w).

(** The effect of a command that succeeds, and its output.  [mv] needs
    its source file; the reload commands touch none of the three
    files. *)
Definition run_command (c : Command) (w : Remote) : option (XmlText * Remote) :=
  match c with
  | CatConfig => Some (conf w, w)
  | CpConfig n =>
      Some (Raw [], set_files (conf w) (tmp_new w)
                              ((n, conf w) :: conf_backups w) w)
  | MvNewConfig =>
      match tmp_new w with
      | Some x => Some (Raw [], set_files x None (conf_backups w) w)
      | None => None
      end
  | RestartConfigd | FilterReload | ConfigureFirewall | FilterConfigure =>
      Some (Raw [], w)
  end.

(** [ssh_command] (lines 27-48): never raises; the output is stripped. *)
Definition ssh_command (c : Command) : M (bool * XmlText) :=
  fun w =>
    let w1 := record (Ssh c) w in
    if succeeds w (trace w) (Ssh c) then
      match run_command c w1 with
      | Some (out, w2) => ((true, strip_text out), w2)
      | None => ((false, Raw []), w1)
      end
    else ((false, Raw []), w1).

(** The [scp] of lines 81-90, with the writing of the temporary file;
    [false] when any of it fails or raises. *)
Definition scp_new_config (x : XmlText) : M bool :=
  fun w =>
    let w1 := record (Scp x) w in
    if succeeds w (trace w) (Scp x)
    then (true, set_files (conf w1) (Some x) (conf_backups w1) w1)
    else (false, w1).

(** [backup_config] (lines 50-61). *)
Definition backup_config : M bool :=
  fun w =>
    let backup_name :=
      lit "config_backup_parental_controls_" ++ clock_stamp w ++ lit ".xml" in
    (r <- ssh_command (CpConfig backup_name) ;;
     if fst r then print (MsgBackedUp backup_name) ;;; ret true
     else print MsgBackupFailed ;;; ret false) w.

(** [get_config_xml] (lines 63-70). *)
Definition get_config_xml : M (option XmlText) :=
  r <- ssh_command CatConfig ;;
  if fst r then ret (Some (snd r))
  else print MsgGetConfigFailed ;;; ret None.

(** [apply_config_xml] (lines 72-133). *)
Definition apply_config_xml (xml_content : XmlText) : M bool :=
  copied <- scp_new_config xml_content ;;
  if negb copied then print MsgCopyFailed ;;; ret false
  else
    r <- ssh_command MvNewConfig ;;
    if negb (fst r) then print MsgMoveFailed ;;; ret false
    else
      r <- ssh_command RestartConfigd ;;
      (if negb (fst r) then print MsgWarnConfigd else ret tt) ;;;
      r <- ssh_command FilterReload ;;
      (if negb (fst r) then print MsgWarnFilterReload else ret tt) ;;;
      r <- ssh_command ConfigureFirewall ;;
      if fst r then print MsgApplied ;;; ret true
      else
        print MsgFirewallConfigFailed ;;;
        r <- ssh_command FilterConfigure ;;
        if fst r then print MsgAppliedAlternative ;;; ret true
        else print MsgReloadFailed ;;; ret false.

Fixpoint print_devices (devices : list Device) : M unit :=
  match devices with
  | [] => ret tt
  | d :: rest => print (MsgDevice (name d) (mac d)) ;;; print_devices rest
  end.

(** [create_or_update_mac_alias] (lines 149-245). *)
Definition create_or_update_mac_alias (alias_name : str) (fs : FS) : M bool :=
  print (MsgCreatingAlias alias_name) ;;;
  let enabled_devices := get_enabled_devices fs in
  if is_nil enabled_devices then print MsgNoEnabledDevices ;;; ret false
  else
    backed_up <- backup_config ;;
    if negb backed_up then ret false
    else
      config_xml <- get_config_xml ;;
      match config_xml with
      | None => ret false
      | Some x =>
          if negb (truthy x) then ret false
          else
            match fromstring x with
            | None => print MsgXmlParseError ;;; ret false
            | Some root =>
                fun w =>
                  let root1 := ensure_sections root in
                  (print (match find_alias_by_name root1 alias_name with
                          | Some _ => MsgUpdatingAlias alias_name
                          | None => MsgCreatingNewAlias alias_name
                          end) ;;;
                   applied <- apply_config_xml
                     (tostring (upsert_alias alias_name (next_uuid w)
                                  (clock_text w) enabled_devices root)) ;;
                   if applied then
                     print (MsgAliasDone alias_name (length enabled_devices)) ;;;
                     print MsgDevicesInAlias ;;;
                     print_devices enabled_devices ;;;
                     ret true
                   else ret false) w
            end
      end.

(** [toggle_parental_controls] (lines 323-372). *)
Definition toggle_parental_controls (enable : bool) : M bool :=
  print (MsgToggling enable) ;;;
  config_xml <- get_config_xml ;;
  match config_xml with
  | None => ret false
  | Some x =>
      if negb (truthy x) then ret false
      else
        match fromstring x with
        | None => print MsgErrorToggling ;;; ret false
        | Some root =>
            match toggle_rule enable root with
            | NoFilterSection => print MsgNoFilterSection ;;; ret false
            | RuleNotFound => print MsgRuleNotFound ;;; ret false
            | RuleUpdated root' =>
                applied <- apply_config_xml (tostring root') ;;
                if applied then print (MsgToggled enable) ;;; ret true
                else ret false
            end
        end
  end.

(** The dictionary returned by [get_parental_control_status]. *)
Record Status : Type := mkStatus {
  alias_exists : bool;
  rule_exists : bool;
  rule_enabled : bool;
  device_count : nat;
  controls_active : bool;
  last_checked : str
}.

Inductive StatusResult : Type :=
| StatusError
| StatusOk (s : Status).

(** [get_parental_control_status] (lines 374-413). *)
Definition get_parental_control_status (fs : FS) : M StatusResult :=
  config_xml <- get_config_xml ;;
  match config_xml with
  | None => ret StatusError
  | Some x =>
      if negb (truthy x) then ret StatusError
      else
        match fromstring x with
        | None => ret StatusError
        | Some root =>
            let alias_exists :=
              match find_alias_by_name root ALIAS_NAME with
              | Some _ => true
              | None => false
              end in
            let '(rule_exists, rule_enabled) := rule_status root in
            let enabled_devices := get_enabled_devices fs in
            ret (StatusOk
                   (mkStatus alias_exists rule_exists rule_enabled
                             (length enabled_devices)
                             (alias_exists && rule_exists && rule_enabled)
                             (now_iso fs)))
        end
  end.

(* ================================================================== *)
(** ** Definitions used to state the properties *)
(* ================================================================== *)

(** The code points that are not hexadecimal digits and whose upper
    case holds hexadecimal digits: U+1E9A, whose upper case starts with
    A, and the ligatures ff, fi, fl, ffi and ffl. *)
Definition EXPANDING : list char :=
  [0x1E9A; 0xFB00; 0xFB01; 0xFB02; 0xFB03; 0xFB04]%N.

(** The two checks on the tables of [str.upper] that the facts about
    hexadecimal digits rest on: an entry that expands either belongs to
    [EXPANDING] or brings no hexadecimal digit, and the images of a run
    hold no hexadecimal digit unless the run is the one of the ASCII
    letters. *)
Definition multi_ok (e : char * list char) : bool :=
  existsb (N.eqb (fst e)) EXPANDING || is_nil (filter is_hex (snd e)).

Definition run_ok (r : N * N * N * N) : bool :=
  let '(first, last, step, image) := r in
  let top := (image + (last - first))%N in
  (((top <? 48) || (57 <? image)) && ((top <? 65) || (70 <? image)) &&
   ((top <? 97) || (102 <? image)) ||
   ((first =? 97) && (last =? 122) && (image =? 65)))%N.

(** The hexadecimal digit of a value below 16, in upper or lower case. *)
Definition hex_digit (up : bool) (n : nat) : char :=
  if n <? 10 then N.of_nat (48 + n)
  else N.of_nat ((if up then 55 else 87) + n).

Definition octet_text (up : bool) (b : byte) : str :=
  [hex_digit up (Byte.to_nat b / 16); hex_digit up (Byte.to_nat b mod 16)].

(** A hardware address of six octets written with the separator [sep]. *)
Definition format_mac (up : bool) (sep : str) (octets : list byte) : str :=
  join sep (map (octet_text up) octets).

(** The two errors of the duplicate check. *)
Definition is_duplicate (e : Error) : bool :=
  match e with
  | MacExists _ _ | NameExists _ => true
  | _ => false
  end.

(** A store with two devices and no failing I/O, for the examples. *)
Definition example_fs : FS :=
  mkFS (Some (lit "1|Kids Tablet" ++ [TAB] ++ lit "AA:BB:CC:DD:EE:01" ++ [TAB; LF]
              ++ lit "2|Console" ++ [TAB] ++ lit "aa-bb-cc-dd-ee-02" ++ [TAB; LF]))
       [] (lit "20250101_120000") (lit "2025-01-01T12:00:00")
       false false false None.

(** The same store on a disk where backups cannot be written. *)
Definition example_fs_no_backup : FS :=
  mkFS (store example_fs) [] (now_stamp example_fs) (now_iso example_fs)
       false true false None.

(** The same store on a disk where the store file can be opened and
    the writing fails at once. *)
Definition example_fs_torn : FS :=
  mkFS (store example_fs) [] (now_stamp example_fs) (now_iso example_fs)
       false false true (Some 0).

Definition example_device : Device :=
  mkDevice 3 (lit "Phone") (lit "AA:BB:CC:DD:EE:03") (lit "AABBCCDDEE03")
           true (lit "2025-01-01T12:00:00") 3 None.

(** An empty store. *)
Definition example_empty_fs : FS :=
  mkFS (Some []) [] (lit "20250101_120000") (lit "2025-01-01T12:00:00")
       false false false None.

(** A remote document with a disabled block rule and an alias. *)
Definition example_rule : Element :=
  Elem (lit "rule") [(lit "uuid", lit "r-1")] None
       [ leaf (lit "type") (Some (lit "block"));
         leaf (lit "disabled") (Some (lit "1"));
         leaf (lit "descr") (Some (lit "ParentalControlBlock - Block devices")) ]
       None.

Definition example_alias : Element :=
  Elem (lit "alias") [(lit "uuid", lit "a-1")] None
       [ leaf (lit "enabled") (Some (lit "1"));
         leaf (lit "name") (Some ALIAS_NAME);
         leaf (lit "content") (Some (lit "AA:BB:CC:DD:EE:09")) ]
       None.

Definition example_root : Element :=
  Elem (lit "opnsense") [] None
       [ Elem (lit "filter") [] None
              [ Elem (lit "rule") [] None
                     [leaf (lit "descr") (Some (lit "Default allow LAN"))] None;
                example_rule ] None;
         Elem (lit "OPNsense") [] None
              [ Elem (lit "Firewall") [] None
                     [ Elem (lit "Alias") [] None
                            [ leaf (lit "version") (Some (lit "1.0.1"));
                              Elem (lit "aliases") [] None [example_alias] None ]
                            None ] None ] None ]
       None.

(** A remote host on which every call succeeds. *)
Definition example_remote : Remote :=
  mkRemote (Doc example_root) None [] [] (fun _ _ => true)
           (lit "20250101_120000") (lit "2025-01-01 12:00:00")
           (lit "11111111-2222-4333-8444-555555555555") [].

(** A remote host on which the two firewall-reconfigure scripts fail. *)
Definition example_remote_no_reload : Remote :=
  mkRemote (Doc example_root) None [] []
           (fun _ ev => match ev with
                        | Ssh ConfigureFirewall | Ssh FilterConfigure => false
                        | _ => true
                        end)
           (lit "20250101_120000") (lit "2025-01-01 12:00:00")
           (lit "11111111-2222-4333-8444-555555555555") [].

(** A transport on which every call succeeds. *)
Definition reliable (w : Remote) : Prop :=
  forall t ev, succeeds w t ev = true.

(** Text without line breaks and tabulations: what a field of a line of
    the store must be for the line to be read back as written. *)
Definition line_safe (s : str) : Prop :=
  ~ In LF s /\ ~ In CR s /\ ~ In TAB s.

Definition blank (s : str) : Prop := Forall (fun c => is_space c = true) s.

(** [split sep (a ++ b)] from the parts of [a] and of [b]: the last part
    of [a] and the first part of [b] are one part. *)
Fixpoint glue (xs ys : list str) : list str :=
  match xs with
  | [] => ys
  | [x] => match ys with
           | y :: ys' => (x ++ y) :: ys'
           | [] => [x]
           end
  | x :: xs' => x :: glue xs' ys
  end.

(** The characters of a decimal numeral. *)
Definition uint_chars (d : Decimal.uint) : str :=
  lit (DecimalString.NilEmpty.string_of_uint d).

(** The characters of the text of an integer. *)
Definition sign_or_digit (c : char) : Prop :=
  is_digit c = true \/ c = MINUS.

(** Ascending ids. *)
Definition id_le (a b : Device) : Prop := (id a <= id b)%Z.


(** Three short histories that start from the empty store. *)
Definition history_names : FS :=
  snd (add_device (lit "! a") (lit "AA:BB:CC:DD:EE:02")
         (snd (add_device (lit "a") (lit "AA:BB:CC:DD:EE:01")
                 example_empty_fs))).

Definition history_macs : FS :=
  snd (add_device (lit "x" ++ [TAB] ++ lit "AABBCCDDEE01")
         (lit "AA:BB:CC:DD:EE:02")
         (snd (add_device (lit "a") (lit "AA:BB:CC:DD:EE:01")
                 example_empty_fs))).

Definition history_ids : FS :=
  snd (update_device 1
         (Some (lit "x" ++ [LF] ++ lit "y" ++ [TAB] ++ lit "AABBCCDDEE09"))
         None None
         (snd (add_device (lit "b") (lit "AA:BB:CC:DD:EE:02")
                 (snd (add_device (lit "a") (lit "AA:BB:CC:DD:EE:01")
                         example_empty_fs))))).

(** Induction on element trees. *)
Fixpoint Element_induction (P : Element -> Prop)
  (step : forall t a x cs tl, Forall P cs -> P (Elem t a x cs tl))
  (e : Element) : P e :=
  match e with
  | Elem t a x cs tl =>
      step t a x cs tl
        ((fix all (l : list Element) : Forall P l :=
            match l with
            | [] => Forall_nil P
            | c :: l' => Forall_cons c (Element_induction P step c) (all l')
            end) cs)
  end.

(** The element that [find_alias_by_name] returns. *)
Definition alias_subtree (root : Element) (alias_name : str)
  : option Element :=
  match find_alias_by_name root alias_name with
  | Some p => get_at p root
  | None => None
  end.

(** The element that lines 173-188 end on, once the sections exist: the
    first child with each tag in turn. *)
Fixpoint first_children (tags : list str) (e : Element) : option path :=
  match tags with
  | [] => Some []
  | t :: tags' =>
      match index_where (has_tag t) (children e) with
      | None => None
      | Some i =>
          match nth_error (children e) i with
          | None => None
          | Some c => option_map (cons i) (first_children tags' c)
          end
      end
  end.

Definition SECTION_TAGS : list str :=
  [lit "OPNsense"; lit "Firewall"; lit "Alias"; lit "aliases"].

(** The lookup of [find_alias_by_name] reads the aliases section that
    lines 173-188 select.  It does in every document whose first
    [OPNsense/Firewall/Alias/aliases] in document order lies under the
    first [OPNsense] child of the root. *)
Definition lookup_reads_selected_section (root : Element) : Prop :=
  find_aliases_section (ensure_sections root) =
  first_children SECTION_TAGS (ensure_sections root).


(** What the lookup of the aliases section tries on one descendant. *)
Definition section_step (c : Element) : option path :=
  match (if has_tag (lit "OPNsense") c then section_under c else None) with
  | Some p => Some p
  | None => find_aliases_section c
  end.

(** Two upserts of the same device set, one second apart, on the example
    document. *)
Definition example_first_run : Element :=
  canon (upsert_alias ALIAS_NAME (lit "11111111-2222-4333-8444-555555555555")
           (lit "2025-01-01 12:00:00") [example_device] example_root).

Definition example_second_run : Element :=
  canon (upsert_alias ALIAS_NAME (lit "66666666-7777-4888-8999-000000000000")
           (lit "2025-01-01 12:00:01") [example_device] example_first_run).

(** A remote document without any alias section. *)
Definition example_bare_root : Element :=
  Elem (lit "opnsense") [] None
       [ Elem (lit "system") [] None [leaf (lit "hostname") (Some (lit "fw"))] None;
         Elem (lit "filter") [] None [example_rule] None ]
       None.

(** ** Tactics *)

(** Facts about the character classes, as linear arithmetic on code
    points. *)
Ltac char_prop :=
  unfold is_name_char, is_int_space, is_space, is_hex,
    is_upper_hex, is_digit, is_upper, is_lower, between, eqb_char,
    TAB, LF, CR, SPACE, PLUS, COMMA, MINUS, COLON, UNDERSCORE, BAR in *;
  repeat match goal with
         | H : _ = false |- _ => apply Bool.not_true_iff_false in H
         | |- _ = false => apply Bool.not_true_iff_false; intro
         end;
  repeat (progress (rewrite ?orb_true_iff, ?andb_true_iff, ?N.leb_le,
                      ?N.ltb_lt, ?N.eqb_eq in * ));
  lia.

(** The transport functions unfolded and run. *)
Ltac run_remote :=
  unfold apply_config_xml, get_config_xml, backup_config, scp_new_config,
    ssh_command, bind, print, ret; cbn.

(** A closed text holds no line break and no tabulation. *)
Ltac prove_line_safe :=
  unfold line_safe; repeat split; intros H; simpl in H;
  repeat (destruct H as [H|H]; [discriminate H|]); exact H.

(** One digit of a numeral read by [parse_digits]; [step] is the
    equation of [parse_digits] on a digit. *)
Ltac digit_step step IH :=
  unfold uint_chars;
  cbn [DecimalString.NilEmpty.string_of_uint lit list_ascii_of_string map];
  match goal with
  | |- context [N_of_ascii ?a] =>
      let v := eval vm_compute in (N_of_ascii a) in
      change (N_of_ascii a) with v
  end;
  match goal with
  | |- context [map N_of_ascii (list_ascii_of_string ?x)] =>
      change (map N_of_ascii (list_ascii_of_string x)) with (lit x)
  end;
  rewrite step by reflexivity;
  match goal with
  | |- context [Z.of_N (?c - 48)] =>
      let v := eval vm_compute in (Z.of_N (c - 48)) in
      change (Z.of_N (c - 48)) with v
  end;
  cbn [Pos.of_uint_acc Pos.of_uint Z.of_N];
  rewrite <- IH; f_equal; lia.

(* ================================================================== *)
(** ** [MACAddressManager]: export and import *)
(* ================================================================== *)

(** [generate_opnsense_alias_content] (lines 277-283). *)
Definition generate_opnsense_alias_content (fs : FS) : str :=
  join [LF] (map mac (get_enabled_devices fs)).

(** The dictionary returned by [export_for_opnsense] (lines 285-295). *)
Record Export : Type := mkExport {
  export_alias_name : str;
  export_alias_type : str;
  export_description : str;
  export_content : str;
  export_devices : list Device
}.

Definition export_for_opnsense (fs : FS) : Export :=
  let enabled_devices := get_enabled_devices fs in
  mkExport (lit "ParentalControlMACs") (lit "mac")
           (lit "Parental Controls MAC Addresses ("
            ++ py_str_of_Z (Z.of_nat (length enabled_devices))
            ++ lit " devices)")
           (generate_opnsense_alias_content fs)
           enabled_devices.

(** An entry of the error list of [import_from_text]: the line is of no
    known format, or the exception that [add_device] raised. *)
Inductive ImportIssue : Type :=
| Unrecognized
| AddFailed (e : Error).

(** The name and MAC that [import_from_text] takes from a stripped line
    (lines 310-332).  [None]: the line has neither a tabulation nor a
    comma; [Some None]: it has one but fewer than two fields. *)
Definition import_fields (line : str) : option (option (str * str)) :=
  if existsb (fun c => eqb_char c TAB) line then
    match split TAB line with
    | name_part :: mac_part :: _ =>
        let name :=
          match split_once BAR name_part with
          | Some (_, name) => name
          | None => name_part
          end in
        Some (Some (strip name, strip mac_part))
    | _ => Some None
    end
  else if existsb (fun c => eqb_char c COMMA) line then
    match split COMMA line with
    | name :: mac :: _ => Some (Some (strip name, strip mac))
    | _ => Some None
    end
  else None.

(** The loop of [import_from_text] (lines 303-338). *)
Fixpoint import_lines (line_num : nat) (lines : list str) (fs : FS)
  (added_count : nat) (errors : list (nat * ImportIssue))
  : (nat * list (nat * ImportIssue)) * FS :=
  match lines with
  | [] => ((added_count, errors), fs)
  | line :: rest =>
      let line := strip line in
      if is_nil line then import_lines (S line_num) rest fs added_count errors
      else
        match import_fields line with
        | None =>
            import_lines (S line_num) rest fs added_count
                         (errors ++ [(line_num, Unrecognized)])
        | Some None => import_lines (S line_num) rest fs added_count errors
        | Some (Some (name, mac)) =>
            match add_device name mac fs with
            | (Ok _, fs') =>
                import_lines (S line_num) rest fs' (S added_count) errors
            | (Raise e, fs') =>
                import_lines (S line_num) rest fs' added_count
                             (errors ++ [(line_num, AddFailed e)])
            end
        end
  end.

(** [import_from_text] (lines 297-340). *)
Definition import_from_text (text_content : str) (fs : FS)
  : (nat * list (nat * ImportIssue)) * FS :=
  import_lines 1 (split LF text_content) fs 0 [].

(* ================================================================== *)
(** ** [OPNsenseManager]: the block rule *)
(* ================================================================== *)

(** The test of line 273 on a child of the filter section. *)
Definition is_rule_named (rule_name : str) (rule : Element) : bool :=
  has_tag (lit "rule") rule &&
  match find_child (lit "descr") rule with
  | Some descr =>
      match text descr with
      | Some t => negb (is_nil t) && contains rule_name t
      | None => false
      end
  | None => false
  end.

(** The description of line 306. *)
Definition rule_description (rule_name now : str) : str :=
  rule_name ++ lit " - Block devices in ParentalControlMACs alias - Auto-generated "
  ++ now.

(** The children written at lines 289-307. *)
Definition rule_children (rule_name now : str) (enabled0 : bool)
  : list Element :=
  [ leaf (lit "type") (Some (lit "block"));
    leaf (lit "interface") (Some (lit "lan"));
    leaf (lit "ipprotocol") (Some (lit "inet46"));
    leaf (lit "statetype") (Some (lit "keep state"));
    leaf (lit "direction") (Some (lit "in"));
    leaf (lit "quick") (Some (lit "1"));
    leaf (lit "disabled") (Some (if enabled0 then lit "0" else lit "1"));
    Elem (lit "source") [] None
         [leaf (lit "address") (Some (lit "ParentalControlMACs"))] None;
    Elem (lit "destination") [] None [leaf (lit "any") (Some (lit "1"))] None;
    leaf (lit "descr") (Some (rule_description rule_name now)) ].

(** Lines 264-307 as a function of the parsed document. *)
Definition upsert_rule (rule_name fresh_uuid now : str) (enabled0 : bool)
  (root : Element) : Element :=
  with_child (lit "filter") (leaf (lit "filter") None)
    (fun filter_section =>
       match index_where (is_rule_named rule_name) (children filter_section) with
       | Some i =>
           set_children
             (update_nth i (set_children (rule_children rule_name now enabled0))
                         (children filter_section))
             filter_section
       | None =>
           append_child
             (Elem (lit "rule") [(lit "uuid", fresh_uuid)] None
                   (rule_children rule_name now enabled0) None)
             filter_section
       end)
    root.

(** [create_parental_control_rule] (lines 247-321); the lines it prints
    are left out. *)
Definition create_parental_control_rule (rule_name : str) (enabled0 : bool)
  : M bool :=
  backed_up <- backup_config ;;
  if negb backed_up then ret false
  else
    config_xml <- get_config_xml ;;
    match config_xml with
    | None => ret false
    | Some x =>
        if negb (truthy x) then ret false
        else
          match fromstring x with
          | None => ret false
          | Some root =>
              fun w =>
                apply_config_xml
                  (tostring (upsert_rule rule_name (next_uuid w) (clock_text w)
                               enabled0 root)) w
          end
    end.

(* ================================================================== *)
(** ** [real_backend.py]: two handlers *)
(* ================================================================== *)

(** What a handler answers: the HTTP status and the [success] field. *)
Record Response : Type := mkResponse {
  status_code : nat;
  success : bool
}.

(** [toggle_controls] (real_backend.py, lines 70-114) for a request body
    whose [active] field is [target_state]. *)
Definition toggle_controls (target_state : bool) (fs : FS) : M Response :=
  synced <- create_or_update_mac_alias ALIAS_NAME fs ;;
  if negb synced then ret (mkResponse 500 false)
  else
    toggled <- toggle_parental_controls target_state ;;
    if toggled then
      _ <- get_parental_control_status fs ;;
      ret (mkResponse 200 true)
    else ret (mkResponse 500 false).

(** [delete_device] of real_backend.py (lines 313-345): the registry is
    changed, then the alias pass runs and its result is ignored. *)
Definition delete_device_handler (device_id : Z) (fs : FS) (w : Remote)
  : Response * FS * Remote :=
  match delete_device device_id fs with
  | (Raise SaveFailed, fs') | (Raise UpdateSaveFailed, fs') =>
      (mkResponse 500 false, fs', w)
  | (Raise _, fs') => (mkResponse 404 false, fs', w)
  | (Ok true, fs') =>
      let '(_, w') := create_or_update_mac_alias ALIAS_NAME fs' w in
      (mkResponse 200 true, fs', w')
  | (Ok false, fs') => (mkResponse 500 false, fs', w)
  end.

(* ================================================================== *)
(** ** Further definitions used to state the properties *)
(* ================================================================== *)

(** A character of a canonical MAC. *)
Definition is_mac_char (c : char) : bool :=
  is_upper_hex c || eqb_char c COLON.

(** What [load_mac_addresses] makes of the line that
    [save_mac_addresses] writes for a device, read as line [k]. *)
Definition reread (now : str) (k : nat) (d : Device) : option Device :=
  match normalize_mac (rstrip (original_mac d)) with
  | Raise _ => None
  | Ok m =>
      match validate_device_name (name d) with
      | Raise _ => None
      | Ok n =>
          Some (mkDevice (id d) n m (rstrip (original_mac d)) true now k None)
      end
  end.

Fixpoint reread_list (now : str) (k : nat) (devices : list Device)
  : list Device :=
  match devices with
  | [] => []
  | d :: rest =>
      match reread now k d with
      | Some x => x :: reread_list now (S k) rest
      | None => reread_list now (S k) rest
      end
  end.

(** A record that survives a save and a load as it is: its name is
    clean, its MAC is the normal form of its raw MAC, and both fit on a
    line. *)
Definition tidy (d : Device) : Prop :=
  validate_device_name (name d) = Ok (name d) /\
  normalize_mac (original_mac d) = Ok (mac d) /\
  line_safe (name d) /\ line_safe (original_mac d).

(** The fields of a record that the store keeps. *)
Definition kept (d : Device) : Z * str * str := (id d, name d, mac d).

(** Three records out of order, the second one disabled. *)
Definition example_devices : list Device :=
  [ example_device;
    mkDevice 2 (lit "Console") (lit "AA:BB:CC:DD:EE:02") (lit "aa-bb-cc-dd-ee-02")
             false (lit "2025-01-01T12:00:00") 2 None;
    mkDevice 1 (lit "Kids Tablet") (lit "AA:BB:CC:DD:EE:01")
             (lit "AA:BB:CC:DD:EE:01") true (lit "2025-01-01T12:00:00") 1 None ].

(* ================================================================== *)
(** * Properties *)
(* ================================================================== *)

(** ** Characters and strings *)

Lemma is_nil_true {A} (l : list A) : is_nil l = true <-> l = [].
Proof. destruct l; simpl; split; congruence. Qed.

Lemma eqb_char_eq (a b : char) : eqb_char a b = true <-> a = b.
Proof. apply N.eqb_eq. Qed.

Lemma eqb_eq (a b : str) : eqb a b = true <-> a = b.
Proof.
  revert b; induction a as [|x a IH]; destruct b as [|y b]; simpl;
    try (split; [discriminate | discriminate]); try tauto.
  rewrite andb_true_iff, eqb_char_eq, IH.
  split; [intros [-> ->]; reflexivity | intros H; inversion H; auto].
Qed.

Lemma eqb_refl (a : str) : eqb a a = true.
Proof. apply eqb_eq; reflexivity. Qed.

Lemma eqb_neq (a b : str) : eqb a b = false <-> a <> b.
Proof.
  rewrite <- eqb_eq. destruct (eqb a b); split; congruence.
Qed.

Lemma is_hex_cases (c : char) :
  is_hex c = true -> In c (lit "0123456789ABCDEFabcdef").
Proof.
  intros H.
  change (In c [48; 49; 50; 51; 52; 53; 54; 55; 56; 57; 65; 66; 67; 68; 69;
                70; 97; 98; 99; 100; 101; 102]%N).
  simpl. char_prop.
Qed.

(** A hexadecimal digit is mapped to its upper-case digit. *)
Lemma upper_char_hex (c : char) :
  is_hex c = true ->
  exists u, upper_char c = [u] /\ is_upper_hex u = true /\
            (is_upper_hex c = true -> u = c).
Proof.
  intros H. apply is_hex_cases in H.
  repeat (destruct H as [<-|H];
          [eexists; split; [vm_compute; reflexivity|];
           split; [reflexivity|intros E; try reflexivity; discriminate E]|]).
  destruct H.
Qed.

Lemma existsb_eqb_In (c : N) (l : list N) :
  existsb (N.eqb c) l = true -> In c l.
Proof.
  intros H. apply existsb_exists in H. destruct H as [x [Hx E]].
  apply N.eqb_eq in E. subst. exact Hx.
Qed.

(** Only the code points of [EXPANDING] gain a hexadecimal digit when
    they are upper-cased. *)
Lemma upper_char_hexless (c : char) :
  is_hex c = false ->
  In c EXPANDING \/ filter is_hex (upper_char c) = [].
Proof.
  intros Hc. unfold upper_char, case_map.
  destruct (find (fun e => eqb_char (fst e) c) UPPER_MULTI) as [e|] eqn:Em.
  - apply find_some in Em. destruct Em as [Hin He].
    apply eqb_char_eq in He. subst c.
    assert (A : forallb multi_ok UPPER_MULTI = true) by (vm_compute; reflexivity).
    rewrite forallb_forall in A. specialize (A e Hin).
    unfold multi_ok in A. apply orb_true_iff in A. destruct A as [A|A].
    + left. apply existsb_eqb_In, A.
    + right. apply is_nil_true in A. exact A.
  - destruct (find (in_run c) UPPER_RUNS) as [[[[first last] step] image]|]
      eqn:Er.
    + right. apply find_some in Er. destruct Er as [Hin Hr].
      assert (A : forallb run_ok UPPER_RUNS = true) by (vm_compute; reflexivity).
      rewrite forallb_forall in A. specialize (A _ Hin).
      cbn [filter].
      replace (is_hex (image + (c - first))%N) with false; [reflexivity|].
      symmetry. unfold run_ok in A. unfold in_run in Hr.
      apply andb_true_iff in Hr. destruct Hr as [Hr _].
      char_prop.
    + right. cbn [filter]. rewrite Hc. reflexivity.
Qed.

Lemma upper_hex_is_hex (c : char) : is_upper_hex c = true -> is_hex c = true.
Proof. intros H. char_prop. Qed.

Lemma upper_hex_fixed (c : char) : is_upper_hex c = true -> upper_char c = [c].
Proof.
  intros H. destruct (upper_char_hex c (upper_hex_is_hex c H)) as [u [E [_ F]]].
  rewrite E, (F H). reflexivity.
Qed.

Lemma upper_app (a b : str) : upper (a ++ b) = upper a ++ upper b.
Proof. apply flat_map_app. Qed.

(** After the upper-casing, the hexadecimal digits kept are upper-case
    digits. *)
Lemma upper_char_clean (c : char) :
  forallb is_upper_hex (filter is_hex (upper_char c)) = true.
Proof.
  destruct (is_hex c) eqn:Hc.
  - destruct (upper_char_hex c Hc) as [u [E [Hu _]]]. rewrite E.
    cbn [filter]. rewrite (upper_hex_is_hex u Hu). cbn. rewrite Hu. reflexivity.
  - destruct (upper_char_hexless c Hc) as [H| ->]; [|reflexivity].
    repeat (destruct H as [<-|H]; [vm_compute; reflexivity|]). destruct H.
Qed.

Lemma clean_mac_is_upper_hex (s : str) :
  forallb is_upper_hex (filter is_hex (upper s)) = true.
Proof.
  induction s as [|c s IH]; [reflexivity|].
  change (upper (c :: s)) with (upper_char c ++ upper s).
  rewrite filter_app, forallb_app, upper_char_clean, IH. reflexivity.
Qed.

(** On a string without the code points of [EXPANDING], upper-casing
    and the removal of what is not a hexadecimal digit commute. *)
Lemma filter_hex_upper (s : str) :
  Forall (fun c => ~ In c EXPANDING) s ->
  filter is_hex (upper s) = upper (filter is_hex s).
Proof.
  induction 1 as [|c s Hc _ IH]; [reflexivity|].
  change (upper (c :: s)) with (upper_char c ++ upper s).
  rewrite filter_app, IH. cbn [filter].
  destruct (is_hex c) eqn:E.
  - destruct (upper_char_hex c E) as [u [Eu [Hu _]]].
    change (upper (c :: filter is_hex s))
      with (upper_char c ++ upper (filter is_hex s)).
    rewrite Eu. cbn [filter]. rewrite (upper_hex_is_hex u Hu). reflexivity.
  - destruct (upper_char_hexless c E) as [H| ->]; [tauto|reflexivity].
Qed.

Lemma upper_hex_length (s : str) :
  forallb is_hex s = true -> length (upper s) = length s.
Proof.
  induction s as [|c s IH]; [reflexivity|].
  cbn [forallb]. intros H. apply andb_true_iff in H. destruct H as [Hc Hs].
  change (upper (c :: s)) with (upper_char c ++ upper s).
  destruct (upper_char_hex c Hc) as [u [Eu _]]. rewrite Eu.
  cbn [app length]. rewrite (IH Hs). reflexivity.
Qed.

Lemma forallb_filter {A} (p : A -> bool) (l : list A) :
  forallb p (filter p l) = true.
Proof.
  induction l as [|x l IH]; [reflexivity|]. simpl.
  destruct (p x) eqn:E; simpl; [rewrite E|]; exact IH.
Qed.

Lemma plain_hex_length (s : str) :
  Forall (fun c => ~ In c EXPANDING) s ->
  length (filter is_hex (upper s)) = length (filter is_hex s).
Proof.
  intros H. rewrite (filter_hex_upper s H).
  apply upper_hex_length, forallb_filter.
Qed.

(** ** [normalize_mac] *)

Lemma normalize_mac_ok (raw : str) :
  length (filter is_hex (upper raw)) = 12 ->
  normalize_mac raw = Ok (join [COLON] (pairs (filter is_hex (upper raw)))).
Proof.
  intros H. unfold normalize_mac.
  rewrite clean_mac_is_upper_hex, H. reflexivity.
Qed.

Lemma normalize_mac_fail (raw : str) :
  length (filter is_hex (upper raw)) <> 12 ->
  normalize_mac raw = Raise (InvalidMacLength raw).
Proof.
  intros H. unfold normalize_mac.
  apply Nat.eqb_neq in H. rewrite H. reflexivity.
Qed.

Lemma hex_digit_is_hex (up : bool) (n : nat) :
  n < 16 -> is_hex (hex_digit up n) = true.
Proof.
  intros H. destruct up;
    do 16 (destruct n as [|n]; [reflexivity|]); lia.
Qed.

Lemma hex_digit_upper (up : bool) (n : nat) :
  n < 16 -> upper_char (hex_digit up n) = [hex_digit true n].
Proof.
  intros H. destruct up;
    do 16 (destruct n as [|n]; [vm_compute; reflexivity|]); lia.
Qed.

Lemma octet_text_clean (up : bool) (b : byte) (rest : str) :
  filter is_hex (upper (octet_text up b ++ rest)) =
  octet_text true b ++ filter is_hex (upper rest).
Proof.
  assert (Hb : Byte.to_nat b < 256)
    by (pose proof (Byte.to_nat_bounded b); lia).
  assert (Hhi : Byte.to_nat b / 16 < 16)
    by (apply Nat.Div0.div_lt_upper_bound; lia).
  assert (Hlo : Byte.to_nat b mod 16 < 16) by (apply Nat.mod_upper_bound; lia).
  unfold octet_text.
  change (upper ([hex_digit up (Byte.to_nat b / 16);
                  hex_digit up (Byte.to_nat b mod 16)] ++ rest))
    with (upper_char (hex_digit up (Byte.to_nat b / 16)) ++
          upper_char (hex_digit up (Byte.to_nat b mod 16)) ++ upper rest).
  rewrite !hex_digit_upper by assumption.
  cbn [app filter]. rewrite !hex_digit_is_hex by assumption. reflexivity.
Qed.

(** A separator whose upper case has no hexadecimal digit disappears. *)
Lemma separator_clean (sep rest : str) :
  filter is_hex (upper sep) = [] ->
  filter is_hex (upper (sep ++ rest)) = filter is_hex (upper rest).
Proof. intros H. rewrite upper_app, filter_app, H. reflexivity. Qed.

Lemma format_mac_clean (up : bool) (sep : str) (a b c d e f : byte) :
  filter is_hex (upper sep) = [] ->
  filter is_hex (upper (format_mac up sep [a; b; c; d; e; f])) =
  octet_text true a ++ octet_text true b ++ octet_text true c ++
  octet_text true d ++ octet_text true e ++ octet_text true f.
Proof.
  intros Hsep. unfold format_mac. cbn [map join].
  repeat (rewrite octet_text_clean; rewrite ?(separator_clean sep) by exact Hsep;
          apply f_equal).
  rewrite <- (app_nil_r (octet_text up f)), octet_text_clean.
  reflexivity.
Qed.

Lemma normalize_format_mac (up : bool) (sep : str) (a b c d e f : byte) :
  filter is_hex (upper sep) = [] ->
  normalize_mac (format_mac up sep [a; b; c; d; e; f]) =
  Ok (format_mac true [COLON] [a; b; c; d; e; f]).
Proof.
  intros Hsep.
  pose proof (format_mac_clean up sep a b c d e f Hsep) as Hclean.
  rewrite normalize_mac_ok; rewrite Hclean; reflexivity.
Qed.

(** C4 (as the code has it).  The three spellings [AA-BB-CC-DD-EE-FF],
    [AABBCCDDEEFF] and [aa:bb:cc:dd:ee:ff] of a six-octet address all
    normalize to the upper-case colon-separated form of that address.
    [normalize_mac] upper-cases the raw string before it removes what is
    not a hexadecimal digit: it raises exactly when the upper-cased
    string does not hold exactly 12 hexadecimal digits; for a raw string
    without the six code points of [EXPANDING] (every ASCII string is
    one) that is exactly when the raw string itself does not hold 12
    hexadecimal digits. *)
Theorem normalize_mac_canonical :
  (forall a b c d e f : byte,
      let canonical := format_mac true [COLON] [a; b; c; d; e; f] in
      normalize_mac (format_mac true (lit "-") [a; b; c; d; e; f]) = Ok canonical /\
      normalize_mac (format_mac true [] [a; b; c; d; e; f]) = Ok canonical /\
      normalize_mac (format_mac false (lit ":") [a; b; c; d; e; f]) = Ok canonical) /\
  (forall raw : str,
      is_ok (normalize_mac raw) = false <->
      length (filter is_hex (upper raw)) <> 12) /\
  (forall raw : str,
      Forall (fun c => ~ In c EXPANDING) raw ->
      (is_ok (normalize_mac raw) = false <->
       length (filter is_hex raw) <> 12)).
Proof.
  assert (A : forall raw : str,
             is_ok (normalize_mac raw) = false <->
             length (filter is_hex (upper raw)) <> 12).
  { intros raw. split.
    - intros H Hlen. rewrite (normalize_mac_ok _ Hlen) in H. discriminate.
    - intros H. rewrite (normalize_mac_fail _ H). reflexivity. }
  split; [|split; [exact A|]].
  - intros a b c d e f canonical.
    repeat split; apply normalize_format_mac; reflexivity.
  - intros raw Hplain. rewrite A, (plain_hex_length raw Hplain). tauto.
Qed.

(** C4 fails as stated: the ligature U+FB00 is no hexadecimal digit and
    is upper-cased to [FF], so a raw string with ten hexadecimal digits
    and the ligature is accepted. *)
Lemma normalize_mac_counterexample :
  let raw := lit "AABBCCDDEE" ++ [0xFB00%N] in
  length (filter is_hex raw) = 10 /\
  normalize_mac raw = Ok (lit "AA:BB:CC:DD:EE:FF").
Proof. split; vm_compute; reflexivity. Qed.

(** ** [save_mac_addresses] *)

Lemma save_aborts_on_backup_failure (devices : list Device) (fs : FS) :
  store fs <> None ->
  read_fails fs = true \/ backup_write_fails fs = true ->
  save_mac_addresses devices fs = (false, fs).
Proof.
  intros Hex Hfail. unfold save_mac_addresses, read_text, write_backup.
  destruct (store fs) as [bytes|]; [|congruence].
  destruct (read_fails fs); [reflexivity|].
  destruct Hfail as [H|H]; [discriminate|]. rewrite H. reflexivity.
Qed.

Lemma save_true_writes (devices : list Device) (fs fs' : FS) :
  save_mac_addresses devices fs = (true, fs') ->
  store fs' = Some (render devices).
Proof.
  unfold save_mac_addresses, write_store.
  destruct (match store fs with Some _ => _ | None => _ end) as [fs1|];
    [|discriminate].
  destruct (store_write_fails fs1); [discriminate|].
  intros H; inversion H; reflexivity.
Qed.

(** What a save does when nothing fails. *)
Lemma save_succeeds (devices : list Device) (fs : FS) (bytes : str) :
  store fs = Some bytes ->
  read_fails fs = false ->
  backup_write_fails fs = false ->
  store_write_fails fs = false ->
  save_mac_addresses devices fs =
  (true, mkFS (Some (render devices))
              ((backup_name fs, universal_newlines bytes) :: backups fs)
              (now_stamp fs) (now_iso fs) (read_fails fs)
              (backup_write_fails fs) (store_write_fails fs) (torn fs)).
Proof.
  intros Hs Hr Hb Hw.
  unfold save_mac_addresses, read_text, write_backup, write_store.
  rewrite Hs, Hr, Hb. cbn. rewrite Hw. reflexivity.
Qed.

(** C2 (as the code has it).  The backup copy and the write share one
    [try]: when the store file exists and the copy fails (reading the
    store or writing the backup raises), the save writes nothing and
    returns [False]; whenever the save returns [True] the store holds the
    new list, and that happens as soon as the copy and the write do not
    fail. *)
Theorem save_backup_failure_blocks_write (devices : list Device) (fs : FS) :
  (store fs <> None ->
   read_fails fs = true \/ backup_write_fails fs = true ->
   save_mac_addresses devices fs = (false, fs)) /\
  (fst (save_mac_addresses devices fs) = true ->
   store (snd (save_mac_addresses devices fs)) = Some (render devices)) /\
  (read_fails fs = false -> backup_write_fails fs = false ->
   store_write_fails fs = false ->
   fst (save_mac_addresses devices fs) = true).
Proof.
  split; [apply save_aborts_on_backup_failure|]. split.
  - destruct (save_mac_addresses devices fs) as [[] fs'] eqn:E;
      [|discriminate].
    intros _. exact (save_true_writes _ _ _ E).
  - intros Hr Hb Hw. destruct (store fs) as [bytes|] eqn:Hs.
    + rewrite (save_succeeds devices fs bytes Hs Hr Hb Hw). reflexivity.
    + unfold save_mac_addresses, write_store. rewrite Hs, Hw. reflexivity.
Qed.

(** On a disk that refuses backups the save of one device returns [False] and
    leaves the file system as it was. *)
Lemma save_backup_failure_blocks_write_witness :
  save_mac_addresses [example_device] example_fs_no_backup =
  (false, example_fs_no_backup).
Proof.
  apply (proj1 (save_backup_failure_blocks_write [example_device]
                  example_fs_no_backup)).
  - discriminate.
  - right. reflexivity.
Defined.

(** C2 fails as stated: with a failing backup copy the store is not
    written and the save reports failure. *)
Lemma save_backup_failure_counterexample :
  backup_write_fails example_fs_no_backup = true /\
  fst (save_mac_addresses [example_device] example_fs_no_backup) = false /\
  store (snd (save_mac_addresses [example_device] example_fs_no_backup))
    = store example_fs_no_backup /\
  store example_fs_no_backup <> Some (render [example_device]).
Proof.
  repeat split; try reflexivity. vm_compute. discriminate.
Qed.

(** ** [add_device] *)

Lemma check_duplicates_finds (devices : list Device) (clean m : str) :
  (exists d, In d devices /\ (mac d = m \/ lower (name d) = lower clean)) ->
  exists e, check_duplicates devices clean m = Some e /\ is_duplicate e = true.
Proof.
  induction devices as [|x devices IH]; intros [d [Hin Hd]];
    [destruct Hin|].
  simpl. destruct (eqb (mac x) m) eqn:Em; [eexists; split; reflexivity|].
  destruct (eqb (lower (name x)) (lower clean)) eqn:En;
    [eexists; split; reflexivity|].
  apply IH. destruct Hin as [->|Hin]; [|exists d; auto].
  apply eqb_neq in Em, En. destruct Hd; contradiction.
Qed.

Lemma check_duplicates_none (devices : list Device) (clean m : str) :
  check_duplicates devices clean m = None ->
  forall d, In d devices -> mac d <> m /\ lower (name d) <> lower clean.
Proof.
  induction devices as [|x devices IH]; simpl; intros H d Hin;
    [destruct Hin|].
  destruct (eqb (mac x) m) eqn:Em; [discriminate|].
  destruct (eqb (lower (name x)) (lower clean)) eqn:En; [discriminate|].
  apply eqb_neq in Em, En.
  destruct Hin as [->|Hin]; auto.
Qed.

(** C3.  When the normalized MAC is the MAC of a device of the store, or
    the cleaned name is the name of one up to case, [add_device] raises
    and the file system is what it was: nothing is saved, no backup is
    made, and the list read back is the same.  With both arguments valid
    the exception is one of the two duplicate errors. *)
Theorem add_device_duplicate_rejected (name0 mac0 : str) (fs : FS) :
  (exists d m, In d (load_mac_addresses fs) /\
               normalize_mac mac0 = Ok m /\ mac d = m) \/
  (exists d clean, In d (load_mac_addresses fs) /\
                   validate_device_name name0 = Ok clean /\
                   lower (name d) = lower clean) ->
  exists e,
    add_device name0 mac0 fs = (Raise e, fs) /\
    (is_ok (validate_device_name name0) = true ->
     is_ok (normalize_mac mac0) = true -> is_duplicate e = true).
Proof.
  intros H. unfold add_device.
  destruct (validate_device_name name0) as [clean|e1] eqn:Hn;
    [|exists e1; split; [reflexivity|discriminate]].
  destruct (normalize_mac mac0) as [m|e2] eqn:Hm;
    [|exists e2; split; [reflexivity|discriminate]].
  destruct (check_duplicates_finds (load_mac_addresses fs) clean m)
    as [e [He Hdup]].
  - destruct H as [[d [m' [Hin [Hm' Hd]]]]|[d [c' [Hin [Hc' Hd]]]]].
    + exists d. split; [exact Hin|]. left. congruence.
    + exists d. split; [exact Hin|]. right. congruence.
  - exists e. rewrite He. split; [reflexivity|auto].
Qed.

(** Adding [kids tablet] to a store that holds [Kids Tablet]. *)
Lemma add_device_duplicate_rejected_witness :
  exists e,
    add_device (lit "kids tablet") (lit "112233445566") example_fs
    = (Raise e, example_fs) /\
    (is_ok (validate_device_name (lit "kids tablet")) = true ->
     is_ok (normalize_mac (lit "112233445566")) = true ->
     is_duplicate e = true).
Proof.
  apply (add_device_duplicate_rejected (lit "kids tablet")
           (lit "112233445566") example_fs).
  right.
  exists (mkDevice 1 (lit "Kids Tablet") (lit "AA:BB:CC:DD:EE:01")
                   (lit "AA:BB:CC:DD:EE:01") true
                   (lit "2025-01-01T12:00:00") 1 None),
         (lit "kids tablet").
  split; [vm_compute; left; reflexivity|].
  split; reflexivity.
Defined.

(** ** [update_device] *)

Lemma find_device_spec (device_id : Z) (devices : list Device) (i : nat)
  (d : Device) :
  find_device device_id devices = Some (i, d) ->
  nth_error devices i = Some d /\ id d = device_id /\ In d devices.
Proof.
  revert i; induction devices as [|x devices IH]; simpl; intros i H;
    [discriminate|].
  destruct (id x =? device_id)%Z eqn:E.
  - inversion H; subst. apply Z.eqb_eq in E. simpl; auto.
  - destruct (find_device device_id devices) as [[j y]|]; [|discriminate].
    inversion H; subst. destruct (IH j eq_refl) as [? [? ?]]. simpl; auto.
Qed.

Lemma find_device_none (device_id : Z) (devices : list Device) :
  find_device device_id devices = None <->
  forall d, In d devices -> id d <> device_id.
Proof.
  induction devices as [|x devices IH]; simpl.
  - split; [intros _ d []|reflexivity].
  - destruct (id x =? device_id)%Z eqn:E.
    + apply Z.eqb_eq in E. split; [discriminate|].
      intros H. exfalso. apply (H x); auto.
    + apply Z.eqb_neq in E.
      destruct (find_device device_id devices) as [[j y]|].
      * split; [discriminate|]. intros H.
        assert (Hn : Some (j, y) = None) by (apply IH; intros d Hd; apply H; auto).
        discriminate.
      * split; [|reflexivity]. intros _ d [->|Hd]; [exact E|].
        apply (proj1 IH eq_refl d Hd).
Qed.

Lemma NoDup_map_injective {A B} (f : A -> B) (l : list A) (x y : A) :
  NoDup (map f l) -> In x l -> In y l -> f x = f y -> x = y.
Proof.
  induction l as [|a l IH]; simpl; intros Hnd Hx Hy Hf; [destruct Hx|].
  inversion Hnd as [|? ? Hnot Hnd']; subst.
  destruct Hx as [->|Hx], Hy as [->|Hy]; auto.
  - exfalso. apply Hnot. rewrite Hf. apply in_map, Hy.
  - exfalso. apply Hnot. rewrite <- Hf. apply in_map, Hx.
Qed.

Lemma mac_conflict_true (device_id : Z) (m : str) (devices : list Device) :
  mac_conflict device_id m devices = true <->
  exists d, In d devices /\ id d <> device_id /\ mac d = m.
Proof.
  unfold mac_conflict. rewrite existsb_exists.
  split; intros [d [Hin H]]; exists d; (split; [exact Hin|]).
  - apply andb_true_iff in H. destruct H as [H1 H2].
    apply negb_true_iff, Z.eqb_neq in H1. apply eqb_eq in H2. auto.
  - destruct H as [H1 H2]. apply andb_true_iff. split.
    + apply negb_true_iff, Z.eqb_neq, H1.
    + apply eqb_eq, H2.
Qed.

Lemma load_nonempty_readable (fs : FS) :
  load_mac_addresses fs <> [] ->
  exists bytes, store fs = Some bytes /\ read_fails fs = false.
Proof.
  unfold load_mac_addresses, read_text.
  destruct (store fs) as [bytes|]; [|congruence].
  destruct (read_fails fs); [congruence|].
  intros _. exists bytes. auto.
Qed.

(** C9.  For a device id of the registry (whose devices have pairwise
    different MACs): [update_device] with a MAC that normalizes to the
    device's own MAC returns the updated device, when the backup and the
    write do not fail; with a MAC that normalizes to the MAC of a device
    with another id it raises the duplicate-MAC error and changes
    nothing. *)
Theorem update_device_mac_conflicts (device_id : Z) (new_mac : str)
  (enabled0 : option bool) (fs : FS) (i : nat) (d : Device) :
  find_device device_id (load_mac_addresses fs) = Some (i, d) ->
  (normalize_mac new_mac = Ok (mac d) ->
   NoDup (map mac (load_mac_addresses fs)) ->
   backup_write_fails fs = false ->
   store_write_fails fs = false ->
   exists dev fs',
     update_device device_id None (Some new_mac) enabled0 fs = (Ok dev, fs') /\
     id dev = device_id /\ mac dev = mac d /\ original_mac dev = new_mac /\
     name dev = name d) /\
  (forall m other,
     normalize_mac new_mac = Ok m ->
     In other (load_mac_addresses fs) ->
     id other <> device_id -> mac other = m ->
     update_device device_id None (Some new_mac) enabled0 fs
     = (Raise (MacExists m []), fs)).
Proof.
  intros Hfind. destruct (find_device_spec _ _ _ _ Hfind) as [Hnth [Hid Hin]].
  split.
  - intros Hnorm Hnd Hb Hw.
    destruct (load_nonempty_readable fs) as [bytes [Hs Hr]].
    { intros E. rewrite E in Hin. destruct Hin. }
    unfold update_device. rewrite Hfind, Hnorm.
    destruct (mac_conflict device_id (mac d) (load_mac_addresses fs)) eqn:Hc.
    + exfalso. apply mac_conflict_true in Hc.
      destruct Hc as [d' [Hin' [Hne Heq]]].
      apply Hne. rewrite <- Hid. f_equal.
      exact (NoDup_map_injective mac _ d' d Hnd Hin' Hin Heq).
    + rewrite (save_succeeds _ fs bytes Hs Hr Hb Hw).
      eexists; eexists. split; [reflexivity|].
      destruct enabled0; simpl; auto.
  - intros m other Hnorm Hin' Hne Heq.
    unfold update_device. rewrite Hfind, Hnorm.
    replace (mac_conflict device_id m (load_mac_addresses fs)) with true;
      [reflexivity|].
    symmetry. apply mac_conflict_true. exists other. auto.
Qed.

(** Device 2 of the example store takes its own MAC in another spelling, and
    is refused the MAC of device 1. *)
Lemma update_device_mac_conflicts_witness :
  (exists dev fs',
     update_device 2 None (Some (lit "AABB.CCDD.EE02")) None example_fs
     = (Ok dev, fs') /\
     id dev = 2%Z /\ mac dev = lit "AA:BB:CC:DD:EE:02" /\
     original_mac dev = lit "AABB.CCDD.EE02" /\ name dev = lit "Console") /\
  update_device 2 None (Some (lit "aabbccddee01")) None example_fs
  = (Raise (MacExists (lit "AA:BB:CC:DD:EE:01") []), example_fs).
Proof.
  pose (d1 := mkDevice 1 (lit "Kids Tablet") (lit "AA:BB:CC:DD:EE:01")
                (lit "AA:BB:CC:DD:EE:01") true (lit "2025-01-01T12:00:00")
                1 None).
  pose (d2 := mkDevice 2 (lit "Console") (lit "AA:BB:CC:DD:EE:02")
                (lit "aa-bb-cc-dd-ee-02") true (lit "2025-01-01T12:00:00")
                2 None).
  assert (Hload : load_mac_addresses example_fs = [d1; d2])
    by (vm_compute; reflexivity).
  assert (Hfind : find_device 2 (load_mac_addresses example_fs) = Some (1, d2))
    by (vm_compute; reflexivity).
  split.
  - apply (proj1 (update_device_mac_conflicts 2 (lit "AABB.CCDD.EE02") None
                    example_fs 1 d2 Hfind)).
    + vm_compute. reflexivity.
    + rewrite Hload. simpl.
      repeat constructor; simpl; intuition discriminate.
    + reflexivity.
    + reflexivity.
  - apply (proj2 (update_device_mac_conflicts 2 (lit "aabbccddee01") None
                    example_fs 1 d2 Hfind) (lit "AA:BB:CC:DD:EE:01") d1).
    + vm_compute. reflexivity.
    + rewrite Hload. left. reflexivity.
    + discriminate.
    + reflexivity.
Defined.

(** ** [create_or_update_mac_alias] without devices *)

(** C6.  With no enabled device in the registry the alias pass prints
    that no enabled device was found and returns [False]; no call reaches
    the transport, and the remote document, the uploaded file and the
    remote backups are untouched. *)
Theorem sync_without_devices_is_local (alias_name : str) (fs : FS) (w : Remote) :
  get_enabled_devices fs = [] ->
  let r := create_or_update_mac_alias alias_name fs w in
  fst r = false /\
  console (snd r) = console w ++ [MsgCreatingAlias alias_name; MsgNoEnabledDevices] /\
  trace (snd r) = trace w /\
  conf (snd r) = conf w /\
  tmp_new (snd r) = tmp_new w /\
  conf_backups (snd r) = conf_backups w.
Proof.
  intros H r. subst r. unfold create_or_update_mac_alias. rewrite H.
  cbn. rewrite <- app_assoc. repeat split; reflexivity.
Qed.

(** The alias pass on an empty store. *)
Lemma sync_without_devices_is_local_witness :
  fst (create_or_update_mac_alias ALIAS_NAME example_empty_fs example_remote)
  = false /\
  trace (snd (create_or_update_mac_alias ALIAS_NAME example_empty_fs
                example_remote)) = [].
Proof.
  destruct (sync_without_devices_is_local ALIAS_NAME example_empty_fs
              example_remote eq_refl) as [H1 [_ [H3 _]]].
  split; [exact H1 | exact H3].
Defined.

(** ** [apply_config_xml] *)

(** C1.  Once the document is pushed ([scp] and [mv] succeeded),
    [apply_config_xml] sends, in this order, the restart of the config
    daemon, the filter reload and the firewall-reconfigure script,
    whatever the first two return, and the alternate script when the
    firewall-reconfigure script failed; it returns [False] exactly when
    both scripts fail. *)
Theorem apply_fallback_chain (x : XmlText) (w : Remote) :
  let t := trace w in
  succeeds w t (Scp x) = true ->
  succeeds w (t ++ [Scp x]) (Ssh MvNewConfig) = true ->
  let tc := t ++ [Scp x; Ssh MvNewConfig; Ssh RestartConfigd; Ssh FilterReload] in
  let c_ok := succeeds w tc (Ssh ConfigureFirewall) in
  let d_ok := succeeds w (tc ++ [Ssh ConfigureFirewall]) (Ssh FilterConfigure) in
  let r := apply_config_xml x w in
  trace (snd r) =
    tc ++ Ssh ConfigureFirewall :: (if c_ok then [] else [Ssh FilterConfigure]) /\
  (fst r = false <-> c_ok = false /\ d_ok = false) /\
  conf (snd r) = x.
Proof.
  intros t Hscp Hmv tc c_ok d_ok r. subst t tc c_ok d_ok r.
  unfold apply_config_xml, bind, scp_new_config, ssh_command, print, ret.
  cbn. rewrite Hscp. cbn. rewrite Hmv. cbn.
  repeat rewrite <- app_assoc. cbn [app].
  destruct (succeeds w (trace w ++ [Scp x; Ssh MvNewConfig])
              (Ssh RestartConfigd)); cbn;
    repeat rewrite <- app_assoc; cbn [app];
    destruct (succeeds w
                (trace w ++ [Scp x; Ssh MvNewConfig; Ssh RestartConfigd])
                (Ssh FilterReload)); cbn;
    repeat rewrite <- app_assoc; cbn [app];
    destruct (succeeds w
                (trace w ++ [Scp x; Ssh MvNewConfig; Ssh RestartConfigd;
                             Ssh FilterReload])
                (Ssh ConfigureFirewall)); cbn;
    repeat rewrite <- app_assoc; cbn [app];
    try (repeat split; try reflexivity; intros; intuition discriminate);
    destruct (succeeds w
                (trace w ++ [Scp x; Ssh MvNewConfig; Ssh RestartConfigd;
                             Ssh FilterReload; Ssh ConfigureFirewall])
                (Ssh FilterConfigure)); cbn;
    repeat rewrite <- app_assoc; cbn [app];
    repeat split; try reflexivity; intros; intuition discriminate.
Qed.

(** Both firewall-reconfigure scripts fail: six transport calls, [False]. *)
Lemma apply_fallback_chain_witness :
  fst (apply_config_xml (Doc example_root) example_remote_no_reload) = false /\
  trace (snd (apply_config_xml (Doc example_root) example_remote_no_reload)) =
  [Scp (Doc example_root); Ssh MvNewConfig; Ssh RestartConfigd;
   Ssh FilterReload; Ssh ConfigureFirewall; Ssh FilterConfigure].
Proof.
  destruct (apply_fallback_chain (Doc example_root) example_remote_no_reload
              eq_refl eq_refl) as [Ht [Hr _]].
  split; [apply Hr; split; reflexivity | exact Ht].
Defined.

(** ** Lists and element trees *)

Lemma find_index_where {A} (p : A -> bool) (l : list A) :
  List.find p l =
  match index_where p l with
  | Some i => nth_error l i
  | None => None
  end.
Proof.
  induction l as [|x l IH]; simpl; [reflexivity|].
  destruct (p x); [reflexivity|].
  rewrite IH. destruct (index_where p l); reflexivity.
Qed.

Lemma index_where_nth {A} (p : A -> bool) (l : list A) (i : nat) :
  index_where p l = Some i ->
  exists x, nth_error l i = Some x /\ p x = true.
Proof.
  revert i; induction l as [|x l IH]; simpl; intros i H; [discriminate|].
  destruct (p x) eqn:E.
  - inversion H; subst. exists x. auto.
  - destruct (index_where p l) as [j|]; [|discriminate].
    inversion H; subst. exact (IH j eq_refl).
Qed.

Lemma find_map_invariant {A} (p : A -> bool) (f : A -> A) (l : list A) :
  (forall x, p (f x) = p x) ->
  List.find p (map f l) = option_map f (List.find p l).
Proof.
  intros H. induction l as [|x l IH]; simpl; [reflexivity|].
  rewrite H. destruct (p x); [reflexivity|exact IH].
Qed.

(** Rewriting the first element that satisfies [p] into one that still
    does leaves it the first. *)
Lemma index_where_update {A} (p : A -> bool) (g : A -> A) (l : list A)
  (i : nat) (x : A) :
  index_where p l = Some i -> nth_error l i = Some x -> p (g x) = true ->
  index_where p (update_nth i g l) = Some i.
Proof.
  revert i; induction l as [|y l IH]; simpl; intros i Hi Hn Hg;
    [discriminate|].
  destruct (p y) eqn:E.
  - inversion Hi; subst. simpl in Hn. inversion Hn; subst.
    simpl. rewrite Hg. reflexivity.
  - destruct (index_where p l) as [j|] eqn:Ej; [|discriminate].
    inversion Hi; subst. simpl in Hn. simpl. rewrite E.
    rewrite (IH j eq_refl Hn Hg). reflexivity.
Qed.

Lemma nth_error_update_nth {A} (g : A -> A) (l : list A) (i : nat) :
  nth_error (update_nth i g l) i = option_map g (nth_error l i).
Proof.
  revert i; induction l as [|y l IH]; intros [|i]; simpl; auto.
Qed.

Lemma nth_error_update_nth_other {A} (g : A -> A) (l : list A) (i j : nat) :
  i <> j -> nth_error (update_nth i g l) j = nth_error l j.
Proof.
  revert i j; induction l as [|y l IH]; intros [|i] [|j] H; simpl; auto;
    congruence.
Qed.

Lemma find_update {A} (p : A -> bool) (g : A -> A) (l : list A)
  (i : nat) (x : A) :
  index_where p l = Some i -> nth_error l i = Some x -> p (g x) = true ->
  List.find p (update_nth i g l) = Some (g x).
Proof.
  intros Hi Hn Hg. rewrite find_index_where.
  rewrite (index_where_update p g l i x Hi Hn Hg).
  rewrite nth_error_update_nth, Hn. reflexivity.
Qed.

(** Rewriting an element that [p] rejects before and after changes
    nothing for [p]. *)
Lemma index_where_update_neutral {A} (p : A -> bool) (g : A -> A)
  (l : list A) (i : nat) :
  (forall x, nth_error l i = Some x -> p (g x) = p x) ->
  index_where p (update_nth i g l) = index_where p l.
Proof.
  revert i; induction l as [|y l IH]; intros [|i] H; simpl; auto.
  - rewrite (H y eq_refl). reflexivity.
  - rewrite (IH i); [reflexivity|]. intros x Hx. apply H. exact Hx.
Qed.

Lemma index_where_app_none {A} (p : A -> bool) (l : list A) (c : A) :
  index_where p l = None ->
  index_where p (l ++ [c]) = if p c then Some (length l) else None.
Proof.
  induction l as [|y l IH]; simpl; intros H.
  - destruct (p c); reflexivity.
  - destruct (p y); [discriminate|].
    destruct (index_where p l); [discriminate|].
    rewrite (IH eq_refl). destruct (p c); reflexivity.
Qed.

Lemma index_where_app_some {A} (p : A -> bool) (l l' : list A) (i : nat) :
  index_where p l = Some i -> index_where p (l ++ l') = Some i.
Proof.
  revert i; induction l as [|y l IH]; simpl; intros i H; [discriminate|].
  destruct (p y); [exact H|].
  destruct (index_where p l) as [j|]; [|discriminate].
  rewrite (IH j eq_refl). exact H.
Qed.

Lemma nth_error_app_last {A} (l : list A) (c : A) :
  nth_error (l ++ [c]) (length l) = Some c.
Proof. induction l; simpl; auto. Qed.

Lemma children_set_children (cs : list Element) (e : Element) :
  children (set_children cs e) = cs.
Proof. destruct e; reflexivity. Qed.

Lemma tag_set_children (cs : list Element) (e : Element) :
  tag (set_children cs e) = tag e.
Proof. destruct e; reflexivity. Qed.

Lemma children_canon (e : Element) :
  children (canon e) = map canon (children e).
Proof. destruct e; reflexivity. Qed.

Lemma tag_canon (e : Element) : tag (canon e) = tag e.
Proof. destruct e; reflexivity. Qed.

Lemma text_canon (e : Element) : text (canon e) = canon_text (text e).
Proof. destruct e; reflexivity. Qed.

Lemma has_tag_canon (t : str) (e : Element) :
  has_tag t (canon e) = has_tag t e.
Proof. unfold has_tag. rewrite tag_canon. reflexivity. Qed.

Lemma find_child_canon (t : str) (e : Element) :
  find_child t (canon e) = option_map canon (find_child t e).
Proof.
  unfold find_child. rewrite children_canon.
  apply find_map_invariant. intros x. apply has_tag_canon.
Qed.

(** The child that [with_child] works on is the first with its tag
    afterwards. *)
Lemma find_child_with_child (t : str) (fresh : Element)
  (k : Element -> Element) (parent : Element) :
  has_tag t fresh = true ->
  (forall x, has_tag t (k x) = has_tag t x) ->
  find_child t (with_child t fresh k parent) =
  Some (k match find_child t parent with Some c => c | None => fresh end).
Proof.
  intros Hf Hk. unfold find_child, with_child.
  rewrite (find_index_where _ (children parent)).
  destruct (index_where (has_tag t) (children parent)) as [i|] eqn:Ei.
  - destruct (index_where_nth _ _ _ Ei) as [x [Hx Hp]].
    rewrite children_set_children, Hx.
    apply (find_update _ _ _ i x Ei Hx). rewrite Hk. exact Hp.
  - unfold append_child. rewrite children_set_children, find_index_where.
    rewrite (index_where_app_none _ _ _ Ei), Hk, Hf.
    apply nth_error_app_last.
Qed.

(** Children with another tag are found as before. *)
Lemma find_child_with_child_other (t u : str) (fresh : Element)
  (k : Element -> Element) (parent : Element) :
  has_tag u fresh = false ->
  (forall x, has_tag t x = true -> has_tag u x = false) ->
  (forall x, tag (k x) = tag x) ->
  find_child u (with_child t fresh k parent) = find_child u parent.
Proof.
  intros Hf Htu Hk. unfold find_child, with_child.
  rewrite !find_index_where.
  destruct (index_where (has_tag t) (children parent)) as [i|] eqn:Ei.
  - destruct (index_where_nth _ _ _ Ei) as [x [Hx Hp]].
    rewrite children_set_children.
    assert (Hn : forall y, nth_error (children parent) i = Some y ->
                           has_tag u (k y) = has_tag u y).
    { intros y Hy. unfold has_tag. rewrite Hk. reflexivity. }
    rewrite (index_where_update_neutral _ _ _ _ Hn).
    destruct (index_where (has_tag u) (children parent)) as [j|] eqn:Ej;
      [|reflexivity].
    destruct (Nat.eq_dec i j) as [->|Hij].
    + destruct (index_where_nth _ _ _ Ej) as [y [Hy Hq]].
      rewrite Hx in Hy. inversion Hy; subst.
      rewrite (Htu y Hp) in Hq. discriminate.
    + apply nth_error_update_nth_other. exact Hij.
  - unfold append_child. rewrite children_set_children.
    destruct (index_where (has_tag u) (children parent)) as [j|] eqn:Ej.
    + rewrite (index_where_app_some _ _ [k fresh] _ Ej).
      destruct (index_where_nth _ _ _ Ej) as [y [Hy _]].
      rewrite nth_error_app1; [reflexivity|].
      apply nth_error_Some. congruence.
    + rewrite (index_where_app_none _ _ _ Ej).
      unfold has_tag at 1. rewrite Hk. fold (has_tag u fresh).
      rewrite Hf. reflexivity.
Qed.

(** ** The block rule: [toggle_parental_controls] and the status *)

Lemma tag_set_text (x : option str) (e : Element) : tag (set_text x e) = tag e.
Proof. destruct e; reflexivity. Qed.

Lemma tag_with_child (t : str) (fresh : Element) (k : Element -> Element)
  (parent : Element) : tag (with_child t fresh k parent) = tag parent.
Proof.
  unfold with_child, append_child.
  destruct (index_where _ _); apply tag_set_children.
Qed.

Lemma is_block_rule_canon (rule : Element) :
  is_block_rule (canon rule) = is_block_rule rule.
Proof.
  unfold is_block_rule. rewrite has_tag_canon, find_child_canon.
  destruct (find_child (lit "descr") rule) as [d|]; [|reflexivity].
  simpl. rewrite text_canon.
  destruct (text d) as [[|c t]|]; reflexivity.
Qed.

Lemma has_tag_neq (t u : str) (x : Element) :
  t <> u -> has_tag t x = true -> has_tag u x = false.
Proof.
  unfold has_tag. intros Hne H. apply eqb_eq in H. apply eqb_neq. congruence.
Qed.

Lemma is_block_rule_set_disabled (v : str) (rule : Element) :
  is_block_rule (set_disabled v rule) = is_block_rule rule.
Proof.
  unfold is_block_rule, set_disabled. unfold has_tag at 1.
  rewrite tag_with_child. fold (has_tag (lit "rule") rule).
  rewrite find_child_with_child_other; [reflexivity|reflexivity| |].
  - intros x. apply has_tag_neq. discriminate.
  - intros x. apply tag_set_text.
Qed.

Lemma disabled_after_set_disabled (v : str) (rule : Element) :
  exists d, find_child (lit "disabled") (set_disabled v rule) = Some d /\
            text d = Some v.
Proof.
  unfold set_disabled. rewrite find_child_with_child; [|reflexivity|].
  - eexists. split; [reflexivity|].
    destruct (find_child (lit "disabled") rule) as [[]|]; reflexivity.
  - intros x. unfold has_tag. rewrite tag_set_text. reflexivity.
Qed.

(** After the rewriting of the flag, and the trip through the text of
    the document, the status reads the rule as it was set. *)
Lemma rule_status_after_toggle (enable : bool) (root root' : Element) :
  toggle_rule enable root = RuleUpdated root' ->
  rule_status (canon root') = (true, enable).
Proof.
  unfold toggle_rule.
  destruct (index_where (has_tag (lit "filter")) (children root))
    as [fi|] eqn:Efi; [|discriminate].
  destruct (nth_error (children root) fi) as [fsec|] eqn:Efs; [|discriminate].
  destruct (index_where is_block_rule (children fsec)) as [ri|] eqn:Eri;
    [|discriminate].
  intros H. inversion H; subst root'; clear H.
  destruct (index_where_nth _ _ _ Efi) as [fsec' [Hf1 Hf2]].
  rewrite Efs in Hf1. inversion Hf1; subst fsec'; clear Hf1.
  destruct (index_where_nth _ _ _ Eri) as [rule [Hr1 Hr2]].
  set (g := set_disabled (if enable then lit "0" else lit "1")).
  unfold rule_status. rewrite find_child_canon.
  unfold find_child at 1. cbn [modify_at].
  rewrite children_set_children.
  rewrite (find_update _ _ _ fi fsec Efi Efs)
    by (unfold has_tag; rewrite tag_set_children; exact Hf2).
  cbn [option_map]. rewrite children_canon, children_set_children.
  rewrite (find_map_invariant _ _ _ is_block_rule_canon).
  rewrite (find_update _ _ _ ri rule Eri Hr1)
    by (unfold g; rewrite is_block_rule_set_disabled; exact Hr2).
  cbn [option_map]. rewrite find_child_canon. unfold g.
  match goal with
  | |- context [find_child _ (set_disabled ?v rule)] =>
      destruct (disabled_after_set_disabled v rule) as [d [Hd Ht]]
  end.
  rewrite Hd. cbn [option_map]. rewrite text_canon, Ht.
  destruct enable; reflexivity.
Qed.

Lemma rule_exists_toggles (enable : bool) (root : Element) :
  fst (rule_status root) = true ->
  exists root', toggle_rule enable root = RuleUpdated root'.
Proof.
  unfold rule_status, toggle_rule, find_child.
  rewrite (find_index_where _ (children root)).
  destruct (index_where (has_tag (lit "filter")) (children root)) as [fi|];
    [|discriminate].
  destruct (nth_error (children root) fi) as [fsec|]; [|discriminate].
  rewrite find_index_where.
  destruct (index_where is_block_rule (children fsec)) as [ri|];
    [|discriminate].
  intros _. eexists. reflexivity.
Qed.

Lemma fromstring_strip_text (c : XmlText) (root : Element) :
  fromstring (strip_text c) = Some root -> c = Doc root.
Proof. destruct c; simpl; intros H; inversion H; reflexivity. Qed.

(** A successful apply leaves the pushed document as the remote
    configuration. *)
Lemma apply_true_conf (x : XmlText) (w w' : Remote) :
  apply_config_xml x w = (true, w') ->
  conf w' = x /\ succeeds w' = succeeds w.
Proof.
  run_remote.
  destruct (succeeds w (trace w) (Scp x)); cbn; [|discriminate].
  destruct (succeeds w (trace w ++ [Scp x]) (Ssh MvNewConfig)); cbn;
    [|discriminate].
  repeat match goal with
         | |- context [if succeeds w ?t ?ev then _ else _] =>
             destruct (succeeds w t ev); cbn
         end;
    intros H; inversion H; subst; cbn; auto.
Qed.

Lemma apply_reliable (x : XmlText) (w : Remote) :
  reliable w -> fst (apply_config_xml x w) = true.
Proof.
  intros H. run_remote. repeat (rewrite H; cbn). reflexivity.
Qed.

Lemma toggle_true_conf (enable : bool) (w w1 : Remote) :
  toggle_parental_controls enable w = (true, w1) ->
  exists root root',
    conf w = Doc root /\ toggle_rule enable root = RuleUpdated root' /\
    conf w1 = Doc (canon root') /\ succeeds w1 = succeeds w.
Proof.
  unfold toggle_parental_controls. unfold bind at 1 2. unfold print at 1.
  unfold get_config_xml, bind at 1, ssh_command. cbn.
  destruct (succeeds w (trace w) (Ssh CatConfig)); cbn; [|discriminate].
  destruct (truthy (strip_text (conf w))); cbn; [|discriminate].
  destruct (fromstring (strip_text (conf w))) as [root|] eqn:Ep; cbn;
    [|discriminate].
  apply fromstring_strip_text in Ep.
  destruct (toggle_rule enable root) as [| |root'] eqn:Et; cbn;
    try discriminate.
  unfold bind at 1.
  destruct (apply_config_xml (tostring root') _) as [[] w'] eqn:Ea; cbn;
    [|discriminate].
  intros H. inversion H; subst w1; clear H.
  destruct (apply_true_conf _ _ _ Ea) as [Hc Hs].
  exists root, root'. cbn. auto.
Qed.

Lemma status_ok_reads (fs : FS) (w w' : Remote) (st : Status) :
  get_parental_control_status fs w = (StatusOk st, w') ->
  exists root,
    conf w = Doc root /\
    rule_exists st = fst (rule_status root) /\
    rule_enabled st = snd (rule_status root).
Proof.
  unfold get_parental_control_status, get_config_xml, bind at 1 2,
    ssh_command. cbn.
  destruct (succeeds w (trace w) (Ssh CatConfig)); cbn; [|discriminate].
  destruct (truthy (strip_text (conf w))); cbn; [|discriminate].
  destruct (fromstring (strip_text (conf w))) as [root|] eqn:Ep; cbn;
    [|discriminate].
  apply fromstring_strip_text in Ep.
  destruct (rule_status root) as [ex en] eqn:Er. cbn.
  intros H. inversion H; subst. exists root. rewrite Er. auto.
Qed.

Lemma status_reliable (fs : FS) (w : Remote) (root : Element) :
  reliable w -> conf w = Doc root ->
  exists st, fst (get_parental_control_status fs w) = StatusOk st.
Proof.
  intros Hrel Hc.
  unfold get_parental_control_status, get_config_xml, bind at 1 2,
    ssh_command. cbn.
  rewrite Hrel, Hc. cbn. destruct (rule_status root). cbn.
  eexists. reflexivity.
Qed.

Lemma toggle_reliable (enable : bool) (w : Remote) (root : Element) :
  reliable w -> conf w = Doc root -> fst (rule_status root) = true ->
  fst (toggle_parental_controls enable w) = true.
Proof.
  intros Hrel Hc Hex.
  destruct (rule_exists_toggles enable root Hex) as [root' Ht].
  unfold toggle_parental_controls. unfold bind at 1 2. unfold print at 1.
  unfold get_config_xml, bind at 1, ssh_command. cbn.
  rewrite Hrel, Hc. cbn. rewrite Ht. unfold bind at 1.
  match goal with
  | |- context [apply_config_xml ?x ?v] =>
      pose proof (apply_reliable x v Hrel) as Ha;
      destruct (apply_config_xml x v) as [[] w']
  end; [reflexivity|discriminate].
Qed.

(** C8.  When the toggle returns [True], a status read next (one that
    returns a status) reports the rule as existing and [rule_enabled]
    equal to the value asked for.  When the block rule exists in the
    remote document and no transport call fails, the toggle does return
    [True] and the status read does return a status. *)
Theorem toggle_then_status (enable : bool) (fs : FS) (w : Remote) :
  (forall w1 st w2,
      toggle_parental_controls enable w = (true, w1) ->
      get_parental_control_status fs w1 = (StatusOk st, w2) ->
      rule_exists st = true /\ rule_enabled st = enable) /\
  (forall root,
      conf w = Doc root -> fst (rule_status root) = true -> reliable w ->
      exists w1 st w2,
        toggle_parental_controls enable w = (true, w1) /\
        get_parental_control_status fs w1 = (StatusOk st, w2) /\
        rule_enabled st = enable).
Proof.
  assert (A : forall w1 st w2,
             toggle_parental_controls enable w = (true, w1) ->
             get_parental_control_status fs w1 = (StatusOk st, w2) ->
             rule_exists st = true /\ rule_enabled st = enable).
  { intros w1 st w2 Ht Hs.
    destruct (toggle_true_conf _ _ _ Ht) as [root [root' [_ [Hr [Hc _]]]]].
    destruct (status_ok_reads _ _ _ _ Hs) as [r [Hc' [He Hn]]].
    rewrite Hc in Hc'. inversion Hc'; subst r.
    rewrite (rule_status_after_toggle _ _ _ Hr) in He, Hn. auto. }
  split; [exact A|].
  intros root Hc Hex Hrel.
  pose proof (toggle_reliable enable w root Hrel Hc Hex) as Ht.
  destruct (toggle_parental_controls enable w) as [b w1] eqn:Et.
  cbn in Ht. subst b.
  destruct (toggle_true_conf _ _ _ Et) as [r0 [root' [_ [_ [Hc1 Hs1]]]]].
  assert (Hrel1 : reliable w1) by (intros t ev; rewrite Hs1; apply Hrel).
  destruct (status_reliable fs w1 _ Hrel1 Hc1) as [st Hst].
  destruct (get_parental_control_status fs w1) as [res w2] eqn:Es.
  cbn in Hst. subst res.
  exists w1, st, w2. split; [reflexivity|]. split; [exact Es|].
  exact (proj2 (A w1 st w2 eq_refl Es)).
Qed.

(** Enabling the rule of the example document on a reliable transport. *)
Lemma toggle_then_status_witness :
  exists w1 st w2,
    toggle_parental_controls true example_remote = (true, w1) /\
    get_parental_control_status example_fs w1 = (StatusOk st, w2) /\
    rule_enabled st = true.
Proof.
  apply (proj2 (toggle_then_status true example_fs example_remote)
           example_root).
  - reflexivity.
  - vm_compute. reflexivity.
  - intros t ev. reflexivity.
Defined.

(** ** Splitting, joining and stripping *)

Lemma eqb_char_refl (c : char) : eqb_char c c = true.
Proof. apply eqb_char_eq. reflexivity. Qed.

Lemma eqb_char_neq (a b : char) : eqb_char a b = false <-> a <> b.
Proof. apply N.eqb_neq. Qed.

Lemma split_nonempty (sep : char) (s : str) : split sep s <> [].
Proof.
  destruct s as [|c s]; simpl; [discriminate|].
  destruct (eqb_char c sep); [discriminate|].
  destruct (split sep s); discriminate.
Qed.

Lemma split_no_sep (sep : char) (s : str) :
  ~ In sep s -> split sep s = [s].
Proof.
  induction s as [|c s IH]; simpl; intros H; [reflexivity|].
  destruct (eqb_char c sep) eqn:E.
  - apply eqb_char_eq in E. exfalso. apply H. auto.
  - rewrite IH by tauto. reflexivity.
Qed.

Lemma split_app_sep (sep : char) (a b : str) :
  ~ In sep a -> split sep (a ++ sep :: b) = a :: split sep b.
Proof.
  induction a as [|c a IH]; simpl; intros H.
  - rewrite eqb_char_refl. reflexivity.
  - destruct (eqb_char c sep) eqn:E.
    + apply eqb_char_eq in E. exfalso. apply H. auto.
    + rewrite IH by tauto. reflexivity.
Qed.

Lemma split_parts (sep : char) (s p : str) :
  In p (split sep s) -> ~ In sep p /\ incl p s.
Proof.
  revert p; induction s as [|c s IH]; simpl; intros p H.
  - destruct H as [<-|[]]. split; [tauto|apply incl_refl].
  - destruct (eqb_char c sep) eqn:E.
    + destruct H as [<-|H].
      * split; [tauto|]. intros x [].
      * destruct (IH p H) as [H1 H2]. split; [exact H1|].
        apply incl_tl, H2.
    + destruct (split sep s) as [|w ws] eqn:Es.
      * exfalso. exact (split_nonempty sep s Es).
      * apply eqb_char_neq in E. destruct H as [<-|H].
        -- destruct (IH w (or_introl eq_refl)) as [H1 H2]. split.
           ++ intros [Hc|Hc]; [congruence|tauto].
           ++ intros x [<-|Hx]; [left; reflexivity|right; apply H2, Hx].
        -- destruct (IH p (or_intror H)) as [H1 H2]. split; [exact H1|].
           apply incl_tl, H2.
Qed.

Lemma split_app (sep : char) (a b : str) :
  split sep (a ++ b) = glue (split sep a) (split sep b).
Proof.
  induction a as [|c a IH]; simpl.
  - destruct (split sep b) eqn:E; [|reflexivity].
    exfalso. exact (split_nonempty sep b E).
  - destruct (eqb_char c sep).
    + rewrite IH. destruct (split sep a) eqn:E; [|reflexivity].
      exfalso. exact (split_nonempty sep a E).
    + rewrite IH. destruct (split sep a) as [|w ws] eqn:E.
      * exfalso. exact (split_nonempty sep a E).
      * destruct ws as [|w' ws]; simpl.
        -- destruct (split sep b) as [|y ys] eqn:Eb; [|reflexivity].
           exfalso. exact (split_nonempty sep b Eb).
        -- reflexivity.
Qed.

Lemma split_join (sep : char) (ls : list str) :
  ls <> [] -> (forall l, In l ls -> ~ In sep l) ->
  split sep (join [sep] ls) = ls.
Proof.
  induction ls as [|l ls IH]; intros Hne H; [congruence|].
  destruct ls as [|l' ls].
  - simpl. apply split_no_sep. apply H. left. reflexivity.
  - change (join [sep] (l :: l' :: ls)) with (l ++ sep :: join [sep] (l' :: ls)).
    rewrite split_app_sep by (apply H; left; reflexivity).
    rewrite IH; [reflexivity|discriminate|].
    intros x Hx. apply H. right. exact Hx.
Qed.

Lemma split_once_app (sep : char) (a b : str) :
  ~ In sep a -> split_once sep (a ++ sep :: b) = Some (a, b).
Proof.
  induction a as [|c a IH]; simpl; intros H.
  - rewrite eqb_char_refl. reflexivity.
  - destruct (eqb_char c sep) eqn:E.
    + apply eqb_char_eq in E. exfalso. apply H. auto.
    + rewrite IH by tauto. reflexivity.
Qed.

Lemma split_once_incl (sep : char) (s a b : str) :
  split_once sep s = Some (a, b) -> incl a s /\ incl b s.
Proof.
  revert a b; induction s as [|c s IH]; simpl; intros a b H; [discriminate|].
  destruct (eqb_char c sep).
  - inversion H; subst. split; [intros x []|apply incl_tl, incl_refl].
  - destruct (split_once sep s) as [[a' b']|]; [|discriminate].
    inversion H; subst. destruct (IH a' b eq_refl) as [H1 H2]. split.
    + intros x [<-|Hx]; [left; reflexivity|right; apply H1, Hx].
    + apply incl_tl, H2.
Qed.

Lemma lstrip_spec (s : str) :
  exists w, s = w ++ lstrip s /\ blank w.
Proof.
  induction s as [|c s [w [Hs Hw]]]; simpl.
  - exists []. split; [reflexivity|constructor].
  - destruct (is_space c) eqn:E.
    + exists (c :: w). split; [simpl; congruence|constructor; assumption].
    + exists []. split; [reflexivity|constructor].
Qed.

Lemma lstrip_head (c : char) (s : str) :
  is_space c = false -> lstrip (c :: s) = c :: s.
Proof. intros H. simpl. rewrite H. reflexivity. Qed.

Lemma lstrip_blank_app (w s : str) : blank w -> lstrip (w ++ s) = lstrip s.
Proof.
  induction 1 as [|c w Hc Hw IH]; simpl; [reflexivity|].
  rewrite Hc. exact IH.
Qed.

Lemma blank_rev (w : str) : blank w -> blank (rev w).
Proof. unfold blank. apply Forall_rev. Qed.

Lemma rstrip_spec (s : str) :
  exists w, s = rstrip s ++ w /\ blank w.
Proof.
  unfold rstrip. destruct (lstrip_spec (rev s)) as [w [Hs Hw]].
  exists (rev w). split; [|apply blank_rev, Hw].
  rewrite <- rev_app_distr, <- Hs, rev_involutive. reflexivity.
Qed.

Lemma rstrip_blank_app (s w : str) : blank w -> rstrip (s ++ w) = rstrip s.
Proof.
  intros H. unfold rstrip. rewrite rev_app_distr.
  rewrite lstrip_blank_app by (apply blank_rev, H). reflexivity.
Qed.

Lemma lstrip_app_nonblank (s w : str) :
  lstrip s <> [] -> lstrip (s ++ w) = lstrip s ++ w.
Proof.
  induction s as [|c s IH]; simpl; intros H; [congruence|].
  destruct (is_space c); [apply IH, H|reflexivity].
Qed.

Lemma lstrip_blank (w : str) : blank w -> lstrip w = [].
Proof.
  intros H. rewrite <- (app_nil_r w), lstrip_blank_app by exact H.
  reflexivity.
Qed.

Lemma blank_app (a b : str) : blank a -> blank b -> blank (a ++ b).
Proof. unfold blank. intros. apply Forall_app. auto. Qed.

Lemma rstrip_blank (w : str) : blank w -> rstrip w = [].
Proof.
  intros H. unfold rstrip. rewrite lstrip_blank by (apply blank_rev, H).
  reflexivity.
Qed.

(** Blank text after a line does not change what [strip] returns. *)
Lemma strip_blank_app (s w : str) : blank w -> strip (s ++ w) = strip s.
Proof.
  intros H. unfold strip.
  destruct (lstrip s) as [|c r] eqn:E.
  - destruct (lstrip_spec s) as [w' [Hs Hw']]. rewrite E, app_nil_r in Hs.
    subst w'. rewrite lstrip_blank by (apply blank_app; assumption).
    reflexivity.
  - rewrite lstrip_app_nonblank by (rewrite E; discriminate).
    rewrite E. apply rstrip_blank_app, H.
Qed.

Lemma lstrip_incl (s : str) : incl (lstrip s) s.
Proof.
  destruct (lstrip_spec s) as [w [Hs _]]. rewrite Hs at 2.
  apply incl_appr, incl_refl.
Qed.

Lemma rstrip_incl (s : str) : incl (rstrip s) s.
Proof.
  destruct (rstrip_spec s) as [w [Hs _]]. rewrite Hs at 2.
  apply incl_appl, incl_refl.
Qed.

Lemma strip_incl (s : str) : incl (strip s) s.
Proof.
  unfold strip. eapply incl_tran; [apply rstrip_incl|apply lstrip_incl].
Qed.

Lemma universal_newlines_no_cr (s : str) : ~ In CR (universal_newlines s).
Proof.
  assert (H : forall n t, length t <= n -> ~ In CR (universal_newlines t)).
  { induction n as [|n IH]; intros [|c t] Hlen; simpl in *; try tauto;
      [lia|].
    destruct (eqb_char c CR) eqn:E.
    - destruct t as [|d t].
      + intros [H|[]]. discriminate.
      + destruct (eqb_char d LF).
        * intros [H|H]; [discriminate|].
          revert H. apply IH. simpl in *. lia.
        * intros [H|H]; [discriminate|].
          revert H. apply IH. simpl in *. lia.
    - apply eqb_char_neq in E. intros [H|H]; [apply E; exact H|].
      revert H. apply IH. lia. }
  apply (H (length s)). lia.
Qed.

Lemma universal_newlines_id (s : str) :
  ~ In CR s -> universal_newlines s = s.
Proof.
  induction s as [|c s IH]; simpl; intros H; [reflexivity|].
  destruct (eqb_char c CR) eqn:E.
  - apply eqb_char_eq in E. exfalso. apply H. left. exact E.
  - rewrite IH by tauto. reflexivity.
Qed.

(** ** Integers as text *)

Lemma is_digit_cases (c : char) :
  is_digit c = true -> In c (lit "0123456789").
Proof.
  intros H. change (In c [48; 49; 50; 51; 52; 53; 54; 55; 56; 57]%N).
  simpl. char_prop.
Qed.

(** The value of an ASCII digit. *)
Lemma decimal_ascii (c : char) :
  is_digit c = true -> decimal c = Some (c - 48)%N.
Proof.
  intros H. apply is_digit_cases in H.
  repeat (destruct H as [<-|H]; [vm_compute; reflexivity|]). destruct H.
Qed.

Lemma uint_chars_digits (d : Decimal.uint) :
  Forall (fun c => is_digit c = true) (uint_chars d).
Proof.
  induction d; unfold uint_chars in *; simpl; constructor;
    solve [reflexivity | assumption].
Qed.

Lemma parse_digits_step (acc : Z) (b : bool) (c : char) (s : str) :
  is_digit c = true ->
  parse_digits acc b (c :: s) =
  parse_digits (10 * acc + Z.of_N (c - 48)) true s.
Proof. intros H. simpl. rewrite (decimal_ascii c H). reflexivity. Qed.

Lemma parse_digits_acc (d : Decimal.uint) (acc : positive) :
  parse_digits (Zpos acc) true (uint_chars d) =
  Some (Zpos (Pos.of_uint_acc d acc)).
Proof.
  revert acc; induction d; intros acc; [reflexivity | digit_step parse_digits_step IHd ..].
Qed.

Lemma parse_digits_zero (d : Decimal.uint) :
  parse_digits 0 true (uint_chars d) = Some (Z.of_N (Pos.of_uint d)).
Proof.
  induction d; [reflexivity | digit_step parse_digits_step IHd | digit_step parse_digits_step parse_digits_acc ..].
Qed.

Lemma parse_digits_start (d : Decimal.uint) :
  d <> Decimal.Nil ->
  parse_digits 0 false (uint_chars d) = Some (Z.of_N (Pos.of_uint d)).
Proof.
  intros H. rewrite <- parse_digits_zero.
  destruct d; [congruence| reflexivity ..].
Qed.

Lemma nilzero_chars (d : Decimal.uint) :
  lit (DecimalString.NilZero.string_of_uint d) =
  match d with
  | Decimal.Nil => lit "0"
  | _ => uint_chars d
  end.
Proof. destruct d; reflexivity. Qed.

Lemma parse_digits_nilzero (d : Decimal.uint) :
  parse_digits 0 false (lit (DecimalString.NilZero.string_of_uint d)) =
  Some (Z.of_uint d).
Proof.
  unfold Z.of_uint. destruct d; try reflexivity;
    rewrite nilzero_chars; apply parse_digits_start; discriminate.
Qed.

Lemma nilzero_digits (d : Decimal.uint) :
  Forall (fun c => is_digit c = true)
         (lit (DecimalString.NilZero.string_of_uint d)).
Proof.
  rewrite nilzero_chars. destruct d; try apply uint_chars_digits.
  repeat constructor.
Qed.

Lemma py_str_of_Z_chars (n : Z) : Forall sign_or_digit (py_str_of_Z n).
Proof.
  unfold py_str_of_Z.
  assert (H : forall d, Forall sign_or_digit
                 (lit (DecimalString.NilZero.string_of_uint d))).
  { intros d. eapply Forall_impl; [|apply nilzero_digits].
    intros c Hc. left. exact Hc. }
  destruct (Z.to_int n) as [d|d]; simpl.
  - apply H.
  - constructor; [right; reflexivity|apply H].
Qed.

Lemma py_str_of_Z_nonempty (n : Z) : py_str_of_Z n <> [].
Proof.
  unfold py_str_of_Z. destruct (Z.to_int n) as [d|d]; simpl;
    [|discriminate].
  destruct d; discriminate.
Qed.

Lemma sign_or_digit_not_space (c : char) :
  sign_or_digit c -> is_space c = false.
Proof. intros [H| ->]; [|reflexivity]. char_prop. Qed.

Lemma sign_or_digit_not_int_space (c : char) :
  sign_or_digit c -> is_int_space c = false.
Proof. intros [H| ->]; [|reflexivity]. char_prop. Qed.

Lemma sign_or_digit_plain (c : char) :
  sign_or_digit c ->
  c <> LF /\ c <> CR /\ c <> TAB /\ c <> BAR.
Proof.
  intros [H| ->]; [|repeat split; discriminate].
  repeat split; intros E; subst c; discriminate H.
Qed.

Lemma forall_not_space_strip (s : str) :
  Forall (fun c => is_space c = false) s -> strip s = s.
Proof.
  intros H. unfold strip.
  assert (L : forall t, Forall (fun c => is_space c = false) t -> lstrip t = t).
  { intros t Ht. destruct Ht as [|c t Hc Ht]; [reflexivity|].
    apply lstrip_head, Hc. }
  rewrite (L s H). unfold rstrip. rewrite L by (apply Forall_rev, H).
  apply rev_involutive.
Qed.

Lemma int_strip_id (s : str) :
  Forall (fun c => is_int_space c = false) s -> int_strip s = s.
Proof.
  intros H. unfold int_strip.
  assert (L : forall t, Forall (fun c => is_int_space c = false) t ->
                        int_lstrip t = t).
  { intros t Ht. destruct Ht as [|c t Hc Ht]; [reflexivity|].
    simpl. rewrite Hc. reflexivity. }
  rewrite (L s H), L by (apply Forall_rev, H).
  apply rev_involutive.
Qed.

(** Reading back the text of an integer. *)
Lemma py_int_of_str (n : Z) : py_int (py_str_of_Z n) = Some n.
Proof.
  unfold py_int.
  rewrite int_strip_id.
  2:{ eapply Forall_impl; [|apply py_str_of_Z_chars].
      intros c. apply sign_or_digit_not_int_space. }
  rewrite <- (DecimalZ.of_to n) at 2.
  unfold py_str_of_Z. destruct (Z.to_int n) as [d|d]; simpl.
  - pose proof (parse_digits_nilzero d) as P.
    pose proof (nilzero_digits d) as D.
    change (map N_of_ascii
              (list_ascii_of_string (DecimalString.NilZero.string_of_uint d)))
      with (lit (DecimalString.NilZero.string_of_uint d)).
    destruct (lit (DecimalString.NilZero.string_of_uint d)) as [|c r] eqn:E;
      [discriminate|].
    inversion D as [|? ? Hc _]; subst.
    replace (eqb_char c MINUS) with false by (symmetry; char_prop).
    replace (eqb_char c PLUS) with false by (symmetry; char_prop).
    exact P.
  - change (map N_of_ascii
              (list_ascii_of_string (DecimalString.NilZero.string_of_uint d)))
      with (lit (DecimalString.NilZero.string_of_uint d)).
    rewrite parse_digits_nilzero. reflexivity.
Qed.

(** ** Reading the store *)

Lemma parse_lines_In (now : str) (ls : list str) (k : nat) (d : Device) :
  In d (parse_lines now k ls) ->
  exists k' l, In l ls /\ parse_line now k' l = Some d.
Proof.
  revert k; induction ls as [|l ls IH]; simpl; intros k H; [destruct H|].
  destruct (parse_line now k l) as [d'|] eqn:E.
  - destruct H as [<-|H].
    + exists k, l. auto.
    + destruct (IH _ H) as [k' [l' [H1 H2]]]. exists k', l'. auto.
  - destruct (IH _ H) as [k' [l' [H1 H2]]]. exists k', l'. auto.
Qed.

Lemma parse_line_blank_app (now : str) (k : nat) (l w : str) :
  blank w -> parse_line now k (l ++ w) = parse_line now k l.
Proof.
  intros H. unfold parse_line. rewrite (strip_blank_app l w H). reflexivity.
Qed.

Lemma validate_device_name_incl (n clean : str) :
  validate_device_name n = Ok clean -> incl clean n.
Proof.
  unfold validate_device_name.
  destruct (is_nil n || is_nil (strip n)); [discriminate|].
  destruct (length (filter is_name_char (strip n)) =? 0); [discriminate|].
  assert (F : incl (filter is_name_char (strip n)) n).
  { eapply incl_tran; [apply incl_filter|apply strip_incl]. }
  destruct (50 <? length (filter is_name_char (strip n)));
    intros H; inversion H; subst; [|exact F].
  intros x Hx. apply F.
  rewrite <- (firstn_skipn 50 (filter is_name_char (strip n))).
  apply in_or_app. left. exact Hx.
Qed.

Lemma parse_line_enabled (now : str) (k : nat) (l : str) (d : Device) :
  parse_line now k l = Some d -> enabled d = true.
Proof.
  unfold parse_line. destruct (is_nil (strip l)); [discriminate|].
  destruct (split TAB (strip l)) as [|p0 [|p1 rest]]; try discriminate.
  destruct (match split_once BAR p0 with Some _ => _ | None => _ end)
    as [device_id nm].
  destruct (normalize_mac p1); [|discriminate].
  destruct (validate_device_name nm); [|discriminate].
  intros H; inversion H; reflexivity.
Qed.

(** The fields of a record read from a line without line breaks contain
    neither line breaks nor tabulations. *)
Lemma parse_line_safe (now : str) (k : nat) (l : str) (d : Device) :
  ~ In LF l -> ~ In CR l ->
  parse_line now k l = Some d ->
  line_safe (name d) /\ line_safe (original_mac d).
Proof.
  intros Hlf Hcr. unfold parse_line.
  destruct (is_nil (strip l)); [discriminate|].
  destruct (split TAB (strip l)) as [|p0 [|p1 rest]] eqn:Es; try discriminate.
  destruct (split_parts TAB (strip l) p0) as [T0 I0];
    [rewrite Es; left; reflexivity|].
  destruct (split_parts TAB (strip l) p1) as [T1 I1];
    [rewrite Es; right; left; reflexivity|].
  pose proof (strip_incl l) as Il.
  assert (Hnm : forall nm, incl nm p0 -> line_safe nm).
  { intros nm Hn. unfold line_safe. repeat split; intros Hc.
    - apply Hlf, Il, I0, Hn, Hc.
    - apply Hcr, Il, I0, Hn, Hc.
    - apply T0, Hn, Hc. }
  assert (Hname : exists device_id nm,
             match split_once BAR p0 with
             | Some (id_str, name) =>
                 match py_int id_str with
                 | Some n => (n, name)
                 | None => (Z.of_nat k, name)
                 end
             | None => (Z.of_nat k, p0)
             end = (device_id, nm) /\ incl nm p0).
  { destruct (split_once BAR p0) as [[a b]|] eqn:Eo.
    - destruct (split_once_incl _ _ _ _ Eo) as [_ Hb].
      destruct (py_int a); eexists; eexists; split; try reflexivity; exact Hb.
    - eexists; eexists; split; [reflexivity|apply incl_refl]. }
  destruct Hname as [device_id [nm [-> Hn]]].
  destruct (normalize_mac p1); [|discriminate].
  destruct (validate_device_name nm) as [clean|] eqn:Ev; [|discriminate].
  intros H; inversion H; subst; simpl. split.
  - apply Hnm. eapply incl_tran; [|exact Hn].
    apply validate_device_name_incl, Ev.
  - unfold line_safe. repeat split; intros Hc.
    + apply Hlf, Il, I1, Hc.
    + apply Hcr, Il, I1, Hc.
    + apply T1, Hc.
Qed.

Lemma parse_content_In (now text : str) (d : Device) :
  In d (parse_content now text) ->
  exists k l, In l (split LF (strip text)) /\ parse_line now k l = Some d.
Proof.
  unfold parse_content. destruct (is_nil (strip text)); [intros []|].
  apply parse_lines_In.
Qed.

(** What [load_mac_addresses] returns: records that are enabled and
    whose name and raw MAC fit on a line. *)
Lemma loaded_device (fs : FS) (d : Device) :
  In d (load_mac_addresses fs) ->
  enabled d = true /\ line_safe (name d) /\ line_safe (original_mac d).
Proof.
  unfold load_mac_addresses, read_text.
  destruct (store fs) as [bytes|]; [|intros []].
  destruct (read_fails fs); [intros []|].
  intros H. destruct (parse_content_In _ _ _ H) as [k [l [Hl Hp]]].
  split; [exact (parse_line_enabled _ _ _ _ Hp)|].
  destruct (split_parts _ _ _ Hl) as [Hlf Hincl].
  apply (parse_line_safe (now_iso fs) k l d Hlf); [|exact Hp].
  intros Hc. apply (universal_newlines_no_cr bytes).
  apply strip_incl, Hincl, Hc.
Qed.

(** ** Reading back what was written *)

Lemma prefix_first_part (P q w r p0 p1 : str) (rest : list str) :
  ~ In TAB P ->
  q ++ w = P ++ TAB :: r ->
  split TAB q = p0 :: p1 :: rest ->
  p0 = P.
Proof.
  revert q p0; induction P as [|c P IH]; intros q p0 HP Heq Hs.
  - destruct q as [|x q]; simpl in *; [discriminate|].
    inversion Heq; subst. rewrite eqb_char_refl in Hs.
    inversion Hs; reflexivity.
  - destruct q as [|x q]; simpl in *; [discriminate|].
    inversion Heq; subst.
    destruct (eqb_char c TAB) eqn:E.
    + apply eqb_char_eq in E. exfalso. apply HP. left. exact E.
    + destruct (split TAB q) as [|h t] eqn:Eq; [discriminate|].
      inversion Hs; subst. f_equal.
      apply (IH q h); [tauto|assumption|exact Eq].
Qed.

Lemma render_line_shape (e : Device) :
  exists c s, py_str_of_Z (id e) = c :: s /\ is_space c = false /\
              render_line e =
              c :: s ++ [BAR] ++ name e ++ [TAB] ++ original_mac e ++ [TAB].
Proof.
  pose proof (py_str_of_Z_chars (id e)) as H.
  pose proof (py_str_of_Z_nonempty (id e)) as Hne.
  unfold render_line. destruct (py_str_of_Z (id e)) as [|c s]; [congruence|].
  exists c, s. inversion H; subst.
  split; [reflexivity|]. split; [apply sign_or_digit_not_space; assumption|].
  reflexivity.
Qed.

(** A line written by [save_mac_addresses] is read back, when it is read
    back at all, with the id it was written with. *)
Lemma parse_line_render (now : str) (k : nat) (e d : Device) :
  line_safe (name e) ->
  parse_line now k (render_line e) = Some d -> id d = id e.
Proof.
  intros [_ [_ Htab]].
  destruct (render_line_shape e) as [c [s [Hs [Hc Hl]]]].
  pose proof (py_str_of_Z_chars (id e)) as Hchars.
  assert (Hplain : forall x, In x (py_str_of_Z (id e)) ->
                             x <> TAB /\ x <> BAR).
  { intros x Hx. rewrite Forall_forall in Hchars.
    destruct (sign_or_digit_plain x (Hchars x Hx)) as [_ [_ [? ?]]]. auto. }
  set (P := py_str_of_Z (id e) ++ BAR :: name e).
  assert (HP : ~ In TAB P).
  { unfold P. intros Hin. apply in_app_or in Hin. destruct Hin as [Hin|Hin].
    - destruct (Hplain _ Hin) as [Ht _]. congruence.
    - destruct Hin as [Hin|Hin]; [discriminate|tauto]. }
  assert (Hline : render_line e = P ++ TAB :: (original_mac e ++ [TAB])).
  { unfold render_line, P. rewrite <- !app_assoc. reflexivity. }
  unfold parse_line.
  assert (Hstrip : exists w, strip (render_line e) ++ w = render_line e).
  { unfold strip. rewrite Hl, (lstrip_head c _ Hc), <- Hl.
    destruct (rstrip_spec (render_line e)) as [w [Hw _]].
    exists w. symmetry. exact Hw. }
  destruct Hstrip as [w Hw].
  destruct (is_nil (strip (render_line e))); [discriminate|].
  destruct (split TAB (strip (render_line e))) as [|p0 [|p1 rest]] eqn:Es;
    try discriminate.
  rewrite Hline in Hw at 2.
  rewrite (prefix_first_part P _ w _ p0 p1 rest HP Hw Es).
  unfold P. rewrite split_once_app.
  2:{ intros Hin. destruct (Hplain _ Hin) as [_ Hb]. congruence. }
  rewrite py_int_of_str.
  destruct (normalize_mac p1); [|discriminate].
  destruct (validate_device_name (name e)); [|discriminate].
  intros H; inversion H; reflexivity.
Qed.

Lemma glue_elems (xs ys : list str) (l : str) :
  In l xs ->
  exists l' y, In l' (glue xs ys) /\ l' = l ++ y /\ (y = [] \/ In y ys).
Proof.
  induction xs as [|x xs IH]; intros H; [destruct H|].
  destruct xs as [|x2 xs].
  - destruct H as [<-|[]]. simpl. destruct ys as [|y ys].
    + exists x, []. rewrite app_nil_r. simpl. auto.
    + exists (x ++ y), y. simpl. auto.
  - destruct H as [<-|H].
    + exists x, []. rewrite app_nil_r. simpl. auto.
    + destruct (IH H) as [l' [y [H1 [H2 H3]]]].
      exists l', y. split; [right; exact H1|auto].
Qed.

Lemma join_snoc_empty (sep : str) (ls : list str) :
  ls <> [] -> join sep (ls ++ [[]]) = join sep ls ++ sep.
Proof.
  induction ls as [|l ls IH]; intros H; [congruence|].
  destruct ls as [|l' ls].
  - simpl. rewrite app_nil_r. reflexivity.
  - change (join sep ((l :: l' :: ls) ++ [[]]))
      with (l ++ sep ++ join sep ((l' :: ls) ++ [[]])).
    rewrite IH by discriminate.
    change (join sep (l :: l' :: ls)) with (l ++ sep ++ join sep (l' :: ls)).
    rewrite <- !app_assoc. reflexivity.
Qed.

Lemma In_join (sep : str) (ls : list str) (x : char) :
  In x (join sep ls) -> In x sep \/ exists l, In l ls /\ In x l.
Proof.
  induction ls as [|l ls IH]; simpl; [intros []|].
  destruct ls as [|l' ls].
  - intros H. right. exists l. auto.
  - intros H. apply in_app_or in H. destruct H as [H|H].
    + right. exists l. auto.
    + apply in_app_or in H. destruct H as [H|H]; [left; exact H|].
      destruct (IH H) as [Hs|[l0 [H1 H2]]]; [left; exact Hs|].
      right. exists l0. auto.
Qed.

Lemma In_render_line (e : Device) (x : char) :
  In x (render_line e) ->
  sign_or_digit x \/ x = BAR \/ x = TAB \/ In x (name e) \/
  In x (original_mac e).
Proof.
  unfold render_line. intros H.
  pose proof (py_str_of_Z_chars (id e)) as Hc. rewrite Forall_forall in Hc.
  repeat (apply in_app_or in H; destruct H as [H|H]);
    try (destruct H as [<-|[]]); auto.
Qed.

Lemma render_line_safe (e : Device) (x : char) :
  line_safe (name e) -> line_safe (original_mac e) ->
  In x (render_line e) -> x <> LF /\ x <> CR.
Proof.
  intros [N1 [N2 _]] [M1 [M2 _]] H.
  destruct (In_render_line e x H) as [Hx|[->|[->|[Hx|Hx]]]].
  - destruct (sign_or_digit_plain x Hx) as [? [? _]]. auto.
  - split; discriminate.
  - split; discriminate.
  - split; intros ->; tauto.
  - split; intros ->; tauto.
Qed.

(** The records read from the text that [save_mac_addresses] writes for
    [written] carry ids of [written]. *)
Lemma reload_ids (now : str) (written : list Device) (d : Device) :
  (forall e, In e written ->
             line_safe (name e) /\ line_safe (original_mac e)) ->
  In d (parse_content now
          (universal_newlines
             (join [LF] (map render_line written) ++ [LF]))) ->
  exists e, In e written /\ id d = id e.
Proof.
  intros Hsafe Hd.
  set (lines := map render_line written) in *.
  assert (Hchars : forall l x, In l lines -> In x l -> x <> LF /\ x <> CR).
  { intros l x Hl Hx. unfold lines in Hl. apply in_map_iff in Hl.
    destruct Hl as [e [<- He]]. destruct (Hsafe e He) as [Hn Hm].
    exact (render_line_safe e x Hn Hm Hx). }
  rewrite universal_newlines_id in Hd.
  2:{ intros Hin. apply in_app_or in Hin. destruct Hin as [Hin|Hin].
      - apply In_join in Hin. destruct Hin as [[Hin|[]]|[l [Hl Hx]]];
          [discriminate|].
        destruct (Hchars l CR Hl Hx) as [_ Hcr]. congruence.
      - destruct Hin as [Hin|[]]. discriminate. }
  assert (Hne : lines <> []).
  { intros E. rewrite E in Hd. destruct Hd. }
  set (c := join [LF] lines ++ [LF]) in *.
  destruct (parse_content_In _ _ _ Hd) as [k [l [Hl Hp]]].
  assert (Hlstrip : lstrip c = c).
  { unfold c, lines in *. destruct written as [|e0 written'];
      [exfalso; apply Hne; reflexivity|].
    change (map render_line (e0 :: written'))
      with (render_line e0 :: map render_line written').
    destruct (render_line_shape e0) as [ch [s [_ [Hch Hline]]]].
    destruct (map render_line written'); simpl; rewrite Hline;
      apply lstrip_head, Hch. }
  assert (Hc : exists w, c = strip c ++ w /\ blank w).
  { unfold strip. rewrite Hlstrip. apply rstrip_spec. }
  destruct Hc as [w [Hc Hw]].
  assert (Hsplit : split LF c = lines ++ [[]]).
  { unfold c. rewrite <- (join_snoc_empty [LF] lines Hne).
    apply split_join.
    - destruct lines; discriminate.
    - intros x Hx Hin. apply in_app_or in Hx. destruct Hx as [Hx|[<-|[]]].
      + destruct (Hchars x LF Hx Hin) as [Hlf _]. congruence.
      + destruct Hin. }
  rewrite Hc, split_app in Hsplit.
  destruct (glue_elems _ (split LF w) l Hl) as [l' [y [H1 [H2 H3]]]].
  rewrite Hsplit in H1.
  assert (Hy : blank y).
  { destruct H3 as [->|H3]; [constructor|].
    destruct (split_parts _ _ _ H3) as [_ Hi].
    unfold blank in *. rewrite Forall_forall in *. intros x Hx.
    apply Hw, Hi, Hx. }
  assert (Hp' : parse_line now k l' = Some d).
  { rewrite H2, parse_line_blank_app by exact Hy. exact Hp. }
  apply in_app_or in H1. destruct H1 as [H1|[<-|[]]].
  - unfold lines in H1. apply in_map_iff in H1. destruct H1 as [e [<- He]].
    exists e. split; [exact He|].
    apply (parse_line_render now k e d); [|exact Hp'].
    apply (Hsafe e He).
  - discriminate.
Qed.

(** ** Sorting by id *)

Lemma In_insert_by_id (x d : Device) (l : list Device) :
  In x (insert_by_id d l) <-> x = d \/ In x l.
Proof.
  induction l as [|y l IH]; simpl.
  - intuition.
  - destruct (id d <=? id y)%Z; simpl; [intuition|].
    rewrite IH. intuition.
Qed.

Lemma In_sorted_by_id (x : Device) (l : list Device) :
  In x (sorted_by_id l) <-> In x l.
Proof.
  induction l as [|y l IH]; simpl; [tauto|].
  rewrite In_insert_by_id, IH. intuition.
Qed.

Lemma insert_by_id_sorted (d : Device) (l : list Device) :
  StronglySorted id_le l -> StronglySorted id_le (insert_by_id d l).
Proof.
  induction 1 as [|y l Hs IH Hy]; simpl.
  - repeat constructor.
  - destruct (id d <=? id y)%Z eqn:E.
    + apply Z.leb_le in E. constructor; [constructor; assumption|].
      constructor; [exact E|].
      rewrite Forall_forall in *. intros z Hz. unfold id_le in *.
      specialize (Hy z Hz). lia.
    + apply Z.leb_gt in E. constructor; [exact IH|].
      rewrite Forall_forall in *. intros z Hz.
      apply In_insert_by_id in Hz. destruct Hz as [->|Hz].
      * unfold id_le. lia.
      * apply Hy, Hz.
Qed.

Lemma sorted_by_id_sorted (l : list Device) :
  StronglySorted id_le (sorted_by_id l).
Proof.
  induction l as [|d l IH]; simpl; [constructor|].
  apply insert_by_id_sorted, IH.
Qed.

Lemma insert_by_id_front (d : Device) (l : list Device) :
  Forall (id_le d) l -> insert_by_id d l = d :: l.
Proof.
  intros H. destruct H as [|y l Hy _]; simpl; [reflexivity|].
  unfold id_le in Hy. apply Z.leb_le in Hy. rewrite Hy. reflexivity.
Qed.

Lemma filter_insert_by_id (p : Device -> bool) (d : Device) (s : list Device) :
  StronglySorted id_le s ->
  filter p (insert_by_id d s) =
  if p d then insert_by_id d (filter p s) else filter p s.
Proof.
  induction 1 as [|y s Hs IH Hy]; simpl.
  - destruct (p d); reflexivity.
  - destruct (id d <=? id y)%Z eqn:E; simpl.
    + destruct (p d) eqn:Ed; [|reflexivity].
      apply Z.leb_le in E. symmetry.
      destruct (p y).
      * simpl. apply Z.leb_le in E. rewrite E. reflexivity.
      * apply insert_by_id_front.
        rewrite Forall_forall in *. intros z Hz.
        apply filter_In in Hz. destruct Hz as [Hz _].
        specialize (Hy z Hz). unfold id_le in *. lia.
    + rewrite IH. destruct (p y); destruct (p d); simpl;
        rewrite ?E; reflexivity.
Qed.

(** A stable sort commutes with a filter. *)
Lemma filter_sorted_by_id (p : Device -> bool) (l : list Device) :
  filter p (sorted_by_id l) = sorted_by_id (filter p l).
Proof.
  induction l as [|d l IH]; simpl; [reflexivity|].
  rewrite filter_insert_by_id by apply sorted_by_id_sorted.
  rewrite IH. destruct (p d); reflexivity.
Qed.

(** ** Disabling a device *)


Lemma filter_all {A} (p : A -> bool) (l : list A) :
  (forall x, In x l -> p x = true) -> filter p l = l.
Proof.
  induction l as [|x l IH]; simpl; intros H; [reflexivity|].
  rewrite (H x) by auto. rewrite IH; auto.
Qed.


Lemma save_keeps_flags (devices : list Device) (fs fs' : FS) (b : bool) :
  save_mac_addresses devices fs = (b, fs') ->
  read_fails fs' = read_fails fs /\ now_iso fs' = now_iso fs.
Proof.
  unfold save_mac_addresses, write_backup, write_store, read_text.
  destruct (store fs).
  - destruct (read_fails fs) eqn:Er; [intros H; inversion H; subst; auto|].
    destruct (backup_write_fails fs); [intros H; inversion H; subst; auto|].
    cbn. destruct (store_write_fails fs); [destruct (torn fs)|];
      intros H; inversion H; subst; cbn; auto.
  - destruct (store_write_fails fs); [destruct (torn fs)|];
      intros H; inversion H; subst; cbn; auto.
Qed.






(** ** Ids given by [add_device] *)

Lemma fold_left_max_ge (l : list Z) (a : Z) :
  (a <= fold_left Z.max l a)%Z /\
  forall x, In x l -> (x <= fold_left Z.max l a)%Z.
Proof.
  revert a; induction l as [|y l IH]; intros a; simpl.
  - split; [lia|intros x []].
  - destruct (IH (Z.max a y)) as [H1 H2]. split; [lia|].
    intros x [->|Hx]; [lia|apply H2, Hx].
Qed.

Lemma max_id_ge (devices : list Device) (d : Device) :
  In d devices -> (id d <= max_id devices)%Z.
Proof.
  destruct devices as [|x rest]; [intros []|].
  unfold max_id. destruct (fold_left_max_ge (map id rest) (id x)) as [H1 H2].
  intros [->|Hd]; [exact H1|]. apply H2, in_map, Hd.
Qed.

(** A device that [add_device] returns has the id [max + 1] (1 on an
    empty list), above the id of every record read before. *)
Lemma add_device_assigns_next_id (name0 mac0 : str) (fs fs' : FS)
  (dev : Device) :
  add_device name0 mac0 fs = (Ok dev, fs') ->
  id dev = (max_id (load_mac_addresses fs) + 1)%Z /\
  (load_mac_addresses fs = [] -> id dev = 1%Z) /\
  forall d, In d (load_mac_addresses fs) -> (id d < id dev)%Z.
Proof.
  unfold add_device.
  destruct (validate_device_name name0); [|discriminate].
  destruct (normalize_mac mac0); [|discriminate].
  destruct (check_duplicates _ _ _); [discriminate|].
  destruct (save_mac_addresses _ fs) as [[] fs1]; [|discriminate].
  intros H. inversion H; subst; simpl. split; [reflexivity|]. split.
  - intros ->. reflexivity.
  - intros d Hd. pose proof (max_id_ge _ _ Hd). lia.
Qed.

(** C5 at three histories from the empty store.  After [add("a", _)] and
    [add("! a", _)] two records are named [a]; after an [add] whose name
    holds a tabulation and a MAC two records have the same MAC; after an
    [update] whose name holds a line break two records have the same id.
    Every call of the three histories returned a device. *)
Theorem histories_break_uniqueness :
  map name (load_mac_addresses history_names) = [lit "a"; lit "a"] /\
  map mac (load_mac_addresses history_macs) =
    [lit "AA:BB:CC:DD:EE:01"; lit "AA:BB:CC:DD:EE:01"] /\
  map id (load_mac_addresses history_ids) = [2%Z; 2%Z] /\
  is_ok (fst (add_device (lit "a") (lit "AA:BB:CC:DD:EE:01")
                example_empty_fs)) = true /\
  is_ok (fst (add_device (lit "! a") (lit "AA:BB:CC:DD:EE:02")
                (snd (add_device (lit "a") (lit "AA:BB:CC:DD:EE:01")
                        example_empty_fs)))) = true /\
  is_ok (fst (add_device (lit "x" ++ [TAB] ++ lit "AABBCCDDEE01")
                (lit "AA:BB:CC:DD:EE:02")
                (snd (add_device (lit "a") (lit "AA:BB:CC:DD:EE:01")
                        example_empty_fs)))) = true /\
  is_ok (fst (update_device 1
                (Some (lit "x" ++ [LF] ++ lit "y" ++ [TAB] ++ lit "AABBCCDDEE09"))
                None None
                (snd (add_device (lit "b") (lit "AA:BB:CC:DD:EE:02")
                        (snd (add_device (lit "a") (lit "AA:BB:CC:DD:EE:01")
                                example_empty_fs)))))) = true.
Proof. vm_compute. repeat split; reflexivity. Qed.

(** ** Path expressions *)

Lemma first_path_inv {A} (f : A -> option path) (l : list A) (i : nat)
  (q : path) :
  first_path f i l = Some q ->
  exists k x p, q = (i + k) :: p /\ nth_error l k = Some x /\ f x = Some p.
Proof.
  revert i; induction l as [|y l IH]; simpl; intros i H; [discriminate|].
  destruct (f y) as [p|] eqn:E.
  - inversion H; subst. exists 0, y, p. rewrite Nat.add_0_r. auto.
  - destruct (IH _ H) as [k [x [p [H1 [H2 H3]]]]].
    exists (S k), x, p. rewrite Nat.add_succ_r. auto.
Qed.

(** Rewriting the element on which the search succeeds into one on which
    it succeeds alike leaves the result. *)
Lemma first_path_update_nth {A} (f : A -> option path) (g : A -> A)
  (l : list A) (i k : nat) (p : path) (x : A) :
  first_path f i l = Some ((i + k) :: p) ->
  nth_error l k = Some x ->
  f (g x) = Some p ->
  first_path f i (update_nth k g l) = Some ((i + k) :: p).
Proof.
  revert i k; induction l as [|y l IH]; intros i k H Hn Hg;
    [destruct k; discriminate|].
  simpl in H. destruct (f y) as [py|] eqn:E.
  - injection H as Hi Hp. assert (k = 0) by lia. subst k py.
    simpl in Hn. injection Hn as ->. simpl. rewrite Hg, Nat.add_0_r.
    reflexivity.
  - destruct k as [|k].
    + destruct (first_path_inv _ _ _ _ H) as [k' [x' [p' [H1 _]]]].
      inversion H1. lia.
    + simpl in Hn. simpl. rewrite E.
      rewrite Nat.add_succ_r in *. apply (IH (S i) k H Hn Hg).
Qed.

Lemma first_path_update_ext {A} (f : A -> option path) (g : A -> A)
  (l : list A) (i k : nat) :
  (forall x, nth_error l k = Some x -> f (g x) = f x) ->
  first_path f i (update_nth k g l) = first_path f i l.
Proof.
  revert i k; induction l as [|y l IH]; intros i [|k] H; simpl; auto.
  - rewrite (H y eq_refl). reflexivity.
  - destruct (f y); [reflexivity|]. apply IH. exact H.
Qed.

Lemma first_path_map_ext {A} (f : A -> option path) (h : A -> A)
  (l : list A) (i : nat) :
  Forall (fun x => f (h x) = f x) l ->
  first_path f i (map h l) = first_path f i l.
Proof.
  intros H; revert i; induction H as [|y l Hy _ IH]; intros i; simpl;
    [reflexivity|].
  rewrite Hy. destruct (f y); [reflexivity|apply IH].
Qed.

Lemma tag_modify_at (p : path) (g : Element -> Element) (e : Element) :
  (forall x, tag (g x) = tag x) -> tag (modify_at p g e) = tag e.
Proof.
  intros Hg. destruct p; simpl; [apply Hg|apply tag_set_children].
Qed.

Lemma has_tag_modify_at (t : str) (p : path) (g : Element -> Element)
  (e : Element) :
  (forall x, tag (g x) = tag x) ->
  has_tag t (modify_at p g e) = has_tag t e.
Proof. intros Hg. unfold has_tag. rewrite tag_modify_at; auto. Qed.

(** A step of a path expression does not see a rewriting below the child
    it passes through, when its continuation does not. *)
Lemma child_step_modify (t : str) (k : Element -> option path)
  (j : nat) (q : path) (g : Element -> Element) (e : Element) :
  (forall x, tag (g x) = tag x) ->
  (forall x, k (modify_at q g x) = k x) ->
  child_step t k (modify_at (j :: q) g e) = child_step t k e.
Proof.
  intros Hg Hk. unfold child_step. simpl. rewrite children_set_children.
  apply first_path_update_ext. intros x _.
  rewrite has_tag_modify_at by exact Hg. rewrite Hk. reflexivity.
Qed.

Lemma section_under_modify (q : path) (g : Element -> Element) (e : Element) :
  (forall x, tag (g x) = tag x) -> 3 <= length q ->
  section_under (modify_at q g e) = section_under e.
Proof.
  intros Hg Hlen.
  destruct q as [|j1 [|j2 [|j3 q]]]; simpl in Hlen; try lia.
  unfold section_under.
  apply child_step_modify; [exact Hg|]. intros x1.
  apply child_step_modify; [exact Hg|]. intros x2.
  apply child_step_modify; [exact Hg|]. intros x3. reflexivity.
Qed.

Lemma child_step_inv (t : str) (k : Element -> option path) (e : Element)
  (q : path) :
  child_step t k e = Some q ->
  exists j x p, q = j :: p /\ nth_error (children e) j = Some x /\
                has_tag t x = true /\ k x = Some p.
Proof.
  unfold child_step. intros H.
  destruct (first_path_inv _ _ _ _ H) as [j [x [p [H1 [H2 H3]]]]].
  exists j, x, p. simpl in H1. destruct (has_tag t x); [auto|discriminate].
Qed.

Lemma section_under_length (e : Element) (p : path) :
  section_under e = Some p -> length p = 3.
Proof.
  unfold section_under. intros H.
  destruct (child_step_inv _ _ _ _ H) as [j1 [x1 [p1 [-> [_ [_ H1]]]]]].
  destruct (child_step_inv _ _ _ _ H1) as [j2 [x2 [p2 [-> [_ [_ H2]]]]]].
  destruct (child_step_inv _ _ _ _ H2) as [j3 [x3 [p3 [-> [_ [_ H3]]]]]].
  inversion H3. reflexivity.
Qed.

Lemma find_aliases_section_unfold (e : Element) :
  find_aliases_section e = first_path section_step 0 (children e).
Proof. destruct e; reflexivity. Qed.

Lemma find_aliases_section_length (p : path) (e : Element) :
  find_aliases_section e = Some p -> 4 <= length p.
Proof.
  revert e; induction p as [|j p IH]; intros e H;
    rewrite find_aliases_section_unfold in H;
    destruct (first_path_inv _ _ _ _ H) as [k [x [p' [H1 [H2 H3]]]]];
    [discriminate|].
  inversion H1; subst. unfold section_step in H3.
  destruct (if has_tag (lit "OPNsense") x then section_under x else None)
    as [p0|] eqn:E.
  - inversion H3; subst. destruct (has_tag (lit "OPNsense") x); [|discriminate].
    pose proof (section_under_length _ _ E). simpl. lia.
  - specialize (IH _ H3). simpl. lia.
Qed.

(** The lookup of the aliases section does not see what happens inside
    the section it finds. *)
Lemma find_aliases_section_modify (g : Element -> Element) (p : path)
  (e : Element) :
  (forall x, tag (g x) = tag x) ->
  find_aliases_section e = Some p ->
  find_aliases_section (modify_at p g e) = Some p.
Proof.
  intros Hg. revert e; induction p as [|j p IH]; intros e H.
  - apply find_aliases_section_length in H. simpl in H. lia.
  - pose proof H as H0. rewrite find_aliases_section_unfold in H.
    destruct (first_path_inv _ _ _ _ H) as [k [x [p' [H1 [H2 H3]]]]].
    simpl in H1. inversion H1; subst k p'. clear H1.
    rewrite find_aliases_section_unfold. simpl.
    rewrite children_set_children.
    apply (first_path_update_nth section_step _ _ 0 j p x H H2).
    unfold section_step in *.
    rewrite has_tag_modify_at by exact Hg.
    destruct (if has_tag (lit "OPNsense") x then section_under x else None)
      as [p0|] eqn:E.
    + inversion H3; subst p0.
      destruct (has_tag (lit "OPNsense") x); [|discriminate].
      rewrite section_under_modify, E;
        [reflexivity|exact Hg|].
      rewrite (section_under_length _ _ E). lia.
    + assert (Hlen : 3 <= length p)
        by (apply find_aliases_section_length in H3; lia).
      destruct (has_tag (lit "OPNsense") x).
      * rewrite section_under_modify, E by assumption. apply IH, H3.
      * apply IH, H3.
Qed.

(** ** Reading and rewriting at a path *)

Lemma nth_error_update_nth_eq {A} (g : A -> A) (l : list A) (i : nat) (x : A) :
  nth_error l i = Some x -> nth_error (update_nth i g l) i = Some (g x).
Proof. intros H. rewrite nth_error_update_nth, H. reflexivity. Qed.

Lemma update_nth_ext_at {A} (g h : A -> A) (l : list A) (i : nat) :
  (forall x, nth_error l i = Some x -> g x = h x) ->
  update_nth i g l = update_nth i h l.
Proof.
  revert i; induction l as [|y l IH]; intros [|i] H; simpl; auto.
  - rewrite (H y eq_refl). reflexivity.
  - rewrite (IH i H). reflexivity.
Qed.

Lemma update_nth_same {A} (g : A -> A) (l : list A) (i : nat) :
  (forall x, nth_error l i = Some x -> g x = x) -> update_nth i g l = l.
Proof.
  revert i; induction l as [|y l IH]; intros [|i] H; simpl; auto.
  - rewrite (H y eq_refl). reflexivity.
  - rewrite (IH i H). reflexivity.
Qed.

Lemma set_children_same (e : Element) : set_children (children e) e = e.
Proof. destruct e; reflexivity. Qed.

Lemma get_at_modify_at (p : path) (g : Element -> Element) (e : Element) :
  get_at p (modify_at p g e) = option_map g (get_at p e).
Proof.
  revert e; induction p as [|i p IH]; intros e; simpl; [reflexivity|].
  rewrite children_set_children, nth_error_update_nth.
  destruct (nth_error (children e) i); simpl; [apply IH|reflexivity].
Qed.

Lemma get_at_app (p q : path) (e : Element) :
  get_at (p ++ q) e =
  match get_at p e with
  | Some c => get_at q c
  | None => None
  end.
Proof.
  revert e; induction p as [|i p IH]; intros e; simpl; [reflexivity|].
  destruct (nth_error (children e) i); [apply IH|reflexivity].
Qed.

Lemma modify_at_app (p q : path) (g : Element -> Element) (e : Element) :
  modify_at (p ++ q) g e = modify_at p (modify_at q g) e.
Proof.
  revert e; induction p as [|i p IH]; intros e; simpl; [reflexivity|].
  f_equal. apply update_nth_ext_at. intros x _. apply IH.
Qed.

Lemma modify_at_same (p : path) (g : Element -> Element) (e x : Element) :
  get_at p e = Some x -> g x = x -> modify_at p g e = e.
Proof.
  revert e; induction p as [|i p IH]; intros e; simpl.
  - intros H; inversion H; subst. auto.
  - destruct (nth_error (children e) i) as [c|] eqn:E; [|discriminate].
    intros H Hg. rewrite update_nth_same; [apply set_children_same|].
    intros y Hy. rewrite E in Hy. inversion Hy; subst. apply IH; assumption.
Qed.

Lemma get_at_canon (p : path) (e : Element) :
  get_at p (canon e) = option_map canon (get_at p e).
Proof.
  revert e; induction p as [|i p IH]; intros e; simpl; [reflexivity|].
  rewrite children_canon, nth_error_map.
  destruct (nth_error (children e) i); simpl; [apply IH|reflexivity].
Qed.

Lemma canon_text_idem (x : option str) : canon_text (canon_text x) = canon_text x.
Proof. destruct x as [[|c s]|]; reflexivity. Qed.

Lemma canon_idem (e : Element) : canon (canon e) = canon e.
Proof.
  induction e as [t a x cs tl IH] using Element_induction. simpl.
  rewrite !canon_text_idem, map_map. f_equal.
  apply map_ext_in. rewrite Forall_forall in IH. exact IH.
Qed.

Lemma child_step_canon (t : str) (k : Element -> option path) (e : Element) :
  (forall x, k (canon x) = k x) ->
  child_step t k (canon e) = child_step t k e.
Proof.
  intros Hk. unfold child_step. rewrite children_canon.
  apply first_path_map_ext. apply Forall_forall. intros x _.
  rewrite has_tag_canon, Hk. reflexivity.
Qed.

Lemma section_under_canon (e : Element) :
  section_under (canon e) = section_under e.
Proof.
  unfold section_under.
  apply child_step_canon. intros x1.
  apply child_step_canon. intros x2.
  apply child_step_canon. intros x3. reflexivity.
Qed.

(** The lookup reads tags only: the trip through the text of the
    document does not change it. *)
Lemma find_aliases_section_canon (e : Element) :
  find_aliases_section (canon e) = find_aliases_section e.
Proof.
  induction e as [t a x cs tl IH] using Element_induction.
  rewrite !find_aliases_section_unfold. rewrite children_canon. simpl.
  apply first_path_map_ext. eapply Forall_impl; [|exact IH].
  intros c Hc. unfold section_step.
  rewrite has_tag_canon, section_under_canon, Hc. reflexivity.
Qed.

Lemma index_where_map_invariant {A} (p : A -> bool) (f : A -> A) (l : list A) :
  (forall x, p (f x) = p x) ->
  index_where p (map f l) = index_where p l.
Proof.
  intros H. induction l as [|x l IH]; simpl; [reflexivity|].
  rewrite H, IH. reflexivity.
Qed.

Lemma first_children_canon (tags : list str) (e : Element) :
  first_children tags (canon e) = first_children tags e.
Proof.
  revert e; induction tags as [|t tags IH]; intros e; simpl; [reflexivity|].
  rewrite children_canon.
  rewrite (index_where_map_invariant _ canon _ (has_tag_canon t)).
  destruct (index_where (has_tag t) (children e)) as [i|]; [|reflexivity].
  rewrite nth_error_map.
  destruct (nth_error (children e) i); simpl; [|reflexivity].
  rewrite IH. reflexivity.
Qed.

Lemma first_children_length (tags : list str) (e : Element) (p : path) :
  first_children tags e = Some p -> length p = length tags.
Proof.
  revert e p; induction tags as [|t tags IH]; intros e p; simpl.
  - intros H; inversion H; reflexivity.
  - destruct (index_where (has_tag t) (children e)) as [i|]; [|discriminate].
    destruct (nth_error (children e) i) as [c|]; [|discriminate].
    destruct (first_children tags c) as [q|] eqn:E; [|discriminate].
    intros H; inversion H; subst. simpl. rewrite (IH c q E). reflexivity.
Qed.

(** The sections chosen at lines 173-188 are not affected by a rewriting
    at their depth or below that keeps the tag. *)
Lemma first_children_modify (tags : list str) (p : path)
  (g : Element -> Element) (e : Element) :
  (forall x, tag (g x) = tag x) -> length tags <= length p ->
  first_children tags (modify_at p g e) = first_children tags e.
Proof.
  intros Hg. revert p e; induction tags as [|t tags IH]; intros p e Hlen;
    [reflexivity|].
  destruct p as [|j p]; simpl in Hlen; [lia|].
  simpl. rewrite children_set_children.
  rewrite index_where_update_neutral
    by (intros x _; apply has_tag_modify_at, Hg).
  destruct (index_where (has_tag t) (children e)) as [i|]; [|reflexivity].
  destruct (Nat.eq_dec j i) as [->|Hne].
  - rewrite nth_error_update_nth.
    destruct (nth_error (children e) i); simpl; [|reflexivity].
    rewrite IH by lia. reflexivity.
  - rewrite nth_error_update_nth_other by exact Hne. reflexivity.
Qed.

Lemma with_child_found (t : str) (fresh : Element)
  (K K' : Element -> Element) (parent c : Element) (i : nat) (q : path) :
  index_where (has_tag t) (children parent) = Some i ->
  nth_error (children parent) i = Some c ->
  K c = modify_at q K' c ->
  with_child t fresh K parent = modify_at (i :: q) K' parent.
Proof.
  intros Hi Hc HK. unfold with_child. rewrite Hi. simpl. f_equal.
  apply update_nth_ext_at. intros x Hx. rewrite Hc in Hx.
  inversion Hx; subst. exact HK.
Qed.

(** Once the sections exist, lines 173-188 end on the element at the
    path of the first children. *)
Lemma in_aliases_modify (k : Element -> Element) (root : Element) (p : path) :
  first_children SECTION_TAGS root = Some p ->
  in_aliases k root = modify_at p k root.
Proof.
  unfold SECTION_TAGS, in_aliases. simpl.
  destruct (index_where _ (children root)) as [i1|] eqn:E1; [|discriminate].
  destruct (nth_error (children root) i1) as [c1|] eqn:N1; [|discriminate].
  destruct (index_where _ (children c1)) as [i2|] eqn:E2; [|discriminate].
  destruct (nth_error (children c1) i2) as [c2|] eqn:N2; [|discriminate].
  destruct (index_where _ (children c2)) as [i3|] eqn:E3; [|discriminate].
  destruct (nth_error (children c2) i3) as [c3|] eqn:N3; [|discriminate].
  destruct (index_where _ (children c3)) as [i4|] eqn:E4; [|discriminate].
  destruct (nth_error (children c3) i4) as [c4|] eqn:N4; [|discriminate].
  simpl. intros H; inversion H; subst p; clear H.
  apply (with_child_found _ _ _ k root c1 i1 [i2; i3; i4] E1 N1).
  apply (with_child_found _ _ _ k c1 c2 i2 [i3; i4] E2 N2).
  apply (with_child_found _ _ _ k c2 c3 i3 [i4] E3 N3).
  apply (with_child_found _ _ _ k c3 c4 i4 [] E4 N4).
  reflexivity.
Qed.

Lemma with_child_index (t : str) (fresh : Element) (K : Element -> Element)
  (parent : Element) :
  has_tag t fresh = true ->
  (forall x, has_tag t (K x) = has_tag t x) ->
  exists i,
    index_where (has_tag t) (children (with_child t fresh K parent)) = Some i /\
    nth_error (children (with_child t fresh K parent)) i =
    Some (K match find_child t parent with Some c => c | None => fresh end).
Proof.
  intros Hf HK. unfold with_child, find_child.
  rewrite find_index_where.
  destruct (index_where (has_tag t) (children parent)) as [i|] eqn:Ei.
  - destruct (index_where_nth _ _ _ Ei) as [x [Hx Hp]].
    exists i. rewrite children_set_children, Hx. split.
    + apply (index_where_update _ _ _ i x Ei Hx). rewrite HK. exact Hp.
    + apply nth_error_update_nth_eq, Hx.
  - exists (length (children parent)).
    unfold append_child. rewrite children_set_children. split.
    + rewrite (index_where_app_none _ _ _ Ei), HK, Hf. reflexivity.
    + apply nth_error_app_last.
Qed.

Lemma first_children_with_child (t : str) (tags : list str) (fresh : Element)
  (K : Element -> Element) (parent : Element) :
  has_tag t fresh = true ->
  (forall x, has_tag t (K x) = has_tag t x) ->
  (forall x, first_children tags (K x) <> None) ->
  first_children (t :: tags) (with_child t fresh K parent) <> None.
Proof.
  intros Hf HK Hrest. simpl.
  destruct (with_child_index t fresh K parent Hf HK) as [i [Hi Hn]].
  rewrite Hi, Hn.
  specialize (Hrest match find_child t parent with Some c => c | None => fresh end).
  destruct (first_children tags _); [discriminate|congruence].
Qed.

Lemma has_tag_with_child (u t : str) (fresh : Element)
  (K : Element -> Element) (parent : Element) :
  has_tag u (with_child t fresh K parent) = has_tag u parent.
Proof. unfold has_tag. rewrite tag_with_child. reflexivity. Qed.

(** After lines 173-188 the sections exist. *)
Lemma ensure_sections_exist (root : Element) :
  exists p, first_children SECTION_TAGS (ensure_sections root) = Some p.
Proof.
  assert (H : first_children SECTION_TAGS (ensure_sections root) <> None).
  { unfold SECTION_TAGS, ensure_sections, in_aliases.
    apply first_children_with_child;
      [reflexivity|intros; apply has_tag_with_child|intros x1].
    apply first_children_with_child;
      [reflexivity|intros; apply has_tag_with_child|intros x2].
    apply first_children_with_child;
      [reflexivity|intros; apply has_tag_with_child|intros x3].
    apply first_children_with_child;
      [reflexivity|reflexivity|intros x4]. discriminate. }
  destruct (first_children SECTION_TAGS (ensure_sections root)) as [p|];
    [exists p; reflexivity|congruence].
Qed.

Lemma ensure_sections_fixed (root : Element) (p : path) :
  first_children SECTION_TAGS root = Some p -> ensure_sections root = root.
Proof.
  intros H. unfold ensure_sections. rewrite (in_aliases_modify _ _ _ H).
  assert (G : forall q e, modify_at q (fun aliases => aliases) e = e).
  { induction q as [|i q IH]; intros e; simpl; [reflexivity|].
    rewrite update_nth_same; [apply set_children_same|].
    intros x _. apply IH. }
  apply G.
Qed.

(** ** The alias upsert *)

Lemma is_alias_named_canon (alias_name : str) (e : Element) :
  alias_name <> [] ->
  is_alias_named alias_name (canon e) = is_alias_named alias_name e.
Proof.
  intros Hne. unfold is_alias_named.
  rewrite has_tag_canon, find_child_canon.
  destruct (find_child (lit "name") e) as [n|]; [|reflexivity].
  simpl. rewrite text_canon.
  destruct (text n) as [[|c s]|]; try reflexivity.
  simpl. destruct alias_name; [congruence|reflexivity].
Qed.

Lemma tag_rewrite_alias (alias_name now : str) (devs : list Device)
  (x : Element) : tag (rewrite_alias alias_name now devs x) = tag x.
Proof. apply tag_set_children. Qed.

Lemma is_alias_named_rewrite (alias_name now : str) (devs : list Device)
  (x : Element) :
  has_tag (lit "alias") x = true ->
  is_alias_named alias_name (rewrite_alias alias_name now devs x) = true.
Proof.
  intros H. unfold is_alias_named, has_tag.
  rewrite tag_rewrite_alias. fold (has_tag (lit "alias") x). rewrite H.
  unfold find_child, rewrite_alias. rewrite children_set_children.
  simpl. apply eqb_refl.
Qed.

Lemma canon_rewrite_alias (alias_name now : str) (devs : list Device)
  (x : Element) :
  canon (rewrite_alias alias_name now devs x) =
  Elem (tag x) (attrib x) (canon_text (text x))
       (map canon (alias_children alias_name now devs))
       (canon_text (tail x)).
Proof. destruct x; reflexivity. Qed.

Lemma first_children_get (tags : list str) (e : Element) (q : path) :
  first_children tags e = Some q -> exists c, get_at q e = Some c.
Proof.
  revert e q; induction tags as [|t tags IH]; intros e q; simpl.
  - intros E; inversion E. exists e. reflexivity.
  - destruct (index_where (has_tag t) (children e)) as [i|]; [|discriminate].
    destruct (nth_error (children e) i) as [c|] eqn:En; [|discriminate].
    destruct (first_children tags c) as [q'|] eqn:Eq; [|discriminate].
    intros E; inversion E; subst. simpl. rewrite En. apply (IH c q' Eq).
Qed.

(** After a rewriting of the section found, and the trip through the text
    of the document, the lookup finds the alias where it was written. *)
Lemma lookup_after_rewriting (alias_name now : str) (devs : list Device)
  (root S0 x : Element) (G : Element -> Element) (p : path) (j : nat) :
  alias_name <> [] ->
  find_aliases_section root = Some p ->
  get_at p root = Some S0 ->
  (forall y, tag (G y) = tag y) ->
  index_where (is_alias_named alias_name) (children (G S0)) = Some j ->
  nth_error (children (G S0)) j = Some (rewrite_alias alias_name now devs x) ->
  find_alias_by_name (canon (modify_at p G root)) alias_name = Some (p ++ [j]) /\
  get_at (p ++ [j]) (canon (modify_at p G root)) =
  Some (canon (rewrite_alias alias_name now devs x)).
Proof.
  intros Hne Hp Hs Hg Hj Hn.
  assert (Hsec : find_aliases_section (canon (modify_at p G root)) = Some p).
  { rewrite find_aliases_section_canon.
    apply find_aliases_section_modify; assumption. }
  assert (Hget : get_at p (canon (modify_at p G root)) = Some (canon (G S0))).
  { rewrite get_at_canon, get_at_modify_at, Hs. reflexivity. }
  split.
  - unfold find_alias_by_name. rewrite Hsec, Hget, children_canon.
    rewrite (index_where_map_invariant _ canon _
               (fun e => is_alias_named_canon alias_name e Hne)).
    rewrite Hj. reflexivity.
  - rewrite get_at_app, Hget. simpl. rewrite children_canon, nth_error_map, Hn.
    reflexivity.
Qed.

Lemma sections_after_rewriting (root : Element) (G : Element -> Element)
  (p : path) :
  find_aliases_section (ensure_sections root) = Some p ->
  (forall y, tag (G y) = tag y) ->
  ensure_sections (canon (modify_at p G (ensure_sections root))) =
  canon (modify_at p G (ensure_sections root)).
Proof.
  intros Hp Hg. destruct (ensure_sections_exist root) as [p0 Hp0].
  apply (ensure_sections_fixed _ p0).
  rewrite first_children_canon, first_children_modify; [exact Hp0|exact Hg|].
  apply find_aliases_section_length in Hp. exact Hp.
Qed.

(** An alias that the lookup finds is rewritten in place. *)
Lemma upsert_existing (alias_name u now : str) (devs : list Device)
  (d : Element) (q : path) :
  alias_name <> [] ->
  find_alias_by_name (ensure_sections d) alias_name = Some q ->
  exists e0,
    get_at q (ensure_sections d) = Some e0 /\
    let d' := canon (upsert_alias alias_name u now devs d) in
    find_alias_by_name d' alias_name = Some q /\
    get_at q d' = Some (canon (rewrite_alias alias_name now devs e0)) /\
    ensure_sections d' = d'.
Proof.
  intros Hne Hfind. unfold upsert_alias. rewrite Hfind.
  set (root1 := ensure_sections d) in *.
  unfold find_alias_by_name in Hfind.
  destruct (find_aliases_section root1) as [p|] eqn:Ep; [|discriminate].
  destruct (get_at p root1) as [S0|] eqn:Es; [|discriminate].
  destruct (index_where (is_alias_named alias_name) (children S0))
    as [i|] eqn:Ei; [|discriminate].
  inversion Hfind; subst q; clear Hfind.
  destruct (index_where_nth _ _ _ Ei) as [e0 [Hn He0]].
  assert (Ht : has_tag (lit "alias") e0 = true).
  { unfold is_alias_named in He0. apply andb_true_iff in He0. tauto. }
  exists e0. split; [rewrite get_at_app, Es; simpl; rewrite Hn; reflexivity|].
  set (R := rewrite_alias alias_name now devs).
  assert (Hg : forall y, tag (modify_at [i] R y) = tag y).
  { intros y. apply tag_modify_at. intros z. apply tag_rewrite_alias. }
  cbv zeta. rewrite modify_at_app.
  destruct (lookup_after_rewriting alias_name now devs root1 S0 e0
              (modify_at [i] R) p i Hne Ep Es Hg) as [H1 H2].
  - simpl. rewrite children_set_children.
    apply (index_where_update _ _ _ i e0 Ei Hn).
    apply is_alias_named_rewrite, Ht.
  - simpl. rewrite children_set_children.
    apply nth_error_update_nth_eq, Hn.
  - split; [exact H1|]. split; [exact H2|].
    apply sections_after_rewriting; assumption.
Qed.

(** Without an alias of the name, a new element is appended to the
    section, where the lookup finds it if it reads that section. *)
Lemma upsert_new (alias_name u now : str) (devs : list Device) (d : Element) :
  alias_name <> [] ->
  find_alias_by_name (ensure_sections d) alias_name = None ->
  lookup_reads_selected_section d ->
  let d' := canon (upsert_alias alias_name u now devs d) in
  exists q,
    find_alias_by_name d' alias_name = Some q /\
    get_at q d' =
    Some (canon (rewrite_alias alias_name now devs (new_alias u))) /\
    ensure_sections d' = d'.
Proof.
  intros Hne Hfind Hstd. unfold upsert_alias. rewrite Hfind.
  unfold lookup_reads_selected_section in Hstd.
  set (root1 := ensure_sections d) in *.
  destruct (ensure_sections_exist d) as [p Hp]. fold root1 in Hp.
  rewrite Hp in Hstd.
  destruct (first_children_get _ _ _ Hp) as [S0 Es].
  unfold find_alias_by_name in Hfind. rewrite Hstd, Es in Hfind.
  destruct (index_where (is_alias_named alias_name) (children S0))
    as [i|] eqn:Ei; [discriminate|].
  set (R := rewrite_alias alias_name now devs).
  cbv zeta. rewrite (in_aliases_modify _ _ _ Hp).
  assert (Hg : forall y, tag (append_child (R (new_alias u)) y) = tag y).
  { intros y. apply tag_set_children. }
  destruct (lookup_after_rewriting alias_name now devs root1 S0 (new_alias u)
              (append_child (R (new_alias u))) p (length (children S0))
              Hne Hstd Es Hg) as [H1 H2].
  - unfold append_child. rewrite children_set_children.
    rewrite (index_where_app_none _ _ _ Ei).
    unfold R. rewrite is_alias_named_rewrite; reflexivity.
  - unfold append_child. rewrite children_set_children.
    apply nth_error_app_last.
  - exists (p ++ [length (children S0)]).
    split; [exact H1|]. split; [exact H2|].
    apply sections_after_rewriting; assumption.
Qed.

(** C7 (as the code has it).  Two upserts in a row with the same device
    set, the second reading the document the first wrote: the lookup
    finds the alias after each, at the same place; the second keeps the
    tag, the attributes (the uuid), the text and the tail of the element
    and writes the same children but for the description, which carries
    the time of the run.  With the same clock reading the two subtrees
    are equal.  The premise: the alias exists before the first run, or
    the lookup reads the aliases section that the upsert selects. *)
Theorem upsert_twice (alias_name u1 u2 t1 t2 : str) (devs : list Device)
  (d0 : Element) :
  alias_name <> [] ->
  find_alias_by_name (ensure_sections d0) alias_name <> None \/
  lookup_reads_selected_section d0 ->
  let d1 := canon (upsert_alias alias_name u1 t1 devs d0) in
  let d2 := canon (upsert_alias alias_name u2 t2 devs d1) in
  exists e1 e2,
    alias_subtree d1 alias_name = Some e1 /\
    alias_subtree d2 alias_name = Some e2 /\
    find_alias_by_name d2 alias_name = find_alias_by_name d1 alias_name /\
    tag e2 = tag e1 /\ attrib e2 = attrib e1 /\
    text e2 = text e1 /\ tail e2 = tail e1 /\
    children e1 = map canon (alias_children alias_name t1 devs) /\
    children e2 = map canon (alias_children alias_name t2 devs) /\
    firstn 9 (children e2) = firstn 9 (children e1) /\
    (t1 = t2 -> e2 = e1).
Proof.
  intros Hne Hcase d1 d2.
  assert (First : exists q x,
             find_alias_by_name d1 alias_name = Some q /\
             get_at q d1 = Some (canon (rewrite_alias alias_name t1 devs x)) /\
             ensure_sections d1 = d1).
  { destruct (find_alias_by_name (ensure_sections d0) alias_name)
      as [q|] eqn:E.
    - destruct (upsert_existing alias_name u1 t1 devs d0 q Hne E)
        as [e0 [_ H]]. exists q, e0. exact H.
    - destruct Hcase as [Hc|Hc]; [congruence|].
      destruct (upsert_new alias_name u1 t1 devs d0 Hne E Hc) as [q H].
      exists q, (new_alias u1). exact H. }
  destruct First as [q [x [Hfind1 [Hget1 Hens]]]].
  set (e1 := canon (rewrite_alias alias_name t1 devs x)) in *.
  assert (Hfind1' : find_alias_by_name (ensure_sections d1) alias_name = Some q)
    by (rewrite Hens; exact Hfind1).
  destruct (upsert_existing alias_name u2 t2 devs d1 q Hne Hfind1')
    as [e1' [Hget1' [Hfind2 [Hget2 _]]]].
  fold d2 in Hfind2, Hget2.
  rewrite Hens, Hget1 in Hget1'. inversion Hget1'; subst e1'; clear Hget1'.
  exists e1, (canon (rewrite_alias alias_name t2 devs e1)).
  unfold alias_subtree. rewrite Hfind1, Hfind2.
  split; [exact Hget1|]. split; [exact Hget2|]. split; [reflexivity|].
  unfold e1. rewrite !canon_rewrite_alias. simpl.
  rewrite !canon_text_idem.
  repeat (split; [reflexivity|]).
  intros ->. reflexivity.
Qed.

(** Two runs, one second apart, on a document without alias sections. *)
Lemma upsert_twice_witness :
  exists e1 e2,
    alias_subtree
      (canon (upsert_alias ALIAS_NAME (lit "u-1") (lit "2025-01-01 12:00:00")
                [example_device] example_bare_root)) ALIAS_NAME = Some e1 /\
    alias_subtree
      (canon (upsert_alias ALIAS_NAME (lit "u-2") (lit "2025-01-01 12:00:01")
                [example_device]
                (canon (upsert_alias ALIAS_NAME (lit "u-1")
                          (lit "2025-01-01 12:00:00")
                          [example_device] example_bare_root))))
      ALIAS_NAME = Some e2 /\
    attrib e2 = attrib e1 /\
    firstn 9 (children e2) = firstn 9 (children e1).
Proof.
  destruct (upsert_twice ALIAS_NAME (lit "u-1") (lit "u-2")
              (lit "2025-01-01 12:00:00") (lit "2025-01-01 12:00:01")
              [example_device] example_bare_root)
    as [e1 [e2 [H1 [H2 [_ [_ [H5 [_ [_ [_ [_ [H9 _]]]]]]]]]]]].
  - discriminate.
  - right. vm_compute. reflexivity.
  - exists e1, e2. auto.
Defined.

(** The same on a document that holds the alias: its uuid stays. *)
Lemma upsert_twice_existing_alias :
  exists e1 e2,
    alias_subtree example_first_run ALIAS_NAME = Some e1 /\
    alias_subtree example_second_run ALIAS_NAME = Some e2 /\
    attrib e1 = [(lit "uuid", lit "a-1")] /\
    attrib e2 = [(lit "uuid", lit "a-1")].
Proof.
  eexists; eexists. vm_compute. repeat split; reflexivity.
Qed.

(** C7 fails as stated: one second later the second run writes another
    description, and the alias subtree is not what the first run left. *)
Lemma upsert_twice_counterexample :
  alias_subtree example_second_run ALIAS_NAME <>
  alias_subtree example_first_run ALIAS_NAME.
Proof. vm_compute. intros H. discriminate H. Qed.

(** Two spellings of one address, and a string with ten digits. *)
Lemma normalize_mac_canonical_witness :
  normalize_mac (lit "AA-BB-CC-DD-EE-FF") = Ok (lit "AA:BB:CC:DD:EE:FF") /\
  normalize_mac (lit "aa:bb:cc:dd:ee:ff") = Ok (lit "AA:BB:CC:DD:EE:FF") /\
  is_ok (normalize_mac (lit "AA-BB-CC-DD-EE")) = false.
Proof.
  destruct normalize_mac_canonical as [Hformats [_ Hfail]].
  destruct (Hformats xaa xbb xcc xdd xee xff) as [Hdash [_ Hcolon]].
  split; [exact Hdash|]. split; [exact Hcolon|].
  apply (proj2 (Hfail (lit "AA-BB-CC-DD-EE")
                  ltac:(repeat constructor; vm_compute; intuition discriminate))).
  vm_compute. discriminate.
Defined.

(* ================================================================== *)
(** * Further properties of the registry *)
(* ================================================================== *)

(** ** The shape of a canonical MAC *)

Lemma length_12 {A} (l : list A) :
  length l = 12 ->
  exists a b c d e f g h i j k m, l = [a; b; c; d; e; f; g; h; i; j; k; m].
Proof.
  intros H.
  do 12 (destruct l as [|? l]; [discriminate|]).
  destruct l; [|discriminate].
  repeat eexists.
Qed.

Lemma space_not_hex (c : char) : is_space c = true -> is_hex c = false.
Proof. intros H. char_prop. Qed.

(** A normalized MAC is six pairs of upper-case digits with colons. *)
Lemma normalize_mac_shape (raw m : str) :
  normalize_mac raw = Ok m ->
  exists clean,
    clean = filter is_hex (upper raw) /\ length clean = 12 /\
    forallb is_upper_hex clean = true /\ m = join [COLON] (pairs clean).
Proof.
  unfold normalize_mac.
  destruct (length (filter is_hex (upper raw)) =? 12) eqn:E; [|discriminate].
  simpl. rewrite clean_mac_is_upper_hex. simpl.
  intros H. inversion H. exists (filter is_hex (upper raw)).
  apply Nat.eqb_eq in E.
  rewrite clean_mac_is_upper_hex. auto.
Qed.

Lemma canonical_mac_facts (clean : str) :
  length clean = 12 -> forallb is_upper_hex clean = true ->
  let m := join [COLON] (pairs clean) in
  filter is_hex m = clean /\ upper m = m /\ length m = 17 /\
  forallb is_mac_char m = true.
Proof.
  intros Hlen Hhex.
  destruct (length_12 clean Hlen)
    as [a [b [c [d [e [f [g [h [i [j [k [m' ->]]]]]]]]]]]].
  simpl in Hhex. repeat (apply andb_true_iff in Hhex; destruct Hhex as [? Hhex]).
  assert (HC : upper_char COLON = [COLON]) by (vm_compute; reflexivity).
  cbn [pairs join app]. unfold is_mac_char.
  cbn [filter upper flat_map forallb length].
  rewrite HC.
  repeat match goal with
         | H : is_upper_hex ?x = true |- _ =>
             rewrite ?(upper_hex_is_hex x H), ?(upper_hex_fixed x H), ?H;
             clear H
         end.
  repeat split; reflexivity.
Qed.

Lemma pairs_join_injective (x y : str) :
  length x = 12 -> length y = 12 ->
  join [COLON] (pairs x) = join [COLON] (pairs y) -> x = y.
Proof.
  intros Hx Hy.
  destruct (length_12 x Hx) as [a [b [c [d [e [f [g [h [i [j [k [m ->]]]]]]]]]]]].
  destruct (length_12 y Hy)
    as [a' [b' [c' [d' [e' [f' [g' [h' [i' [j' [k' [m' ->]]]]]]]]]]]].
  cbn [pairs join app]. intros H. inversion H. reflexivity.
Qed.

(** X1.  A normalized MAC has 17 characters, upper-case hexadecimal
    digits and colons, and [normalize_mac] maps it to itself. *)
Theorem normalize_mac_idempotent (raw m : str) :
  normalize_mac raw = Ok m ->
  normalize_mac m = Ok m /\ length m = 17 /\ forallb is_mac_char m = true.
Proof.
  intros H. destruct (normalize_mac_shape raw m H) as [clean [_ [Hlen [Hhex ->]]]].
  destruct (canonical_mac_facts clean Hlen Hhex) as [Hf [Hu [Hl Hc]]].
  split; [|split; assumption].
  rewrite normalize_mac_ok; rewrite Hu, Hf; [reflexivity|exact Hlen].
Qed.

(** The normal form of a raw MAC written with dots. *)
Lemma normalize_mac_idempotent_witness :
  normalize_mac (lit "AA:BB:CC:DD:EE:02") = Ok (lit "AA:BB:CC:DD:EE:02") /\
  length (lit "AA:BB:CC:DD:EE:02") = 17 /\
  forallb is_mac_char (lit "AA:BB:CC:DD:EE:02") = true.
Proof.
  apply (normalize_mac_idempotent (lit "aabb.ccdd.ee02")). reflexivity.
Defined.

(** X2.  Two raw strings that normalize get the same canonical MAC
    exactly when their upper-cased forms hold the same hexadecimal
    digits; when neither holds a code point of [EXPANDING] (as every
    ASCII string), that is exactly when they hold the same hexadecimal
    digits up to case. *)
Theorem normalize_mac_same_digits (a b ma mb : str) :
  normalize_mac a = Ok ma -> normalize_mac b = Ok mb ->
  (ma = mb <-> filter is_hex (upper a) = filter is_hex (upper b)) /\
  (Forall (fun c => ~ In c EXPANDING) (a ++ b) ->
   (ma = mb <-> upper (filter is_hex a) = upper (filter is_hex b))).
Proof.
  intros Ha Hb.
  destruct (normalize_mac_shape a ma Ha) as [ca [Hca [Hla [_ ->]]]].
  destruct (normalize_mac_shape b mb Hb) as [cb [Hcb [Hlb [_ ->]]]].
  assert (A : join [COLON] (pairs ca) = join [COLON] (pairs cb) <-> ca = cb).
  { split; [apply pairs_join_injective; assumption|intros ->; reflexivity]. }
  split.
  - rewrite A, Hca, Hcb. tauto.
  - intros Hp. apply Forall_app in Hp. destruct Hp as [Pa Pb].
    rewrite A, Hca, Hcb, (filter_hex_upper a Pa), (filter_hex_upper b Pb).
    tauto.
Qed.

(** Two spellings of one address. *)
Lemma normalize_mac_same_digits_witness :
  (lit "AA:BB:CC:DD:EE:02" = lit "AA:BB:CC:DD:EE:02" <->
   upper (filter is_hex (lit "aabb.ccdd.ee02")) =
   upper (filter is_hex (lit "AA-BB-CC-DD-EE-02"))).
Proof.
  apply (normalize_mac_same_digits (lit "aabb.ccdd.ee02")
           (lit "AA-BB-CC-DD-EE-02") _ _ eq_refl eq_refl).
  repeat constructor; vm_compute; intuition discriminate.
Defined.

(** ** Cleaned names *)

Lemma strip_nil : strip [] = [].
Proof. reflexivity. Qed.

Lemma length_lstrip (s : str) : length (lstrip s) <= length s.
Proof.
  destruct (lstrip_spec s) as [w [H _]]. rewrite H at 2.
  rewrite length_app. lia.
Qed.

Lemma length_rstrip (s : str) : length (rstrip s) <= length s.
Proof.
  destruct (rstrip_spec s) as [w [H _]]. rewrite H at 2.
  rewrite length_app. lia.
Qed.

Lemma length_strip (s : str) : length (strip s) <= length s.
Proof.
  unfold strip. pose proof (length_rstrip (lstrip s)).
  pose proof (length_lstrip s). lia.
Qed.

Lemma validate_device_name_cases (n : str) :
  let clean := filter is_name_char (strip n) in
  validate_device_name n =
  if is_nil (strip n) then Raise EmptyName
  else if is_nil clean then Raise NoValidChars
       else Ok (firstn 50 clean).
Proof.
  intros clean. unfold validate_device_name. fold clean.
  destruct n as [|c n]; [reflexivity|]. cbn [is_nil orb].
  destruct (is_nil (strip (c :: n))); [reflexivity|].
  destruct clean as [|x clean'] eqn:E; [reflexivity|].
  cbn [is_nil]. replace (length (x :: clean') =? 0) with false by reflexivity.
  destruct (50 <? length (x :: clean')) eqn:L; [reflexivity|].
  apply Nat.ltb_ge in L. rewrite firstn_all2 by exact L. reflexivity.
Qed.

Lemma validate_device_name_fails (n : str) :
  is_ok (validate_device_name n) = false <->
  filter is_name_char (strip n) = [].
Proof.
  rewrite validate_device_name_cases.
  destruct (is_nil (strip n)) eqn:E.
  - apply is_nil_true in E. rewrite E. simpl. tauto.
  - destruct (filter is_name_char (strip n)); simpl; split; congruence.
Qed.

Lemma validate_device_name_ok (n clean : str) :
  validate_device_name n = Ok clean ->
  clean = firstn 50 (filter is_name_char (strip n)) /\
  1 <= length clean <= 50 /\
  forallb is_name_char clean = true.
Proof.
  rewrite validate_device_name_cases.
  destruct (is_nil (strip n)); [discriminate|].
  destruct (is_nil (filter is_name_char (strip n))) eqn:E; [discriminate|].
  intros H.
  assert (Hc : clean = firstn 50 (filter is_name_char (strip n)))
    by congruence.
  clear H. subst clean. split; [reflexivity|]. split.
  - rewrite length_firstn.
    destruct (filter is_name_char (strip n)); [discriminate|].
    cbn [length]. lia.
  - apply forallb_forall. intros c Hc.
    assert (Hin : In c (filter is_name_char (strip n))).
    { rewrite <- (firstn_skipn 50 (filter is_name_char (strip n))).
      apply in_or_app. left. exact Hc. }
    apply filter_In in Hin. tauto.
Qed.

(** A cleaned name without blanks at its ends is accepted as it is. *)
Lemma validate_clean_name (n clean : str) :
  validate_device_name n = Ok clean ->
  (forall again, validate_device_name clean = Ok again -> again = strip clean) /\
  (strip clean = clean -> validate_device_name clean = Ok clean).
Proof.
  intros H.
  destruct (validate_device_name_ok n clean H) as [_ [Hlen Hall]].
  assert (Hf : filter is_name_char (strip clean) = strip clean).
  { apply filter_all. intros c Hc. apply strip_incl in Hc.
    rewrite forallb_forall in Hall. apply Hall, Hc. }
  assert (Hs : length (strip clean) <= 50)
    by (pose proof (length_strip clean); lia).
  split.
  - intros again. rewrite validate_device_name_cases, Hf.
    destruct (is_nil (strip clean)); [discriminate|].
    intros E. rewrite firstn_all2 in E by exact Hs. congruence.
  - intros E. rewrite validate_device_name_cases, Hf, E.
    destruct clean as [|c r]; [simpl in Hlen; lia|]. cbn [is_nil].
    rewrite firstn_all2 by lia. reflexivity.
Qed.

(** X3.  [validate_device_name] raises exactly when the stripped name
    holds no character of the class it keeps; otherwise it returns the
    first 50 kept characters: between 1 and 50 characters, all of the
    class. *)
Theorem validate_device_name_result (n : str) :
  (is_ok (validate_device_name n) = false <->
   filter is_name_char (strip n) = []) /\
  (forall clean,
      validate_device_name n = Ok clean ->
      clean = firstn 50 (filter is_name_char (strip n)) /\
      1 <= length clean <= 50 /\
      forallb is_name_char clean = true).
Proof.
  split; [apply validate_device_name_fails|].
  intros clean. apply validate_device_name_ok.
Qed.

(** A name with forbidden characters and surrounding blanks. *)
Lemma validate_device_name_result_witness :
  lit "Kids Tablet" = firstn 50 (filter is_name_char (strip (lit "  Kid's Tablet! "))) /\
  1 <= length (lit "Kids Tablet") <= 50 /\
  forallb is_name_char (lit "Kids Tablet") = true.
Proof.
  apply (proj2 (validate_device_name_result (lit "  Kid's Tablet! "))).
  reflexivity.
Defined.

Lemma filter_all_true {A} (p : A -> bool) (l : list A) :
  forallb p l = true -> filter p l = l.
Proof.
  intros H. apply filter_all. apply forallb_forall. exact H.
Qed.

(** X4.  A cleaned name is accepted again, and unchanged, exactly when
    it has no blank at either end: validating it once more strips it. *)
Theorem validate_device_name_stable (n clean : str) :
  validate_device_name n = Ok clean ->
  (validate_device_name clean = Ok clean <-> strip clean = clean) /\
  (forall again, validate_device_name clean = Ok again -> again = strip clean).
Proof.
  intros H. destruct (validate_clean_name n clean H) as [Hagain Hfix].
  split; [|exact Hagain]. split; [|exact Hfix].
  intros E. symmetry. apply Hagain, E.
Qed.

(** The name [! a] is cleaned to [ a], which is cleaned to [a]. *)
Lemma validate_device_name_stable_witness :
  (validate_device_name (lit " a") = Ok (lit " a") <-> strip (lit " a") = lit " a") /\
  (forall again, validate_device_name (lit " a") = Ok again ->
                 again = strip (lit " a")).
Proof.
  apply (validate_device_name_stable (lit "! a")). reflexivity.
Defined.

(** ** Records read from the store *)

Lemma parse_line_fields (now : str) (k : nat) (l : str) (d : Device) :
  parse_line now k l = Some d ->
  normalize_mac (original_mac d) = Ok (mac d) /\
  (exists raw, validate_device_name raw = Ok (name d)) /\
  enabled d = true /\ line_number d = k /\ updated_date d = None /\
  added_date d = now.
Proof.
  unfold parse_line. destruct (is_nil (strip l)); [discriminate|].
  destruct (split TAB (strip l)) as [|p0 [|p1 rest]]; try discriminate.
  destruct (match split_once BAR p0 with Some _ => _ | None => _ end)
    as [device_id nm].
  destruct (normalize_mac p1) as [m|] eqn:Em; [|discriminate].
  destruct (validate_device_name nm) as [c|] eqn:Ec; [|discriminate].
  intros H; inversion H; subst; simpl.
  repeat split; try assumption; try reflexivity. exists nm. exact Ec.
Qed.

Lemma load_In (fs : FS) (d : Device) :
  In d (load_mac_addresses fs) ->
  exists k l, parse_line (now_iso fs) k l = Some d /\ ~ In LF l /\ ~ In CR l.
Proof.
  unfold load_mac_addresses, read_text.
  destruct (store fs) as [bytes|]; [|intros []].
  destruct (read_fails fs); [intros []|].
  intros H. destruct (parse_content_In _ _ _ H) as [k [l [Hl Hp]]].
  exists k, l. split; [exact Hp|].
  destruct (split_parts _ _ _ Hl) as [Hlf Hincl]. split; [exact Hlf|].
  intros Hc. apply (universal_newlines_no_cr bytes).
  apply strip_incl, Hincl, Hc.
Qed.

(** X5.  Every record that [load_mac_addresses] returns is well formed:
    its MAC is the normal form of its raw MAC (17 characters), its name
    has between 1 and 50 characters of the kept class, it is enabled and
    carries no update date, and neither field holds a line break or a
    tabulation. *)
Theorem loaded_device_well_formed (fs : FS) (d : Device) :
  In d (load_mac_addresses fs) ->
  normalize_mac (original_mac d) = Ok (mac d) /\
  length (mac d) = 17 /\
  1 <= length (name d) <= 50 /\
  forallb is_name_char (name d) = true /\
  enabled d = true /\ updated_date d = None /\
  line_safe (name d) /\ line_safe (original_mac d).
Proof.
  intros Hin. destruct (load_In fs d Hin) as [k [l [Hp [Hlf Hcr]]]].
  destruct (parse_line_fields _ _ _ _ Hp) as [Hm [[raw Hn] [He [_ [Hu _]]]]].
  destruct (parse_line_safe _ _ _ _ Hlf Hcr Hp) as [S1 S2].
  destruct (normalize_mac_shape _ _ Hm) as [clean [_ [Hlen [Hhex Hmac]]]].
  destruct (canonical_mac_facts clean Hlen Hhex) as [_ [_ [H17 _]]].
  destruct (validate_device_name_ok raw _ Hn) as [_ [Hl Hall]].
  split; [exact Hm|]. split; [rewrite Hmac; exact H17|].
  split; [exact Hl|]. split; [exact Hall|]. auto.
Qed.

(** The second record of the example store. *)
Lemma loaded_device_well_formed_witness :
  normalize_mac (lit "aa-bb-cc-dd-ee-02") = Ok (lit "AA:BB:CC:DD:EE:02") /\
  length (lit "AA:BB:CC:DD:EE:02") = 17.
Proof.
  pose (d2 := mkDevice 2 (lit "Console") (lit "AA:BB:CC:DD:EE:02")
                (lit "aa-bb-cc-dd-ee-02") true (lit "2025-01-01T12:00:00")
                2 None).
  destruct (loaded_device_well_formed example_fs d2) as [H1 [H2 _]].
  - vm_compute. right. left. reflexivity.
  - split; [exact H1|exact H2].
Defined.

(** ** Saving and loading *)

Lemma space_upper_not_hex (c : char) :
  is_space c = true -> filter is_hex (upper_char c) = [].
Proof.
  intros Hc.
  destruct (upper_char_hexless c (space_not_hex c Hc)) as [H|H]; [|exact H].
  exfalso. unfold EXPANDING in H. simpl in H. char_prop.
Qed.

Lemma blank_not_hex (w : str) : blank w -> filter is_hex (upper w) = [].
Proof.
  induction 1 as [|c w Hc _ IH]; [reflexivity|].
  change (upper (c :: w)) with (upper_char c ++ upper w).
  rewrite filter_app, (space_upper_not_hex c Hc), IH. reflexivity.
Qed.

Lemma filter_hex_rstrip (s : str) :
  filter is_hex (upper (rstrip s)) = filter is_hex (upper s).
Proof.
  destruct (rstrip_spec s) as [w [Hs Hw]]. rewrite Hs at 2.
  rewrite upper_app, filter_app, (blank_not_hex w Hw), app_nil_r.
  reflexivity.
Qed.

Lemma normalize_mac_rstrip (s m : str) :
  normalize_mac s = Ok m -> normalize_mac (rstrip s) = Ok m.
Proof.
  intros H. destruct (normalize_mac_shape s m H) as [clean [Hc [Hlen [_ ->]]]].
  subst clean.
  rewrite normalize_mac_ok; rewrite filter_hex_rstrip; [reflexivity|exact Hlen].
Qed.

Lemma rstrip_app_nonblank (a b : str) :
  rstrip b <> [] -> rstrip (a ++ b) = a ++ rstrip b.
Proof.
  intros H. unfold rstrip in *. rewrite rev_app_distr.
  rewrite lstrip_app_nonblank.
  - rewrite rev_app_distr, rev_involutive. reflexivity.
  - intros E. apply H. rewrite E. reflexivity.
Qed.

Lemma rstrip_nil_blank (s : str) : rstrip s = [] -> blank s.
Proof.
  intros H. destruct (rstrip_spec s) as [w [Hs Hw]].
  rewrite H in Hs. simpl in Hs. subst. exact Hw.
Qed.

(** The line written for a record is read back as [reread] says. *)
Lemma parse_line_render_exact (now : str) (k : nat) (d : Device) :
  line_safe (name d) -> line_safe (original_mac d) ->
  parse_line now k (render_line d) = reread now k d.
Proof.
  intros [_ [_ Htab]] [_ [_ Mtab]].
  destruct (render_line_shape d) as [c [s [Hs [Hc Hl]]]].
  pose proof (py_str_of_Z_chars (id d)) as Hchars.
  assert (Hplain : forall x, In x (py_str_of_Z (id d)) ->
                             x <> TAB /\ x <> BAR).
  { intros x Hx. rewrite Forall_forall in Hchars.
    destruct (sign_or_digit_plain x (Hchars x Hx)) as [_ [_ [? ?]]]. auto. }
  set (P := py_str_of_Z (id d) ++ BAR :: name d).
  assert (HP : ~ In TAB P).
  { unfold P. intros Hin. apply in_app_or in Hin. destruct Hin as [Hin|Hin].
    - destruct (Hplain _ Hin) as [Ht _]. congruence.
    - destruct Hin as [Hin|Hin]; [discriminate|tauto]. }
  assert (Hline : render_line d = (P ++ [TAB]) ++ (original_mac d ++ [TAB])).
  { unfold render_line, P. rewrite <- !app_assoc. reflexivity. }
  assert (Hstrip : strip (render_line d) = rstrip (render_line d)).
  { unfold strip. rewrite Hl, (lstrip_head c _ Hc). reflexivity. }
  assert (Htabblank : blank [TAB]) by (repeat constructor).
  unfold parse_line, reread. rewrite Hstrip, Hline.
  destruct (rstrip (original_mac d)) as [|r0 r] eqn:Er.
  - (* a blank raw MAC: the line has one field *)
    assert (Hb : blank (original_mac d ++ [TAB])).
    { apply blank_app; [apply rstrip_nil_blank, Er|exact Htabblank]. }
    rewrite rstrip_blank_app by exact Hb.
    rewrite rstrip_blank_app by exact Htabblank.
    replace (normalize_mac []) with (@Raise str (InvalidMacLength []))
      by reflexivity.
    destruct (is_nil (rstrip P)); [reflexivity|].
    rewrite split_no_sep; [reflexivity|].
    intros Hin. apply HP. apply rstrip_incl, Hin.
  - rewrite rstrip_app_nonblank
      by (rewrite rstrip_blank_app by exact Htabblank; rewrite Er; discriminate).
    rewrite rstrip_blank_app by exact Htabblank. rewrite Er.
    assert (Hr : ~ In TAB (r0 :: r)).
    { rewrite <- Er. intros Hin. apply Mtab, rstrip_incl, Hin. }
    replace (is_nil ((P ++ [TAB]) ++ r0 :: r)) with false
      by (destruct P; reflexivity).
    rewrite <- app_assoc. cbn [app].
    rewrite split_app_sep by exact HP.
    rewrite (split_no_sep TAB (r0 :: r) Hr).
    unfold P. rewrite split_once_app.
    2:{ intros Hin. destruct (Hplain _ Hin) as [_ Hb]. congruence. }
    rewrite py_int_of_str. reflexivity.
Qed.

Lemma parse_lines_render (now : str) (devices : list Device) (k : nat) :
  (forall d, In d devices ->
             line_safe (name d) /\ line_safe (original_mac d)) ->
  parse_lines now k (map render_line devices) = reread_list now k devices.
Proof.
  revert k; induction devices as [|d devices IH]; intros k H; [reflexivity|].
  simpl. destruct (H d (or_introl eq_refl)) as [Hn Hm].
  rewrite (parse_line_render_exact now k d Hn Hm).
  rewrite IH by (intros x Hx; apply H; right; exact Hx). reflexivity.
Qed.

Lemma parse_line_blank (now : str) (k : nat) (w : str) :
  blank w -> parse_line now k w = None.
Proof.
  intros H. rewrite <- (app_nil_l w), parse_line_blank_app by exact H.
  reflexivity.
Qed.

Lemma parse_lines_blank (now : str) (ls : list str) (k : nat) :
  Forall blank ls -> parse_lines now k ls = [].
Proof.
  intros H; revert k; induction H as [|w ls Hw _ IH]; intros k; simpl;
    [reflexivity|].
  rewrite (parse_line_blank now k w Hw). apply IH.
Qed.

Lemma parse_lines_glue_blank (now : str) (xs ys : list str) (k : nat) :
  xs <> [] -> Forall blank ys ->
  parse_lines now k (glue xs ys) = parse_lines now k xs.
Proof.
  revert k; induction xs as [|x xs IH]; intros k Hne Hys; [congruence|].
  destruct xs as [|x2 xs].
  - simpl. destruct Hys as [|y ys Hy Hys]; [reflexivity|].
    simpl. rewrite (parse_line_blank_app now k x y Hy).
    rewrite (parse_lines_blank now ys (S k) Hys).
    destruct (parse_line now k x); reflexivity.
  - change (glue (x :: x2 :: xs) ys) with (x :: glue (x2 :: xs) ys).
    simpl parse_lines at 1.
    rewrite IH by (discriminate || assumption).
    reflexivity.
Qed.

Lemma parse_lines_snoc_empty (now : str) (ls : list str) (k : nat) :
  parse_lines now k (ls ++ [[]]) = parse_lines now k ls.
Proof.
  revert k; induction ls as [|l ls IH]; intros k; simpl; [reflexivity|].
  rewrite IH. reflexivity.
Qed.

Lemma blank_split (sep : char) (w : str) :
  blank w -> Forall blank (split sep w).
Proof.
  intros Hw. apply Forall_forall. intros p Hp.
  destruct (split_parts _ _ _ Hp) as [_ Hi].
  unfold blank in *. rewrite Forall_forall in *. intros x Hx.
  apply Hw, Hi, Hx.
Qed.

(** Stripping a text that starts with its first line changes nothing for
    the parser: what is stripped at the end are blank lines and the blank
    end of the last line. *)
Lemma parse_content_unstripped (now text : str) :
  lstrip text = text ->
  parse_content now text = parse_lines now 1 (split LF text).
Proof.
  intros Hl.
  assert (Hpc : parse_content now text =
                parse_lines now 1 (split LF (strip text))).
  { unfold parse_content. destruct (strip text); reflexivity. }
  rewrite Hpc.
  assert (Hc : exists w, text = strip text ++ w /\ blank w).
  { unfold strip. rewrite Hl. apply rstrip_spec. }
  destruct Hc as [w [Hc Hw]].
  rewrite Hc at 2. rewrite split_app.
  rewrite parse_lines_glue_blank;
    [reflexivity|apply split_nonempty|apply blank_split, Hw].
Qed.

(** What is read from the text written for a list of records. *)
Lemma parse_content_render (now : str) (devices : list Device) :
  (forall d, In d devices -> enabled d = true ->
             line_safe (name d) /\ line_safe (original_mac d)) ->
  parse_content now (universal_newlines (render devices)) =
  reread_list now 1 (sorted_by_id (filter enabled devices)).
Proof.
  intros Hsafe. unfold render. rewrite filter_sorted_by_id.
  set (written := sorted_by_id (filter enabled devices)).
  assert (Hw : forall d, In d written ->
                         line_safe (name d) /\ line_safe (original_mac d)).
  { intros d Hd. apply (proj1 (In_sorted_by_id _ _)) in Hd.
    apply filter_In in Hd. destruct Hd. apply Hsafe; assumption. }
  set (lines := map render_line written).
  assert (Hchars : forall l x, In l lines -> In x l -> x <> LF /\ x <> CR).
  { intros l x Hl Hx. unfold lines in Hl. apply in_map_iff in Hl.
    destruct Hl as [e [<- He]]. destruct (Hw e He) as [Hn Hm].
    exact (render_line_safe e x Hn Hm Hx). }
  rewrite universal_newlines_id.
  2:{ intros Hin. apply in_app_or in Hin. destruct Hin as [Hin|Hin].
      - apply In_join in Hin. destruct Hin as [[Hin|[]]|[l [Hl Hx]]];
          [discriminate|].
        destruct (Hchars l CR Hl Hx) as [_ Hcr]. congruence.
      - destruct Hin as [Hin|[]]. discriminate. }
  destruct written as [|e0 written'] eqn:Ew; [reflexivity|].
  assert (Hne : lines <> []) by (unfold lines; discriminate).
  rewrite parse_content_unstripped.
  - rewrite <- (join_snoc_empty [LF] lines Hne).
    rewrite split_join.
    + rewrite parse_lines_snoc_empty. unfold lines.
      apply parse_lines_render. exact Hw.
    + destruct lines; discriminate.
    + intros x Hx Hin. apply in_app_or in Hx. destruct Hx as [Hx|[<-|[]]].
      * destruct (Hchars x LF Hx Hin) as [Hlf _]. congruence.
      * destruct Hin.
  - unfold lines.
    change (map render_line (e0 :: written'))
      with (render_line e0 :: map render_line written').
    destruct (render_line_shape e0) as [ch [s [_ [Hch Hline]]]].
    destruct (map render_line written'); simpl; rewrite Hline;
      apply lstrip_head, Hch.
Qed.

Lemma reread_tidy (now : str) (k : nat) (d : Device) :
  tidy d ->
  reread now k d =
  Some (mkDevice (id d) (name d) (mac d) (rstrip (original_mac d)) true now k
                 None).
Proof.
  intros [Hn [Hm _]]. unfold reread.
  rewrite (normalize_mac_rstrip _ _ Hm), Hn. reflexivity.
Qed.

Lemma reread_list_tidy (now : str) (devices : list Device) (k : nat) :
  (forall d, In d devices -> tidy d) ->
  map kept (reread_list now k devices) = map kept devices.
Proof.
  revert k; induction devices as [|d devices IH]; intros k H; [reflexivity|].
  simpl. rewrite (reread_tidy now k d) by (apply H; left; reflexivity).
  simpl. rewrite IH by (intros x Hx; apply H; right; exact Hx). reflexivity.
Qed.

Lemma load_after_save (devices : list Device) (fs fs' : FS) :
  save_mac_addresses devices fs = (true, fs') ->
  read_fails fs = false ->
  load_mac_addresses fs' =
  parse_content (now_iso fs) (universal_newlines (render devices)).
Proof.
  intros Hsave Hr.
  pose proof (save_true_writes _ _ _ Hsave) as Hstore.
  destruct (save_keeps_flags _ _ _ _ Hsave) as [Hr' Hnow].
  unfold load_mac_addresses, read_text. rewrite Hstore, Hr', Hr, Hnow.
  reflexivity.
Qed.

(** X6.  Saving and loading: when the enabled records of a list are
    tidy (clean name, MAC the normal form of the raw MAC, no line break
    or tabulation) and the save succeeds, the list read next is the
    enabled records in ascending order of id, each with its id, name and
    MAC. *)
Theorem save_then_load (devices : list Device) (fs fs' : FS) :
  (forall d, In d devices -> enabled d = true -> tidy d) ->
  save_mac_addresses devices fs = (true, fs') ->
  read_fails fs = false ->
  map kept (load_mac_addresses fs') =
  map kept (sorted_by_id (filter enabled devices)) /\
  StronglySorted id_le (sorted_by_id (filter enabled devices)).
Proof.
  intros Htidy Hsave Hr. split; [|apply sorted_by_id_sorted].
  rewrite (load_after_save _ _ _ Hsave Hr).
  rewrite parse_content_render.
  - apply reread_list_tidy. intros d Hd.
    apply (proj1 (In_sorted_by_id _ _)) in Hd.
    apply filter_In in Hd. destruct Hd. apply Htidy; assumption.
  - intros d Hd He. destruct (Htidy d Hd He) as [_ [_ [? ?]]]. auto.
Qed.

(** The three example records saved on the example store: the two
    enabled ones are read back, device 1 first. *)
Lemma save_then_load_witness :
  map kept (load_mac_addresses
              (snd (save_mac_addresses example_devices example_fs))) =
  [ (1%Z, lit "Kids Tablet", lit "AA:BB:CC:DD:EE:01");
    (3%Z, lit "Phone", lit "AA:BB:CC:DD:EE:03") ].
Proof.
  destruct (save_mac_addresses example_devices example_fs) as [ok fs'] eqn:E.
  assert (Hok : ok = true) by (vm_compute in E; congruence).
  subst ok.
  destruct (save_then_load example_devices example_fs fs') as [H _].
  - intros d [<-|[<-|[<-|[]]]] He; try discriminate He;
      (split; [reflexivity|split; [reflexivity|split; prove_line_safe]]).
  - exact E.
  - reflexivity.
  - exact H.
Defined.

(** ** What a failure leaves of the registry *)

(** A save that returns [False] leaves the store as it was, unless it
    is the write of the store that failed after the file was opened:
    then the store holds what was written of the new text. *)
Lemma save_false_cases (devices : list Device) (fs fs' : FS) :
  save_mac_addresses devices fs = (false, fs') ->
  (store fs' = store fs /\
   load_mac_addresses fs' = load_mac_addresses fs) \/
  (store_write_fails fs = true /\
   exists n, torn fs = Some n /\
             store fs' = Some (firstn n (render devices))).
Proof.
  unfold save_mac_addresses, write_backup, write_store, read_text.
  destruct (store fs) as [bytes|] eqn:Es.
  - destruct (read_fails fs) eqn:Er;
      [intros H; inversion H; subst; auto|].
    destruct (backup_write_fails fs) eqn:Eb;
      [intros H; inversion H; subst; auto|].
    cbn. destruct (store_write_fails fs); [|discriminate].
    destruct (torn fs) as [n|]; intros H; inversion H; subst.
    + right. split; [reflexivity|]. exists n. auto.
    + left. unfold load_mac_addresses, read_text. cbn. rewrite Es, Er. auto.
  - destruct (store_write_fails fs); [|discriminate].
    destruct (torn fs) as [n|]; intros H; inversion H; subst.
    + right. split; [reflexivity|]. exists n. auto.
    + left. auto.
Qed.

Lemma length_replace_at (i : nat) (d : Device) (l : list Device) :
  length (replace_at i d l) = length l.
Proof.
  revert i; induction l as [|x l IH]; intros [|i]; simpl; auto.
Qed.

(** X7.  [delete_device]: with no record under the id it raises
    [NotFound] and changes nothing; when it returns [True] no record read
    next carries the id, and every id read next was in the store before;
    when it returns [False] the store and what is read from it are
    unchanged, unless it is the write of the store that failed after the
    file was opened: then the store holds what was written of the new
    text, nothing when the write failed at once. *)
Theorem delete_device_result (device_id : Z) (fs : FS) :
  ((forall d, In d (load_mac_addresses fs) -> id d <> device_id) ->
   delete_device device_id fs = (Raise (NotFound device_id), fs)) /\
  (forall fs',
      delete_device device_id fs = (Ok true, fs') ->
      forall d, In d (load_mac_addresses fs') ->
                id d <> device_id /\
                exists e, In e (load_mac_addresses fs) /\ id e = id d) /\
  (forall fs',
      delete_device device_id fs = (Ok false, fs') ->
      (store fs' = store fs /\
       load_mac_addresses fs' = load_mac_addresses fs) \/
      (store_write_fails fs = true /\
       exists n,
         torn fs = Some n /\
         store fs' =
         Some (firstn n
                 (render (filter (fun d => negb (id d =? device_id)%Z)
                                 (load_mac_addresses fs)))))).
Proof.
  unfold delete_device.
  set (rest := filter (fun d => negb (id d =? device_id)%Z)
                      (load_mac_addresses fs)).
  split; [|split].
  - intros Habs.
    assert (E : rest = load_mac_addresses fs).
    { apply filter_all. intros x Hx.
      apply negb_true_iff, Z.eqb_neq, Habs, Hx. }
    rewrite E, Nat.eqb_refl. reflexivity.
  - intros fs'.
    destruct (length rest =? length (load_mac_addresses fs)); [discriminate|].
    destruct (save_mac_addresses rest fs) as [ok fs1] eqn:Hsave.
    intros H. inversion H; subst ok fs1; clear H.
    intros d Hd.
    pose proof (save_true_writes _ _ _ Hsave) as Hstore.
    destruct (save_keeps_flags _ _ _ _ Hsave) as [Hr Hnow].
    unfold load_mac_addresses, read_text in Hd. rewrite Hstore in Hd.
    destruct (read_fails fs'); [destruct Hd|].
    unfold render in Hd.
    assert (Hback : forall e, In e (filter enabled (sorted_by_id rest)) ->
                              In e (load_mac_addresses fs) /\ id e <> device_id).
    { intros e He. apply filter_In in He. destruct He as [He _].
      apply (proj1 (In_sorted_by_id _ _)) in He.
      apply filter_In in He. destruct He as [He Hne]. split; [exact He|].
      apply Z.eqb_neq, negb_true_iff, Hne. }
    destruct (reload_ids _ _ _
                (fun e He => proj2 (loaded_device fs e (proj1 (Hback e He))))
                Hd) as [e [He Hde]].
    destruct (Hback e He) as [Hin Hne].
    split; [rewrite Hde; exact Hne|exists e; auto].
  - intros fs'.
    destruct (length rest =? length (load_mac_addresses fs)); [discriminate|].
    destruct (save_mac_addresses rest fs) as [ok fs1] eqn:Hsave.
    intros H. inversion H; subst ok fs1; clear H.
    apply (save_false_cases _ _ _ Hsave).
Qed.

(** Device 1 of the example store is deleted; device 7 does not exist;
    on the disk where the writing fails at once the store is left
    empty. *)
Lemma delete_device_result_witness :
  delete_device 7 example_fs = (Raise (NotFound 7), example_fs) /\
  (forall d, In d (load_mac_addresses (snd (delete_device 1 example_fs))) ->
             id d <> 1%Z) /\
  store (snd (delete_device 1 example_fs_torn)) = Some [].
Proof.
  split; [|split].
  - apply (proj1 (delete_device_result 7 example_fs)).
    intros d Hd. vm_compute in Hd.
    destruct Hd as [<-|[<-|[]]]; discriminate.
  - destruct (delete_device 1 example_fs) as [r fs'] eqn:E.
    assert (Hr : r = Ok true) by (vm_compute in E; congruence). subst r.
    intros d Hd.
    apply (proj1 (proj2 (delete_device_result 1 example_fs)) fs' E d Hd).
  - destruct (delete_device 1 example_fs_torn) as [r fs'] eqn:E.
    assert (Hr : r = Ok false) by (vm_compute in E; congruence). subst r.
    destruct (proj2 (proj2 (delete_device_result 1 example_fs_torn)) fs' E)
      as [[Hs _]|[_ [n [Hn Hs]]]].
    + exfalso. vm_compute in E. injection E as <-. discriminate Hs.
    + injection Hn as <-. exact Hs.
Defined.

(** X8.  [add_device]: unless the exception is the [RuntimeError] of a
    failed save, a call that raises leaves the file system untouched;
    when the save failed, the store and what is read from it are what
    they were, unless it is the write of the store that failed after the
    file was opened: then the store holds what was written of the text
    of the old list followed by the new record.  When the call returns,
    the store holds that text, and the record carries the cleaned name,
    the normalized MAC and the raw MAC as given. *)
Theorem add_device_effect (name0 mac0 : str) (fs fs' : FS) :
  (forall e,
      add_device name0 mac0 fs = (Raise e, fs') ->
      (e <> SaveFailed -> fs' = fs) /\
      ((store fs' = store fs /\
        load_mac_addresses fs' = load_mac_addresses fs) \/
       (e = SaveFailed /\ store_write_fails fs = true /\
        exists n dev,
          torn fs = Some n /\
          validate_device_name name0 = Ok (name dev) /\
          normalize_mac mac0 = Ok (mac dev) /\
          original_mac dev = mac0 /\
          store fs' =
          Some (firstn n (render (load_mac_addresses fs ++ [dev])))))) /\
  (forall dev,
      add_device name0 mac0 fs = (Ok dev, fs') ->
      store fs' = Some (render (load_mac_addresses fs ++ [dev])) /\
      validate_device_name name0 = Ok (name dev) /\
      normalize_mac mac0 = Ok (mac dev) /\
      original_mac dev = mac0 /\ enabled dev = true).
Proof.
  unfold add_device.
  destruct (validate_device_name name0) as [clean|e1];
    [|split; intros x H; inversion H; subst; auto].
  destruct (normalize_mac mac0) as [m|e2];
    [|split; intros x H; inversion H; subst; auto].
  destruct (check_duplicates _ _ _) as [e3|];
    [split; intros x H; inversion H; subst; auto|].
  destruct (save_mac_addresses _ fs) as [[] fs1] eqn:Hsave; split;
    intros x H; inversion H; subst.
  - pose proof (save_true_writes _ _ _ Hsave). simpl. auto.
  - split; [intros Hn; exfalso; apply Hn; reflexivity|].
    destruct (save_false_cases _ _ _ Hsave) as [Hl|[Hw [n [Hn Hs]]]];
      [left; exact Hl|].
    right. split; [reflexivity|]. split; [exact Hw|].
    eexists n, _. split; [exact Hn|].
    split; [|split; [|split; [|exact Hs]]]; reflexivity.
Qed.

(** Adding to the example store a device whose MAC is taken, and one
    that is new. *)
Lemma add_device_effect_witness :
  (snd (add_device (lit "Phone") (lit "aabbccddee01") example_fs)
   = example_fs) /\
  (exists dev,
     fst (add_device (lit "Phone") (lit "aabbccddee03") example_fs) = Ok dev /\
     mac dev = lit "AA:BB:CC:DD:EE:03").
Proof.
  split.
  - destruct (add_device (lit "Phone") (lit "aabbccddee01") example_fs)
      as [[dev|e] fs'] eqn:E; [vm_compute in E; discriminate|].
    apply (proj1 (proj1 (add_device_effect _ _ example_fs fs') e E)).
    vm_compute in E. congruence.
  - destruct (add_device (lit "Phone") (lit "aabbccddee03") example_fs)
      as [[dev|e] fs'] eqn:E; [|vm_compute in E; discriminate].
    exists dev. split; [reflexivity|].
    destruct (proj2 (add_device_effect _ _ example_fs fs') dev E)
      as [_ [_ [Hm _]]].
    assert (Hn : normalize_mac (lit "aabbccddee03")
                 = Ok (lit "AA:BB:CC:DD:EE:03")) by reflexivity.
    rewrite Hn in Hm. injection Hm as Hm. symmetry. exact Hm.
Defined.

(** X9.  [update_device]: with no record under the id it raises
    [NotFound]; unless the exception is the [RuntimeError] of a failed
    save, a call that raises leaves the file system untouched; when the
    save failed, the store and what is read from it are what they were,
    unless it is the write of the store that failed after the file was
    opened: then the store holds what was written of the text of a list
    as long as the one read. *)
Theorem update_device_failure (device_id : Z) (name0 mac0 : option str)
  (enabled0 : option bool) (fs : FS) :
  ((forall d, In d (load_mac_addresses fs) -> id d <> device_id) ->
   update_device device_id name0 mac0 enabled0 fs
   = (Raise (NotFound device_id), fs)) /\
  (forall e fs',
      update_device device_id name0 mac0 enabled0 fs = (Raise e, fs') ->
      (e <> UpdateSaveFailed -> fs' = fs) /\
      ((store fs' = store fs /\
        load_mac_addresses fs' = load_mac_addresses fs) \/
       (e = UpdateSaveFailed /\ store_write_fails fs = true /\
        exists n devices',
          torn fs = Some n /\
          length devices' = length (load_mac_addresses fs) /\
          store fs' = Some (firstn n (render devices'))))).
Proof.
  unfold update_device. split.
  - intros Habs.
    rewrite (proj2 (find_device_none device_id (load_mac_addresses fs)) Habs).
    reflexivity.
  - intros e fs'.
    destruct (find_device device_id (load_mac_addresses fs)) as [[i d]|];
      [|intros H; inversion H; subst; auto].
    destruct (match name0 with Some _ => _ | None => _ end)
      as [[d1 l1]|e1] eqn:En; [|intros H; inversion H; subst; auto].
    assert (L1 : length l1 = length (load_mac_addresses fs)).
    { destruct name0 as [n0|]; [|inversion En; reflexivity].
      destruct (validate_device_name n0); [|discriminate].
      destruct (name_conflict _ _ _); [discriminate|].
      inversion En. apply length_replace_at. }
    destruct (match mac0 with Some _ => _ | None => _ end)
      as [[d2 l2]|e2] eqn:Em; [|intros H; inversion H; subst; auto].
    assert (L2 : length l2 = length (load_mac_addresses fs)).
    { destruct mac0 as [m0|]; [|inversion Em; subst; exact L1].
      destruct (normalize_mac m0); [|discriminate].
      destruct (mac_conflict _ _ _); [discriminate|].
      inversion Em. rewrite length_replace_at. exact L1. }
    destruct (save_mac_addresses _ fs) as [[] fs1] eqn:Hsave;
      intros H; inversion H; subst.
    split; [intros Hn; exfalso; apply Hn; reflexivity|].
    destruct (save_false_cases _ _ _ Hsave) as [Hl|[Hw [n [Hn Hs]]]];
      [left; exact Hl|].
    right. split; [reflexivity|]. split; [exact Hw|].
    eexists n, _. split; [exact Hn|]. split; [|exact Hs].
    rewrite length_replace_at. exact L2.
Qed.

(** Device 2 of the example store is given an invalid MAC; device 7 does
    not exist. *)
Lemma update_device_failure_witness :
  update_device 7 None None (Some false) example_fs
  = (Raise (NotFound 7), example_fs) /\
  snd (update_device 2 None (Some (lit "AA:BB")) None example_fs) = example_fs.
Proof.
  split.
  - apply (proj1 (update_device_failure 7 None None (Some false) example_fs)).
    intros d Hd. vm_compute in Hd.
    destruct Hd as [<-|[<-|[]]]; discriminate.
  - destruct (update_device 2 None (Some (lit "AA:BB")) None example_fs)
      as [[dev|e] fs'] eqn:E; [vm_compute in E; discriminate|].
    apply (proj1 (proj2 (update_device_failure 2 None (Some (lit "AA:BB")) None
                           example_fs) e fs' E)).
    vm_compute in E. congruence.
Defined.

(** Adding a fourth device to a store of ids 1 and 2. *)
Lemma add_device_assigns_next_id_witness :
  exists dev,
    fst (add_device (lit "Phone") (lit "aabbccddee03") example_fs) = Ok dev /\
    id dev = 3%Z.
Proof.
  destruct (add_device (lit "Phone") (lit "aabbccddee03") example_fs)
    as [[dev|e] fs'] eqn:E; [|vm_compute in E; discriminate].
  exists dev. split; [reflexivity|].
  destruct (add_device_assigns_next_id _ _ _ _ _ E) as [H _].
  vm_compute in H. exact H.
Defined.

(** ** Reading back an added device *)

Lemma reread_list_In (now : str) (devices : list Device) (k : nat) (y : Device) :
  In y (reread_list now k devices) ->
  exists e k', In e devices /\ reread now k' e = Some y.
Proof.
  revert k; induction devices as [|d devices IH]; simpl; intros k H;
    [destruct H|].
  destruct (reread now k d) as [x|] eqn:E.
  - destruct H as [<-|H].
    + exists d, k. auto.
    + destruct (IH _ H) as [e [k' [H1 H2]]]. exists e, k'. auto.
  - destruct (IH _ H) as [e [k' [H1 H2]]]. exists e, k'. auto.
Qed.

Lemma reread_id (now : str) (k : nat) (e y : Device) :
  reread now k e = Some y -> id y = id e.
Proof.
  unfold reread. destruct (normalize_mac _); [|discriminate].
  destruct (validate_device_name _); [|discriminate].
  intros H; inversion H; reflexivity.
Qed.

Lemma reread_list_has (now : str) (devices : list Device) (k : nat)
  (e : Device) :
  In e devices -> tidy e ->
  exists y, In y (reread_list now k devices) /\ kept y = kept e.
Proof.
  revert k; induction devices as [|d devices IH]; intros k Hin Ht;
    [destruct Hin|].
  simpl. destruct Hin as [->|Hin].
  - rewrite (reread_tidy now k e Ht). eexists. split; [left; reflexivity|].
    reflexivity.
  - destruct (IH (S k) Hin Ht) as [y [Hy Hk]].
    exists y. split; [|exact Hk].
    destruct (reread now k d); [right|]; exact Hy.
Qed.

(** X10.  A device that [add_device] returns is found under its id: when
    the name and the MAC given hold neither line break nor tabulation,
    the cleaned name has no blank at either end and the store can be
    read, [get_device] with the new id returns a record with the cleaned
    name and the normalized MAC. *)
Theorem add_then_get_device (name0 mac0 : str) (fs fs' : FS) (dev : Device) :
  add_device name0 mac0 fs = (Ok dev, fs') ->
  line_safe name0 -> line_safe mac0 ->
  strip (name dev) = name dev ->
  read_fails fs = false ->
  exists d, get_device (id dev) fs' = Some d /\ kept d = kept dev.
Proof.
  intros Hadd Sn Sm Hstrip Hr.
  pose proof (add_device_assigns_next_id _ _ _ _ _ Hadd) as [_ [_ Hfresh]].
  revert Hadd. unfold add_device.
  destruct (validate_device_name name0) as [clean|] eqn:Hn; [|discriminate].
  destruct (normalize_mac mac0) as [m|] eqn:Hm; [|discriminate].
  destruct (check_duplicates _ _ _); [discriminate|].
  destruct (save_mac_addresses _ fs) as [[] fs1] eqn:Hsave; [|discriminate].
  intros H. inversion H; subst fs1. clear H.
  set (new := mkDevice (max_id (load_mac_addresses fs) + 1) clean m mac0 true
                       (now_iso fs) (length (load_mac_addresses fs) + 1) None)
    in *.
  assert (Hdev : dev = new) by congruence. subst dev.
  assert (Htidy : tidy new).
  { unfold tidy. simpl. split.
    - apply (proj2 (validate_clean_name name0 clean Hn)). exact Hstrip.
    - split; [exact Hm|]. split; [|exact Sm].
      pose proof (validate_device_name_incl _ _ Hn) as Hi.
      destruct Sn as [A [B C]]. unfold line_safe.
      repeat split; intros Hc; [apply A|apply B|apply C]; apply Hi, Hc. }
  assert (Hload : load_mac_addresses fs' =
                  reread_list (now_iso fs) 1
                    (sorted_by_id (filter enabled
                                     (load_mac_addresses fs ++ [new])))).
  { rewrite (load_after_save _ _ _ Hsave Hr). apply parse_content_render.
    intros d Hd _. apply in_app_or in Hd. destruct Hd as [Hd|[<-|[]]].
    - apply (proj2 (loaded_device fs d Hd)).
    - destruct Htidy as [_ [_ [? ?]]]. auto. }
  assert (Hin : In new (sorted_by_id (filter enabled
                                        (load_mac_addresses fs ++ [new])))).
  { apply In_sorted_by_id, filter_In. split; [|reflexivity].
    apply in_or_app. right. left. reflexivity. }
  destruct (reread_list_has (now_iso fs) _ 1 new Hin Htidy) as [y [Hy Hk]].
  unfold get_device. rewrite Hload.
  destruct (find_device (id new) _) as [[i d]|] eqn:Ef.
  - exists d. split; [reflexivity|].
    destruct (find_device_spec _ _ _ _ Ef) as [_ [Hid Hd]].
    destruct (reread_list_In _ _ _ _ Hd) as [e [k' [He Hre]]].
    apply (proj1 (In_sorted_by_id _ _)) in He.
    apply filter_In in He. destruct He as [He _].
    apply in_app_or in He. destruct He as [He|[<-|[]]].
    + exfalso. pose proof (Hfresh e He) as Hlt.
      rewrite <- (reread_id _ _ _ _ Hre), Hid in Hlt. lia.
    + rewrite (reread_tidy _ _ _ Htidy) in Hre. inversion Hre. reflexivity.
  - exfalso.
    apply (proj1 (find_device_none _ _) Ef y Hy).
    unfold kept in Hk. congruence.
Qed.

(** A phone added to the example store is device 3. *)
Lemma add_then_get_device_witness :
  exists d,
    get_device 3 (snd (add_device (lit "My Phone!") (lit "aabb.ccdd.ee03")
                         example_fs)) = Some d /\
    name d = lit "My Phone" /\ mac d = lit "AA:BB:CC:DD:EE:03".
Proof.
  destruct (add_device (lit "My Phone!") (lit "aabb.ccdd.ee03") example_fs)
    as [[dev|e] fs'] eqn:E; [|vm_compute in E; discriminate].
  assert (Hdev : kept dev = (3%Z, lit "My Phone", lit "AA:BB:CC:DD:EE:03")).
  { assert (F : fst (add_device (lit "My Phone!") (lit "aabb.ccdd.ee03")
                       example_fs) = Ok dev) by (rewrite E; reflexivity).
    vm_compute in F. injection F as <-. reflexivity. }
  destruct (add_then_get_device _ _ _ _ _ E) as [d [Hg Hk]].
  - prove_line_safe.
  - prove_line_safe.
  - injection Hdev as _ Hn _. rewrite Hn. reflexivity.
  - reflexivity.
  - exists d. unfold kept in Hdev, Hk.
    injection Hdev as Hi Hn Hm. injection Hk as Ki Kn Km.
    rewrite Hi in Hg. rewrite Kn, Km, Hn, Hm.
    split; [exact Hg|]. split; reflexivity.
Defined.

(** ** Import and export *)

Lemma split_with_sep (sep : char) (s : str) :
  existsb (fun c => eqb_char c sep) s = true ->
  exists a b rest, split sep s = a :: b :: rest.
Proof.
  induction s as [|c s IH]; simpl; [discriminate|].
  destruct (eqb_char c sep); simpl.
  - intros _. destruct (split sep s) as [|w ws] eqn:E.
    + exfalso. exact (split_nonempty sep s E).
    + exists [], w, ws. reflexivity.
  - intros H. destruct (IH H) as [a [b [rest ->]]].
    exists (c :: a), b, rest. reflexivity.
Qed.

Lemma import_fields_two (line : str) : import_fields line <> Some None.
Proof.
  unfold import_fields.
  destruct (existsb (fun c => eqb_char c TAB) line) eqn:Et.
  - destruct (split_with_sep _ _ Et) as [a [b [rest ->]]]. discriminate.
  - destruct (existsb (fun c => eqb_char c COMMA) line) eqn:Ec;
      [|discriminate].
    destruct (split_with_sep _ _ Ec) as [a [b [rest ->]]]. discriminate.
Qed.

Lemma import_lines_counts (lines : list str) (line_num : nat) (fs : FS)
  (added_count : nat) (errors : list (nat * ImportIssue)) :
  Forall (fun e => fst e < line_num) errors ->
  let r := fst (import_lines line_num lines fs added_count errors) in
  fst r + length (snd r) =
    added_count + length errors +
    length (filter (fun l => negb (is_nil (strip l))) lines) /\
  Forall (fun e => fst e < line_num + length lines) (snd r).
Proof.
  revert line_num fs added_count errors.
  induction lines as [|line rest IH]; intros line_num fs added_count errors He.
  - simpl. split; [lia|]. rewrite Nat.add_0_r. exact He.
  - assert (He' : Forall (fun e => fst e < S line_num) errors).
    { eapply Forall_impl; [|exact He]. simpl. intros; lia. }
    assert (Hs : forall issue,
               Forall (fun e => fst e < S line_num)
                      (errors ++ [(line_num, issue)])).
    { intros issue. apply Forall_app. split; [exact He'|].
      constructor; [simpl; lia|constructor]. }
    cbn [import_lines filter length].
    replace (line_num + S (length rest)) with (S line_num + length rest)
      by lia.
    destruct (is_nil (strip line)) eqn:En; cbn [negb].
    + apply IH. exact He'.
    + destruct (import_fields (strip line)) as [[[name0 mac0]|]|] eqn:Ef.
      * destruct (add_device name0 mac0 fs) as [[dev|e] fs'].
        -- destruct (IH (S line_num) fs' (S added_count) errors He')
             as [H1 H2].
           split; [|exact H2]. rewrite H1. cbn [length]. lia.
        -- destruct (IH (S line_num) fs' added_count _ (Hs (AddFailed e)))
             as [H1 H2].
           split; [|exact H2]. rewrite H1, length_app. cbn [length]. lia.
      * exfalso. exact (import_fields_two _ Ef).
      * destruct (IH (S line_num) fs added_count _ (Hs Unrecognized))
          as [H1 H2].
        split; [|exact H2]. rewrite H1, length_app. cbn [length]. lia.
Qed.

(** X11.  [import_from_text] accounts for every line that is not blank:
    the number of devices it reports as added plus the number of errors
    it reports is the number of non-blank lines of the text, and every
    error carries the number, counted from 1, of a line of the text. *)
Theorem import_from_text_counts (text_content : str) (fs : FS) :
  let r := fst (import_from_text text_content fs) in
  fst r + length (snd r) =
    length (filter (fun l => negb (is_nil (strip l)))
                   (split LF text_content)) /\
  Forall (fun e => 1 <= fst e <= length (split LF text_content)) (snd r).
Proof.
  unfold import_from_text.
  assert (H0 : Forall (fun e : nat * ImportIssue => fst e < 1) [])
    by constructor.
  pose proof (import_lines_counts (split LF text_content) 1 fs 0 [] H0)
    as [H1 H2].
  cbv zeta. split; [rewrite H1; reflexivity|].
  assert (Hlow : forall lines n fs a errs,
             Forall (fun e : nat * ImportIssue => 1 <= fst e) errs -> 1 <= n ->
             Forall (fun e => 1 <= fst e)
                    (snd (fst (import_lines n lines fs a errs)))).
  { induction lines as [|l ls IH]; intros n fs0 a errs He Hn; [exact He|].
    cbn [import_lines].
    assert (Hs : forall issue,
               Forall (fun e : nat * ImportIssue => 1 <= fst e)
                      (errs ++ [(n, issue)])).
    { intros issue. apply Forall_app. split; [exact He|].
      constructor; [exact Hn|constructor]. }
    destruct (is_nil (strip l)); [apply IH; [exact He|lia]|].
    destruct (import_fields (strip l)) as [[[name0 mac0]|]|].
    - destruct (add_device name0 mac0 fs0) as [[dev|e] fs'];
        apply IH; auto; lia.
    - apply IH; [exact He|lia].
    - apply IH; [apply Hs|lia]. }
  pose proof (Hlow (split LF text_content) 1 fs 0 [] (Forall_nil _)
                   (le_n 1)) as H3.
  rewrite Forall_forall in *. intros e Hin.
  specialize (H2 e Hin). specialize (H3 e Hin). simpl in H2. lia.
Qed.

Lemma mac_char_no_line_feed (m : str) :
  forallb is_mac_char m = true -> ~ In LF m.
Proof.
  intros H Hin. rewrite forallb_forall in H. specialize (H LF Hin).
  discriminate H.
Qed.

Lemma loaded_mac_canonical (fs : FS) (d : Device) :
  In d (load_mac_addresses fs) ->
  length (mac d) = 17 /\ forallb is_mac_char (mac d) = true.
Proof.
  intros Hin. destruct (load_In fs d Hin) as [k [l [Hp _]]].
  destruct (parse_line_fields _ _ _ _ Hp) as [Hm _].
  destruct (normalize_mac_shape _ _ Hm) as [clean [_ [Hlen [Hhex Hmac]]]].
  destruct (canonical_mac_facts clean Hlen Hhex) as [_ [_ [Hl Hc]]].
  rewrite Hmac. auto.
Qed.

(** X12.  What [export_for_opnsense] hands over: the enabled devices are
    all the devices that [load_mac_addresses] returns; each exported MAC
    has 17 characters, upper-case hexadecimal digits and colons; and
    when there is a device, splitting the exported content at line feeds
    gives back exactly the MACs of the exported devices, in order. *)
Theorem export_content_lines (fs : FS) :
  get_enabled_devices fs <> [] ->
  let e := export_for_opnsense fs in
  export_devices e = get_all_devices fs /\
  split LF (export_content e) = map mac (export_devices e) /\
  Forall (fun m => length m = 17 /\ forallb is_mac_char m = true)
         (map mac (export_devices e)).
Proof.
  intros Hne. cbv zeta. unfold export_for_opnsense. cbn [export_devices export_content].
  assert (Hall : get_enabled_devices fs = load_mac_addresses fs).
  { unfold get_enabled_devices. apply filter_all.
    intros d Hd. apply (proj1 (loaded_device fs d Hd)). }
  assert (Hmacs : Forall (fun m => length m = 17 /\
                                   forallb is_mac_char m = true)
                         (map mac (get_enabled_devices fs))).
  { rewrite Hall. apply Forall_forall. intros m Hm.
    apply in_map_iff in Hm. destruct Hm as [d [<- Hd]].
    apply (loaded_mac_canonical fs d Hd). }
  split; [exact Hall|]. split; [|exact Hmacs].
  unfold generate_opnsense_alias_content. apply split_join.
  - intros E. apply Hne. destruct (get_enabled_devices fs); [reflexivity|].
    discriminate E.
  - intros m Hm. rewrite Forall_forall in Hmacs.
    apply mac_char_no_line_feed, (proj2 (Hmacs m Hm)).
Qed.

(** The export of the example store lists its two devices. *)
Lemma export_content_lines_witness :
  split LF (export_content (export_for_opnsense example_fs)) =
    [lit "AA:BB:CC:DD:EE:01"; lit "AA:BB:CC:DD:EE:02"].
Proof.
  rewrite (proj1 (proj2 (export_content_lines example_fs
                           ltac:(vm_compute; discriminate)))).
  reflexivity.
Defined.

(** ** The transport when a call fails *)

(** X13.  When the copy of the new document or its move into place
    fails, [apply_config_xml] returns [False] and stops there: the
    remote configuration and its backups are as before, and the only
    transport calls made are the copy and, when the copy succeeded, the
    move; no reload command is sent. *)
Theorem apply_push_failure (x : XmlText) (w : Remote) :
  succeeds w (trace w) (Scp x) = false \/
  succeeds w (trace w ++ [Scp x]) (Ssh MvNewConfig) = false ->
  let r := apply_config_xml x w in
  fst r = false /\
  conf (snd r) = conf w /\
  conf_backups (snd r) = conf_backups w /\
  trace (snd r) =
    trace w ++ Scp x :: (if succeeds w (trace w) (Scp x)
                         then [Ssh MvNewConfig] else []).
Proof.
  intros H. run_remote.
  destruct (succeeds w (trace w) (Scp x)) eqn:Ea; cbn.
  - destruct H as [H|H]; [discriminate|]. rewrite H. cbn.
    rewrite <- app_assoc. auto.
  - auto.
Qed.

(** On the example host with a transport on which the move fails. *)
Lemma apply_push_failure_witness :
  let w := mkRemote (Doc example_root) None [] []
                    (fun _ ev => match ev with
                                 | Ssh MvNewConfig => false
                                 | _ => true
                                 end)
                    (lit "20250101_120000") (lit "2025-01-01 12:00:00")
                    (lit "11111111-2222-4333-8444-555555555555") [] in
  let r := apply_config_xml (Doc example_bare_root) w in
  fst r = false /\ conf (snd r) = Doc example_root /\
  trace (snd r) = [Scp (Doc example_bare_root); Ssh MvNewConfig].
Proof.
  intros w.
  destruct (apply_push_failure (Doc example_bare_root) w
              (or_intror eq_refl)) as [H1 [H2 [_ H4]]].
  split; [exact H1|]. split; [exact H2|exact H4].
Defined.

(** X14.  [get_parental_control_status] only reads: whatever the state
    of the remote host and of the transport, the configuration, the
    temporary file and the backups are left as they were and the single
    transport call made is the reading of the configuration.  It reports
    an error exactly when that reading fails or the text read is not a
    well-formed document. *)
Theorem status_is_read_only (fs : FS) (w : Remote) :
  let r := get_parental_control_status fs w in
  conf (snd r) = conf w /\
  tmp_new (snd r) = tmp_new w /\
  conf_backups (snd r) = conf_backups w /\
  trace (snd r) = trace w ++ [Ssh CatConfig] /\
  (fst r = StatusError <->
   succeeds w (trace w) (Ssh CatConfig) = false \/ fromstring (conf w) = None).
Proof.
  unfold get_parental_control_status, get_config_xml, bind, ssh_command,
    print, ret. cbn.
  destruct (succeeds w (trace w) (Ssh CatConfig)); cbn.
  - destruct (conf w) as [root|s] eqn:Ec; cbn.
    + destruct (rule_status root) as [ex en]. cbn.
      do 4 (split; [auto|]).
      split; [intros H; discriminate H|intros [H|H]; discriminate H].
    + destruct (negb (is_nil (strip s))); cbn;
        do 4 (split; [auto|]); split; auto.
  - do 4 (split; [auto|]). split; auto.
Qed.

Lemma rule_missing_toggle (enable : bool) (root : Element) :
  fst (rule_status root) = false ->
  toggle_rule enable root = NoFilterSection \/
  toggle_rule enable root = RuleNotFound.
Proof.
  unfold rule_status, toggle_rule, find_child.
  rewrite (find_index_where _ (children root)).
  destruct (index_where (has_tag (lit "filter")) (children root)) as [fi|];
    [|auto].
  destruct (nth_error (children root) fi) as [fsec|]; [|auto].
  rewrite find_index_where.
  destruct (index_where is_block_rule (children fsec)) as [ri|] eqn:Eri;
    [|auto].
  destruct (index_where_nth _ _ _ Eri) as [rule [-> _]]. discriminate.
Qed.

(** X15.  When the remote document holds no block rule (or the remote
    text is no document at all), [toggle_parental_controls] returns
    [False] after reading the configuration once: nothing is pushed and
    the configuration, the temporary file and the backups are
    unchanged.  The rule is never created by the toggle. *)
Theorem toggle_without_rule (enable : bool) (w : Remote) :
  (forall root, conf w = Doc root -> fst (rule_status root) = false) ->
  let r := toggle_parental_controls enable w in
  fst r = false /\
  conf (snd r) = conf w /\
  tmp_new (snd r) = tmp_new w /\
  conf_backups (snd r) = conf_backups w /\
  trace (snd r) = trace w ++ [Ssh CatConfig].
Proof.
  intros H.
  unfold toggle_parental_controls, get_config_xml, bind, ssh_command,
    print, ret. cbn.
  destruct (succeeds w (trace w) (Ssh CatConfig)); cbn; [|auto 6].
  destruct (conf w) as [root|s] eqn:Ec; cbn.
  - specialize (H root eq_refl).
    destruct (rule_missing_toggle enable root H) as [-> | ->]; cbn; auto 6.
  - destruct (negb (is_nil (strip s))); cbn; auto 6.
Qed.

(** A remote document with a filter section that holds only another
    rule. *)
Lemma toggle_without_rule_witness :
  let w := mkRemote
             (Doc (Elem (lit "opnsense") [] None
                     [Elem (lit "filter") [] None
                        [Elem (lit "rule") [] None
                           [leaf (lit "descr") (Some (lit "Default allow LAN"))]
                           None] None] None))
             None [] [] (fun _ _ => true)
             (lit "20250101_120000") (lit "2025-01-01 12:00:00")
             (lit "11111111-2222-4333-8444-555555555555") [] in
  fst (toggle_parental_controls true w) = false /\
  trace (snd (toggle_parental_controls true w)) = [Ssh CatConfig].
Proof.
  intros w.
  assert (H : forall root, conf w = Doc root -> fst (rule_status root) = false).
  { intros root E. inversion E. reflexivity. }
  destruct (toggle_without_rule true w H) as [H1 [_ [_ [_ H5]]]].
  split; [exact H1|exact H5].
Defined.

(** ** Toggling twice *)

Lemma update_nth_twice {A} (f g : A -> A) (l : list A) (i : nat) :
  update_nth i f (update_nth i g l) = update_nth i (fun x => f (g x)) l.
Proof.
  revert i; induction l as [|y l IH]; intros [|i]; simpl; auto.
  rewrite IH. reflexivity.
Qed.

Lemma update_nth_app_last {A} (f : A -> A) (l : list A) (c : A) :
  update_nth (length l) f (l ++ [c]) = l ++ [f c].
Proof. induction l as [|y l IH]; simpl; [reflexivity|]. rewrite IH. reflexivity. Qed.

Lemma set_children_twice (cs cs' : list Element) (e : Element) :
  set_children cs' (set_children cs e) = set_children cs' e.
Proof. destruct e; reflexivity. Qed.

Lemma modify_at_ext (p : path) (g h : Element -> Element) (e : Element) :
  (forall x, g x = h x) -> modify_at p g e = modify_at p h e.
Proof.
  intros H. revert e; induction p as [|i p IH]; intros e; simpl; [apply H|].
  f_equal. apply update_nth_ext_at. intros x _. apply IH.
Qed.

Lemma modify_at_twice (p : path) (f g : Element -> Element) (e : Element) :
  modify_at p f (modify_at p g e) = modify_at p (fun x => f (g x)) e.
Proof.
  revert e; induction p as [|i p IH]; intros e; simpl; [reflexivity|].
  rewrite children_set_children, set_children_twice, update_nth_twice.
  f_equal. apply update_nth_ext_at. intros x _. apply IH.
Qed.

Lemma set_text_twice (x y : option str) (e : Element) :
  set_text y (set_text x e) = set_text y e.
Proof. destruct e; reflexivity. Qed.

(** Writing the flag of a rule twice is writing the second value. *)
Lemma set_disabled_twice (v1 v2 : str) (rule : Element) :
  set_disabled v2 (set_disabled v1 rule) = set_disabled v2 rule.
Proof.
  unfold set_disabled, with_child.
  destruct (index_where (has_tag (lit "disabled")) (children rule))
    as [i|] eqn:Ei.
  - rewrite children_set_children.
    rewrite index_where_update_neutral, Ei
      by (intros x _; unfold has_tag; rewrite tag_set_text; reflexivity).
    rewrite set_children_twice, update_nth_twice. f_equal.
    apply update_nth_ext_at. intros x _. apply set_text_twice.
  - unfold append_child. rewrite !children_set_children.
    rewrite (index_where_app_none _ _ _ Ei).
    replace (has_tag (lit "disabled")
               (set_text (Some v1) (leaf (lit "disabled") None)))
      with true by reflexivity.
    rewrite set_children_twice, update_nth_app_last. reflexivity.
Qed.

Lemma children_modify_at_cons (i : nat) (p : path) (g : Element -> Element)
  (e : Element) :
  children (modify_at (i :: p) g e) = update_nth i (modify_at p g) (children e).
Proof. simpl. apply children_set_children. Qed.

Lemma tag_modify_at_cons (i : nat) (p : path) (g : Element -> Element)
  (e : Element) : tag (modify_at (i :: p) g e) = tag e.
Proof. simpl. apply tag_set_children. Qed.

(** X16.  Toggling the rule of a document that was just toggled gives
    the same document as toggling the original one: the last value
    written wins, whether the rule had a [disabled] element or not, and
    toggling twice to the same value changes nothing the second time. *)
Theorem toggle_rule_last_wins (a b : bool) (root root' : Element) :
  toggle_rule a root = RuleUpdated root' ->
  toggle_rule b root' = toggle_rule b root /\
  toggle_rule a root' = RuleUpdated root'.
Proof.
  intros Ha.
  assert (K : forall c, toggle_rule c root' = toggle_rule c root).
  { intros c. revert Ha. unfold toggle_rule.
    destruct (index_where (has_tag (lit "filter")) (children root))
      as [fi|] eqn:Efi; [|discriminate].
    destruct (nth_error (children root) fi) as [fsec|] eqn:Efs;
      [|discriminate].
    destruct (index_where is_block_rule (children fsec)) as [ri|] eqn:Eri;
      [|discriminate].
    set (ga := set_disabled (if a then lit "0" else lit "1")).
    set (gc := set_disabled (if c then lit "0" else lit "1")).
    intros H.
    assert (E : root' = modify_at [fi; ri] ga root)
      by (injection H; intros <-; reflexivity).
    subst root'. clear H.
    rewrite (children_modify_at_cons fi [ri] ga root).
    rewrite index_where_update_neutral, Efi
      by (intros x _; unfold has_tag; rewrite tag_modify_at_cons;
          reflexivity).
    rewrite (nth_error_update_nth_eq _ _ _ _ Efs).
    rewrite (children_modify_at_cons ri [] ga fsec).
    rewrite index_where_update_neutral, Eri
      by (intros x _; apply is_block_rule_set_disabled).
    f_equal. rewrite modify_at_twice. apply modify_at_ext.
    intros x. apply set_disabled_twice. }
  split; [apply K|]. rewrite K. exact Ha.
Qed.

(** Disabling and then enabling the rule of the example document. *)
Lemma toggle_rule_last_wins_witness :
  exists root',
    toggle_rule false example_root = RuleUpdated root' /\
    toggle_rule true root' = toggle_rule true example_root.
Proof.
  destruct (toggle_rule false example_root) as [| |root'] eqn:E;
    try (vm_compute in E; discriminate).
  exists root'. split; [reflexivity|].
  exact (proj1 (toggle_rule_last_wins false true example_root root' E)).
Defined.

(** ** A successful pass over the alias *)

Lemma print_devices_frame (devices : list Device) (w : Remote) :
  let w' := snd (print_devices devices w) in
  conf w' = conf w /\ tmp_new w' = tmp_new w /\
  conf_backups w' = conf_backups w /\ trace w' = trace w /\
  succeeds w' = succeeds w.
Proof.
  revert w; induction devices as [|d devices IH]; intros w; cbn.
  - auto.
  - unfold bind, print. cbn.
    match goal with
    | |- context [print_devices devices ?v] =>
        destruct (IH v) as [H1 [H2 [H3 [H4 H5]]]];
        destruct (print_devices devices v) as [u w2]
    end.
    cbn in *. auto.
Qed.

Lemma apply_true_inv (x : XmlText) (w w' : Remote) :
  apply_config_xml x w = (true, w') ->
  conf w' = x /\ conf_backups w' = conf_backups w /\
  succeeds w' = succeeds w /\
  exists rest, trace w' = trace w ++ Scp x :: Ssh MvNewConfig :: rest.
Proof.
  run_remote.
  destruct (succeeds w (trace w) (Scp x)); cbn; [|discriminate].
  destruct (succeeds w (trace w ++ [Scp x]) (Ssh MvNewConfig)); cbn;
    [|discriminate].
  repeat match goal with
         | |- context [if succeeds w ?t ?ev then _ else _] =>
             destruct (succeeds w t ev); cbn
         end;
    intros H; inversion H; subst; cbn;
    (split; [reflexivity|]); (split; [reflexivity|]); (split; [reflexivity|]);
    rewrite <- ?app_assoc; cbn; eexists; reflexivity.
Qed.

Lemma sync_true_inv (alias_name : str) (fs : FS) (w w1 : Remote) :
  create_or_update_mac_alias alias_name fs w = (true, w1) ->
  exists root,
    let new_doc :=
      Doc (canon (upsert_alias alias_name (next_uuid w) (clock_text w)
                    (get_enabled_devices fs) root)) in
    let backup :=
      lit "config_backup_parental_controls_" ++ clock_stamp w ++ lit ".xml" in
    conf w = Doc root /\
    get_enabled_devices fs <> [] /\
    conf w1 = new_doc /\
    conf_backups w1 = (backup, Doc root) :: conf_backups w /\
    succeeds w1 = succeeds w /\
    exists rest,
      trace w1 = trace w ++ Ssh (CpConfig backup) :: Ssh CatConfig ::
                 Scp new_doc :: Ssh MvNewConfig :: rest.
Proof.
  unfold create_or_update_mac_alias.
  destruct (get_enabled_devices fs) as [|d0 ds] eqn:Ed;
    [unfold bind, print, ret; cbn; discriminate|].
  cbn [is_nil].
  unfold backup_config, get_config_xml, ssh_command, bind, print, ret. cbn.
  match goal with
  | |- context [if succeeds w ?t ?ev then _ else _] =>
      destruct (succeeds w t ev); cbn; [|discriminate]
  end.
  match goal with
  | |- context [if succeeds w ?t ?ev then _ else _] =>
      destruct (succeeds w t ev); cbn; [|discriminate]
  end.
  destruct (conf w) as [root|s] eqn:Ec; cbn.
  - match goal with
    | |- context [apply_config_xml ?x ?v] =>
        destruct (apply_config_xml x v) as [[] w2] eqn:Ea; cbn;
          [|discriminate]
    end.
    destruct (apply_true_inv _ _ _ Ea) as [H1 [H2 [H3 [rest H4]]]].
    cbn in H1, H2, H3, H4.
    match goal with
    | |- context [print_devices ?l ?v] =>
        pose proof (print_devices_frame l v) as F;
        destruct (print_devices l v) as [u w3]
    end.
    cbn in F. destruct F as [F1 [_ [F3 [F4 F5]]]].
    intros H. inversion H; subst w1; clear H.
    exists root. cbn zeta.
    split; [reflexivity|]. split; [discriminate|].
    split; [rewrite F1, H1; reflexivity|].
    split; [rewrite F3, H2; reflexivity|].
    split; [rewrite F5, H3; reflexivity|].
    exists rest. rewrite F4, H4, <- !app_assoc. reflexivity.
  - destruct (negb (is_nil (strip s))); cbn; discriminate.
Qed.

(** X17.  When [create_or_update_mac_alias] returns [True], there was an
    enabled device and a well-formed remote document; a backup holding
    that document was made before anything was pushed, under the name
    built from the clock; the backup, the reading, the copy and the
    move were the first transport calls, in this order; and the remote
    configuration now is the document with the alias written into
    it. *)
Theorem sync_success_state (alias_name : str) (fs : FS) (w w1 : Remote) :
  create_or_update_mac_alias alias_name fs w = (true, w1) ->
  exists root rest,
    let new_doc :=
      Doc (canon (upsert_alias alias_name (next_uuid w) (clock_text w)
                    (get_enabled_devices fs) root)) in
    let backup :=
      lit "config_backup_parental_controls_" ++ clock_stamp w ++ lit ".xml" in
    conf w = Doc root /\
    get_enabled_devices fs <> [] /\
    conf w1 = new_doc /\
    conf_backups w1 = (backup, Doc root) :: conf_backups w /\
    trace w1 = trace w ++ Ssh (CpConfig backup) :: Ssh CatConfig ::
               Scp new_doc :: Ssh MvNewConfig :: rest.
Proof.
  intros H.
  destruct (sync_true_inv _ _ _ _ H) as [root [H1 [H2 [H3 [H4 [_ [rest H6]]]]]]].
  exists root, rest. cbn zeta. auto.
Qed.

(** The two devices of the example store written to the example host. *)
Lemma sync_success_state_witness :
  exists w1,
    create_or_update_mac_alias ALIAS_NAME example_fs example_remote
    = (true, w1) /\
    conf_backups w1 =
      [(lit "config_backup_parental_controls_20250101_120000.xml",
        Doc example_root)].
Proof.
  destruct (create_or_update_mac_alias ALIAS_NAME example_fs example_remote)
    as [b w1] eqn:E.
  assert (Hb : b = true).
  { change b with (fst (b, w1)). rewrite <- E. vm_compute. reflexivity. }
  subst b. exists w1. split; [reflexivity|].
  destruct (sync_success_state _ _ _ _ E) as [root [rest [Hc [_ [_ [Hb _]]]]]].
  cbn zeta in Hb. rewrite Hb.
  assert (Hr : Doc root = Doc example_root) by (rewrite <- Hc; reflexivity).
  rewrite Hr. reflexivity.
Defined.

(** ** The status after a pass over the alias *)

Lemma status_ok_alias (fs : FS) (w w' : Remote) (st : Status) :
  get_parental_control_status fs w = (StatusOk st, w') ->
  exists root,
    conf w = Doc root /\
    alias_exists st =
      match find_alias_by_name root ALIAS_NAME with
      | Some _ => true
      | None => false
      end /\
    device_count st = length (get_enabled_devices fs).
Proof.
  unfold get_parental_control_status, get_config_xml, ssh_command, bind,
    print, ret. cbn.
  destruct (succeeds w (trace w) (Ssh CatConfig)); cbn; [|discriminate].
  destruct (conf w) as [root|s] eqn:Ec; cbn.
  - destruct (rule_status root) as [ex en]. cbn.
    intros H. inversion H; subst. exists root. cbn. auto.
  - destruct (negb (is_nil (strip s))); cbn; discriminate.
Qed.

(** X18.  After a pass over the alias that returned [True], a status
    read next (one that returns a status) reports the alias as existing
    and counts at least one device, the number of enabled devices of the
    registry.  The premise on the document is the one under which the
    lookup reads the section the pass wrote to. *)
Theorem sync_then_status (fs : FS) (w w1 w2 : Remote) (st : Status) :
  create_or_update_mac_alias ALIAS_NAME fs w = (true, w1) ->
  get_parental_control_status fs w1 = (StatusOk st, w2) ->
  (forall root, conf w = Doc root ->
     find_alias_by_name (ensure_sections root) ALIAS_NAME <> None \/
     lookup_reads_selected_section root) ->
  alias_exists st = true /\
  device_count st = length (get_enabled_devices fs) /\
  1 <= device_count st.
Proof.
  intros Hs Hst Hdoc.
  destruct (sync_true_inv _ _ _ _ Hs) as [root [Hc [Hne [Hc1 _]]]].
  cbn zeta in Hc1.
  destruct (status_ok_alias _ _ _ _ Hst) as [r [Hr [Ha Hn]]].
  rewrite Hc1 in Hr. inversion Hr; subst r; clear Hr.
  assert (Hname : ALIAS_NAME <> []) by discriminate.
  assert (Hfound : exists q,
             find_alias_by_name
               (canon (upsert_alias ALIAS_NAME (next_uuid w) (clock_text w)
                         (get_enabled_devices fs) root)) ALIAS_NAME = Some q).
  { destruct (find_alias_by_name (ensure_sections root) ALIAS_NAME)
      as [q|] eqn:Ef.
    - destruct (upsert_existing ALIAS_NAME (next_uuid w) (clock_text w)
                  (get_enabled_devices fs) root q Hname Ef)
        as [e0 [_ [H1 _]]].
      exists q. exact H1.
    - destruct (Hdoc root Hc) as [H|H]; [rewrite Ef in H; congruence|].
      destruct (upsert_new ALIAS_NAME (next_uuid w) (clock_text w)
                  (get_enabled_devices fs) root Hname Ef H)
        as [q [H1 _]].
      exists q. exact H1. }
  destruct Hfound as [q Hq]. rewrite Hq in Ha.
  split; [exact Ha|]. split; [exact Hn|]. rewrite Hn.
  destruct (get_enabled_devices fs); [congruence|simpl; lia].
Qed.

(** The example store written to the example host, then the status. *)
Lemma sync_then_status_witness :
  exists w1 st w2,
    create_or_update_mac_alias ALIAS_NAME example_fs example_remote
    = (true, w1) /\
    get_parental_control_status example_fs w1 = (StatusOk st, w2) /\
    alias_exists st = true /\ device_count st = 2.
Proof.
  destruct (create_or_update_mac_alias ALIAS_NAME example_fs example_remote)
    as [b w1] eqn:E.
  assert (Hb : b = true).
  { change b with (fst (b, w1)). rewrite <- E. vm_compute. reflexivity. }
  subst b.
  destruct (get_parental_control_status example_fs w1) as [res w2] eqn:Es.
  assert (Hres : exists st, res = StatusOk st).
  { destruct (sync_true_inv _ _ _ _ E) as [root [_ [_ [Hc1 [_ [Hs1 _]]]]]].
    cbn zeta in Hc1.
    assert (Hrel : reliable w1) by (intros t ev; rewrite Hs1; reflexivity).
    destruct (status_reliable example_fs w1 _ Hrel Hc1) as [st Hst].
    rewrite Es in Hst. exists st. exact Hst. }
  destruct Hres as [st ->].
  exists w1, st, w2. split; [reflexivity|]. split; [exact Es|].
  assert (Hdoc : forall root, conf example_remote = Doc root ->
            find_alias_by_name (ensure_sections root) ALIAS_NAME <> None \/
            lookup_reads_selected_section root).
  { intros root Hr. inversion Hr. left. vm_compute. discriminate. }
  destruct (sync_then_status example_fs example_remote w1 w2 st E Es Hdoc)
    as [H1 [H2 _]].
  split; [exact H1|]. rewrite H2. reflexivity.
Defined.

(** ** The block rule after its creation *)

Lemma find_app_none {A} (p : A -> bool) (l : list A) (c : A) :
  index_where p l = None -> p c = true -> List.find p (l ++ [c]) = Some c.
Proof.
  intros Hn Hc. rewrite find_index_where, (index_where_app_none _ _ _ Hn), Hc.
  apply nth_error_app_last.
Qed.

(** A rule whose children were written by [create_parental_control_rule]
    under the default name is a block rule, and its flag reads as it was
    written, also after the trip through the text of the document. *)
Lemma written_rule_is_block_rule (now : str) (enabled0 : bool)
  (t : str) (a : list (str * str)) (x tl : option str) :
  let rule := Elem t a x (rule_children MARKER now enabled0) tl in
  is_block_rule rule = has_tag (lit "rule") rule /\
  (match find_child (lit "disabled") (canon rule) with
   | None => true
   | Some disabled_elem =>
       match text disabled_elem with
       | Some v => negb (eqb v (lit "1"))
       | None => true
       end
   end) = enabled0.
Proof.
  cbn zeta. split.
  - unfold is_block_rule.
    replace (find_child (lit "descr")
               (Elem t a x (rule_children MARKER now enabled0) tl))
      with (Some (leaf (lit "descr") (Some (rule_description MARKER now))))
      by reflexivity.
    cbn [text leaf].
    replace (negb (is_nil (rule_description MARKER now))) with true
      by reflexivity.
    replace (contains MARKER (rule_description MARKER now)) with true
      by reflexivity.
    destruct (has_tag (lit "rule") (Elem t a x _ tl)); reflexivity.
  - destruct enabled0; reflexivity.
Qed.

Lemma rule_status_after_upsert (fresh_uuid now : str) (enabled0 : bool)
  (root : Element) :
  rule_status (canon (upsert_rule MARKER fresh_uuid now enabled0 root))
  = (true, enabled0).
Proof.
  unfold rule_status, upsert_rule.
  rewrite find_child_canon.
  rewrite find_child_with_child; [|reflexivity|].
  2:{ intros s. unfold has_tag.
      destruct (index_where _ (children s)); [apply f_equal2; [|reflexivity]|];
        [apply tag_set_children|].
      unfold append_child. rewrite tag_set_children. reflexivity. }
  cbn [option_map].
  set (c := match find_child (lit "filter") root with
            | Some c => c
            | None => leaf (lit "filter") None
            end).
  rewrite children_canon.
  rewrite (find_map_invariant _ _ _ is_block_rule_canon).
  change (is_rule_named MARKER) with is_block_rule.
  destruct (index_where is_block_rule (children c)) as [i|] eqn:Ei.
  - destruct (index_where_nth _ _ _ Ei) as [r [Hr Hb]].
    rewrite children_set_children.
    destruct r as [t a x cs tl].
    destruct (written_rule_is_block_rule now enabled0 t a x tl) as [B D].
    cbn zeta in B, D.
    assert (Ht : has_tag (lit "rule") (Elem t a x cs tl) = true).
    { unfold is_block_rule in Hb. apply andb_true_iff in Hb. apply Hb. }
    rewrite (find_update _ _ _ i _ Ei Hr)
      by (cbn [set_children]; rewrite B; exact Ht).
    cbn [option_map set_children]. rewrite D. reflexivity.
  - unfold append_child. rewrite children_set_children.
    destruct (written_rule_is_block_rule now enabled0 (lit "rule")
                [(lit "uuid", fresh_uuid)] None None) as [B D].
    cbn zeta in B, D.
    rewrite (find_app_none _ _ _ Ei) by (rewrite B; reflexivity).
    cbn [option_map]. rewrite D. reflexivity.
Qed.

Lemma create_rule_true_inv (rule_name : str) (enabled0 : bool)
  (w w1 : Remote) :
  create_parental_control_rule rule_name enabled0 w = (true, w1) ->
  exists root,
    conf w = Doc root /\
    conf w1 = Doc (canon (upsert_rule rule_name (next_uuid w) (clock_text w)
                            enabled0 root)) /\
    conf_backups w1 =
      (lit "config_backup_parental_controls_" ++ clock_stamp w ++ lit ".xml",
       Doc root) :: conf_backups w /\
    succeeds w1 = succeeds w.
Proof.
  unfold create_parental_control_rule.
  unfold backup_config, get_config_xml, ssh_command, bind, print, ret. cbn.
  match goal with
  | |- context [if succeeds w ?t ?ev then _ else _] =>
      destruct (succeeds w t ev); cbn; [|discriminate]
  end.
  match goal with
  | |- context [if succeeds w ?t ?ev then _ else _] =>
      destruct (succeeds w t ev); cbn; [|discriminate]
  end.
  destruct (conf w) as [root|s] eqn:Ec; cbn.
  - intros Ea.
    destruct (apply_true_inv _ _ _ Ea) as [H1 [H2 [H3 _]]].
    cbn in H1, H2, H3. exists root.
    split; [reflexivity|]. split; [exact H1|]. split; [exact H2|exact H3].
  - destruct (negb (is_nil (strip s))); cbn; discriminate.
Qed.

Lemma create_rule_reliable (rule_name : str) (enabled0 : bool) (w : Remote)
  (root : Element) :
  reliable w -> conf w = Doc root ->
  fst (create_parental_control_rule rule_name enabled0 w) = true.
Proof.
  intros Hrel Hc. unfold create_parental_control_rule.
  unfold backup_config, get_config_xml, ssh_command, bind, print, ret. cbn.
  repeat (rewrite Hrel; cbn). rewrite Hc. cbn.
  apply apply_reliable. intros t ev. apply Hrel.
Qed.

(** X19.  The rule that [create_parental_control_rule] writes under its
    default name is the rule that the status and the toggle look for:
    when the creation returns [True], whatever the document held, a
    status read next (one that returns a status) reports the rule as
    existing and [rule_enabled] as the creation was asked; and when no
    transport call fails and the remote text is a document, the
    creation does return [True], the status read returns a status and a
    toggle made next succeeds. *)
Theorem create_rule_then_status (enabled0 : bool) (fs : FS) (w : Remote) :
  (forall w1 st w2,
      create_parental_control_rule MARKER enabled0 w = (true, w1) ->
      get_parental_control_status fs w1 = (StatusOk st, w2) ->
      rule_exists st = true /\ rule_enabled st = enabled0) /\
  (forall root,
      conf w = Doc root -> reliable w ->
      exists w1 st w2,
        create_parental_control_rule MARKER enabled0 w = (true, w1) /\
        get_parental_control_status fs w1 = (StatusOk st, w2) /\
        rule_enabled st = enabled0 /\
        forall enable, fst (toggle_parental_controls enable w1) = true).
Proof.
  assert (A : forall w1 st w2,
             create_parental_control_rule MARKER enabled0 w = (true, w1) ->
             get_parental_control_status fs w1 = (StatusOk st, w2) ->
             rule_exists st = true /\ rule_enabled st = enabled0).
  { intros w1 st w2 Hc Hs.
    destruct (create_rule_true_inv _ _ _ _ Hc) as [root [_ [Hc1 _]]].
    destruct (status_ok_reads _ _ _ _ Hs) as [r [Hr [He Hn]]].
    rewrite Hc1 in Hr. inversion Hr; subst r.
    rewrite rule_status_after_upsert in He, Hn. auto. }
  split; [exact A|].
  intros root Hc Hrel.
  pose proof (create_rule_reliable MARKER enabled0 w root Hrel Hc) as Ht.
  destruct (create_parental_control_rule MARKER enabled0 w) as [b w1] eqn:Et.
  cbn in Ht. subst b.
  destruct (create_rule_true_inv _ _ _ _ Et) as [r0 [_ [Hc1 [_ Hs1]]]].
  assert (Hrel1 : reliable w1) by (intros t ev; rewrite Hs1; apply Hrel).
  destruct (status_reliable fs w1 _ Hrel1 Hc1) as [st Hst].
  destruct (get_parental_control_status fs w1) as [res w2] eqn:Es.
  cbn in Hst. subst res.
  exists w1, st, w2. split; [reflexivity|]. split; [exact Es|].
  split; [exact (proj2 (A w1 st w2 eq_refl Es))|].
  intros enable. apply (toggle_reliable enable w1 _ Hrel1 Hc1).
  rewrite rule_status_after_upsert. reflexivity.
Qed.

(** The rule created, disabled, on a host whose document has no filter
    section. *)
Lemma create_rule_then_status_witness :
  let w := mkRemote (Doc (Elem (lit "opnsense") [] None [] None)) None [] []
                    (fun _ _ => true)
                    (lit "20250101_120000") (lit "2025-01-01 12:00:00")
                    (lit "11111111-2222-4333-8444-555555555555") [] in
  exists w1 st w2,
    create_parental_control_rule MARKER false w = (true, w1) /\
    get_parental_control_status example_fs w1 = (StatusOk st, w2) /\
    rule_enabled st = false.
Proof.
  intros w.
  destruct (proj2 (create_rule_then_status false example_fs w)
              (Elem (lit "opnsense") [] None [] None) eq_refl
              (fun _ _ => eq_refl))
    as [w1 [st [w2 [H1 [H2 [H3 _]]]]]].
  exists w1, st, w2. auto.
Defined.

(** ** The handlers of [real_backend.py] *)

Lemma sync_without_devices (alias_name : str) (fs : FS) (w : Remote) :
  get_enabled_devices fs = [] ->
  let r := create_or_update_mac_alias alias_name fs w in
  fst r = false /\ conf (snd r) = conf w /\ tmp_new (snd r) = tmp_new w /\
  conf_backups (snd r) = conf_backups w /\ trace (snd r) = trace w.
Proof.
  intros H. unfold create_or_update_mac_alias. rewrite H.
  unfold bind, print, ret. cbn. auto.
Qed.

Lemma status_frame (fs : FS) (w : Remote) :
  conf (snd (get_parental_control_status fs w)) = conf w.
Proof.
  unfold get_parental_control_status, get_config_xml, ssh_command, bind,
    print, ret. cbn.
  destruct (succeeds w (trace w) (Ssh CatConfig)); cbn; [|reflexivity].
  destruct (conf w) as [root|s] eqn:Ec; cbn.
  - destruct (rule_status root). cbn. auto.
  - destruct (negb (is_nil (strip s))); cbn; auto.
Qed.

(** X20.  The toggle handler with a registry that has no enabled device
    answers 500 for either target state, turning the controls off
    included, and makes no transport call: the remote host is left as it
    was. *)
Theorem toggle_controls_without_devices (target_state : bool) (fs : FS)
  (w : Remote) :
  get_enabled_devices fs = [] ->
  let r := toggle_controls target_state fs w in
  fst r = mkResponse 500 false /\
  trace (snd r) = trace w /\
  conf (snd r) = conf w /\
  conf_backups (snd r) = conf_backups w.
Proof.
  intros H. cbv zeta. unfold toggle_controls, bind.
  destruct (sync_without_devices ALIAS_NAME fs w H) as [H1 [H2 [_ [H4 H5]]]].
  destruct (create_or_update_mac_alias ALIAS_NAME fs w) as [b w1].
  cbn in H1, H2, H4, H5. subst b. cbn. auto.
Qed.

(** Turning the controls off with an empty registry. *)
Lemma toggle_controls_without_devices_witness :
  fst (toggle_controls false example_empty_fs example_remote)
  = mkResponse 500 false /\
  trace (snd (toggle_controls false example_empty_fs example_remote)) = [].
Proof.
  destruct (toggle_controls_without_devices false example_empty_fs
              example_remote eq_refl) as [H1 [H2 _]].
  split; [exact H1|exact H2].
Defined.

(** X21.  When the toggle handler answers 200, the registry has an
    enabled device and the remote configuration is a document in which
    the block rule exists and is enabled exactly when the target state
    asked for is on. *)
Theorem toggle_controls_success (target_state : bool) (fs : FS)
  (w : Remote) :
  status_code (fst (toggle_controls target_state fs w)) = 200 ->
  get_enabled_devices fs <> [] /\
  exists root,
    conf (snd (toggle_controls target_state fs w)) = Doc root /\
    rule_status root = (true, target_state).
Proof.
  unfold toggle_controls, bind.
  destruct (create_or_update_mac_alias ALIAS_NAME fs w) as [[] w1] eqn:Es;
    cbn [negb]; [|cbn; discriminate].
  destruct (toggle_parental_controls target_state w1) as [[] w2] eqn:Et;
    [|cbn; discriminate].
  intros _.
  destruct (sync_true_inv _ _ _ _ Es) as [r0 [_ [Hne _]]].
  split; [exact Hne|].
  destruct (toggle_true_conf _ _ _ Et) as [root [root' [_ [Hr [Hc _]]]]].
  exists (canon root'). split.
  - pose proof (status_frame fs w2) as F.
    destruct (get_parental_control_status fs w2) as [res w3].
    cbn in F. cbn. rewrite F. exact Hc.
  - apply (rule_status_after_toggle _ _ _ Hr).
Qed.

(** Turning the controls on with the example store and host. *)
Lemma toggle_controls_success_witness :
  exists root,
    conf (snd (toggle_controls true example_fs example_remote)) = Doc root /\
    rule_status root = (true, true).
Proof.
  apply (toggle_controls_success true example_fs example_remote).
  vm_compute. reflexivity.
Defined.

(** X22.  The delete handler when no enabled device is left afterwards:
    the remote host is not contacted and keeps its configuration, so an
    alias written earlier keeps the addresses it had, while the handler
    answers 200 as soon as the registry was changed. *)
Theorem delete_device_handler_last_device (device_id : Z) (fs : FS)
  (w : Remote) :
  get_enabled_devices (snd (delete_device device_id fs)) = [] ->
  let r := delete_device_handler device_id fs w in
  conf (snd r) = conf w /\
  conf_backups (snd r) = conf_backups w /\
  trace (snd r) = trace w /\
  snd (fst r) = snd (delete_device device_id fs) /\
  (fst (delete_device device_id fs) = Ok true ->
   fst (fst r) = mkResponse 200 true).
Proof.
  intros H. cbv zeta. unfold delete_device_handler.
  destruct (delete_device device_id fs) as [[[]|e] fs'] eqn:Ed; cbn in H.
  - destruct (sync_without_devices ALIAS_NAME fs' w H) as [_ [H2 [_ [H4 H5]]]].
    destruct (create_or_update_mac_alias ALIAS_NAME fs' w) as [b w1].
    cbn in *. auto.
  - cbn. repeat split; auto. discriminate.
  - destruct e; cbn; repeat split; auto; discriminate.
Qed.

(** The only device of a store deleted, with the example host. *)
Lemma delete_device_handler_last_device_witness :
  let fs := snd (add_device (lit "Phone") (lit "AA:BB:CC:DD:EE:03")
                   example_empty_fs) in
  fst (fst (delete_device_handler 1 fs example_remote))
  = mkResponse 200 true /\
  conf (snd (delete_device_handler 1 fs example_remote)) = Doc example_root /\
  trace (snd (delete_device_handler 1 fs example_remote)) = [].
Proof.
  intros fs.
  assert (H : get_enabled_devices (snd (delete_device 1 fs)) = [])
    by (vm_compute; reflexivity).
  destruct (delete_device_handler_last_device 1 fs example_remote H)
    as [H1 [_ [H3 [_ H5]]]].
  split; [apply H5; vm_compute; reflexivity|].
  split; [exact H1|exact H3].
Defined.
